(** * LinDB broker write path: row batches, shard routing, family grouping,
      shard channels and replica sequences.

    A shallow embedding of
      - series/metric/row_broker.go   (BrokerRow, BrokerBatchRows and its two iterators),
      - replica/channel_shard.go      (GetOrCreateFamilyChannel),
      - tsdb/sequence.go              (newReplicaSequence),
      - replica/replicator_remote_test.go (the remote replicator, seen through its test),
    together with the properties the specification states about them.

    Layout: the models come first, one module per Go package; then the
    predicates and the sample data the properties are stated with; then
    the theorems, in modules of their own. *)

From Stdlib Require Import ZArith List Lia Bool Permutation Sorted.
From Stdlib Require Floats Uint63.
From stdpp Require Import base option list sorting gmap strings.

(* ===================================================================== *)
(** * Part I.  Models                                                     *)
(* ===================================================================== *)

(** ** github.com/lithammer/go-jump-consistent-hash

    [row_broker.go] routes a row with [jump.Hash(hash, numOfShards)]:

<<
    func Hash(key uint64, buckets int32) int32 {
        var b, j int64
        if buckets <= 0 { buckets = 1 }
        for j < int64(buckets) {
            b = j
            key = key*2862933555777941757 + 1
            j = int64(float64(b+1) * (float64(int64(1)<<31) / float64((key>>33)+1)))
        }
        return int32(b)
    }
>>

    The loop body computes in IEEE-754 binary64.  Every float that occurs is
    positive, finite and normal (between 1 and 2^62), so a binary64 value
    is modelled as mantissa and exponent in [Z], and each operation rounds
    the exact rational result to 53 significant bits, ties to even. *)
Module Jump.
Local Open Scope Z_scope.

(** [uint64] arithmetic wraps modulo 2^64. *)
Definition wrap64 (z : Z) : Z := z mod 2 ^ 64.

(** A positive binary64 value [mant * 2 ^ expo]. *)
Record float64 : Type := Float64 { mant : Z; expo : Z }.

(** The value of a float as a fraction [(numerator, denominator)]. *)
Definition to_rat (x : float64) : Z * Z :=
  if 0 <=? expo x then (mant x * 2 ^ expo x, 1) else (mant x, 2 ^ (- expo x)).

(** Nearest integer to [n / d], ties to the even one. *)
Definition rne (n d : Z) : Z :=
  let q := n / d in
  let r := n mod d in
  if 2 * r <? d then q
  else if d <? 2 * r then q + 1
  else if Z.even q then q else q + 1.

(** [n / (d * 2 ^ e)] as a fraction of integers. *)
Definition scale (n d e : Z) : Z * Z :=
  if 0 <=? e then (n, d * 2 ^ e) else (n * 2 ^ (- e), d).

(** The binary64 exponent of the positive rational [n / d]: the [e] with
    [2^52 <= n / (d * 2^e) < 2^53]. *)
Definition exponent53 (n d : Z) : Z :=
  let e0 := Z.log2 n - Z.log2 d - 52 in
  let '(n0, d0) := scale n d e0 in
  if n0 <? d0 * 2 ^ 52 then e0 - 1 else e0.

(** Rounding of the positive rational [n / d] to binary64: the mantissa is
    [n / (d * 2^e)] rounded to the nearest integer, ties to even. *)
Definition round53 (n d : Z) : float64 :=
  let e := exponent53 n d in
  let '(n1, d1) := scale n d e in
  Float64 (rne n1 d1) e.

(** [float64(z)] for a positive integer. *)
Definition float64_of_int (z : Z) : float64 := round53 z 1.

(** [x / y] in binary64. *)
Definition fdiv (x y : float64) : float64 :=
  let '(nx, dx) := to_rat x in
  let '(ny, dy) := to_rat y in
  round53 (nx * dy) (dx * ny).

(** [x * y] in binary64. *)
Definition fmul (x y : float64) : float64 :=
  let '(nx, dx) := to_rat x in
  let '(ny, dy) := to_rat y in
  round53 (nx * ny) (dx * dy).

(** [int64(x)]: truncation toward zero (the values here stay below 2^63). *)
Definition int64_of_float (x : float64) : Z :=
  let '(n, d) := to_rat x in n / d.

(** One pass through the loop body: the new [key] and the new [j]. *)
Definition next_key (key : Z) : Z := wrap64 (key * 2862933555777941757 + 1).

Definition next_j (b key : Z) : Z :=
  int64_of_float
    (fmul (float64_of_int (b + 1))
          (fdiv (float64_of_int (Z.shiftl 1 31))
                (float64_of_int (Z.shiftr key 33 + 1)))).

(** The [for j < int64(buckets)] loop; [fuel] bounds the number of passes
    and [None] means that the bound was too small. *)
Fixpoint hash_loop (fuel : nat) (key b j buckets : Z) : option Z :=
  if j <? buckets then
    match fuel with
    | O => None
    | S fuel' =>
        let b := j in
        let key := next_key key in
        let j := next_j b key in
        hash_loop fuel' key b j buckets
    end
  else Some b.

Definition clamp_buckets (buckets : Z) : Z := if buckets <=? 0 then 1 else buckets.

(** [int32(b)] *)
Definition wrap_int32 (z : Z) : Z := (z + 2 ^ 31) mod 2 ^ 32 - 2 ^ 31.

(** [jump.Hash] with an explicit bound on the passes of its loop. *)
Definition Hash_fuel (fuel : nat) (key buckets : Z) : option Z :=
  wrap_int32 <$> hash_loop fuel key 0 0 (clamp_buckets buckets).

(** [jump.Hash(key, buckets)]: [j] grows on every pass (lemma
    [JumpFacts.Hash_fuel_total] below), so [buckets] passes are enough. *)
Definition Hash (key buckets : Z) : Z :=
  default 0 (Hash_fuel (Z.to_nat (clamp_buckets buckets)) key buckets).

End Jump.

(** ** Go's [sort.Sort]

    The standard library is not part of the repository.  Both callers sort
    with a [Less] that compares an integer key with [<] (the shard id in
    [BrokerBatchRows.Less], the timestamp in [familySortedRows.Less]), so a
    sorting routine is modelled by what it does to a list under such a key.
    Of [sort.Sort] only the documented contract is used: the data is
    permuted in place into ascending order, and the sort is not guaranteed
    to be stable. *)
Module GoSort.
Local Open Scope Z_scope.

Definition ascending {A : Type} (key : A -> Z) (l : list A) : Prop :=
  StronglySorted (fun x y => key x <= key y) l.

(** A sorting routine: what [sort.Sort] makes of a list under a key. *)
Class Sorter : Type := sort_by : forall {A : Type}, (A -> Z) -> list A -> list A.

(** The contract of [sort.Sort]. *)
Record contract (sorter : Sorter) : Prop := {
  sort_by_perm : forall {A : Type} (key : A -> Z) (l : list A),
    Permutation (sort_by key l) l;
  sort_by_ascending : forall {A : Type} (key : A -> Z) (l : list A),
    ascending key (sort_by key l)
}.

(** Two routines that meet this contract, both insertion sorts: [stable]
    puts an element before the elements of equal key that follow it, and
    keeps the order of equal keys; [reversing] puts it behind them, and
    reverses that order. *)
Fixpoint insert_by {A : Type} (before : Z -> Z -> bool) (key : A -> Z)
    (x : A) (l : list A) : list A :=
  match l with
  | [] => [x]
  | y :: l' => if before (key x) (key y) then x :: l else y :: insert_by before key x l'
  end.

Definition insertion_sort {A : Type} (before : Z -> Z -> bool) (key : A -> Z)
    (l : list A) : list A :=
  foldr (insert_by before key) [] l.

Definition stable : Sorter := fun A => insertion_sort Z.leb.

Definition reversing : Sorter := fun A => insertion_sort Z.ltb.

End GoSort.

(** ** pkg/timeutil

    The package is not among the sources; [row_broker.go] uses its
    [IntervalCalculator] interface and its [TimeRange]. *)
Module Timeutil.
Local Open Scope Z_scope.

(** The four methods of [timeutil.IntervalCalculator] that the family
    iterator calls. *)
Record IntervalCalculator : Type := {
  CalcSegmentTime : Z -> Z;
  CalcFamily : Z -> Z -> Z;
  CalcFamilyStartTime : Z -> Z -> Z;
  CalcFamilyEndTime : Z -> Z
}.

Record TimeRange : Type := { Start : Z; End : Z }.

(** Modelled from the spec: [timeutil.TimeRange.Contains] is missing from
    the sources; a family window is the closed range familyStart..familyEnd. *)
Definition Contains (r : TimeRange) (timestamp : Z) : bool :=
  (Start r <=? timestamp) && (timestamp <=? End r).

(** The family start time of a timestamp, as [familyTimeOfTimestamp] in
    [row_broker.go] composes it from the calculator's methods. *)
Definition familyStart (calc : IntervalCalculator) (timestamp : Z) : Z :=
  let segmentTime := CalcSegmentTime calc timestamp in
  CalcFamilyStartTime calc segmentTime (CalcFamily calc timestamp segmentTime).

(** What the family iterator relies on: a timestamp lies in its own family
    window, and later timestamps do not have earlier family start times. *)
Record lawful (calc : IntervalCalculator) : Prop := {
  own_window : forall ts,
    familyStart calc ts <= ts <= CalcFamilyEndTime calc (familyStart calc ts);
  family_monotone : forall ts1 ts2,
    ts1 <= ts2 -> familyStart calc ts1 <= familyStart calc ts2
}.

(** A calculator with segments of [segment] milliseconds cut into families
    of [width] milliseconds, in the manner of the day interval (segments of
    one day, families of one hour). *)
Definition fixedWidth (segment width : Z) : IntervalCalculator :=
  {| CalcSegmentTime := fun timestamp => timestamp - timestamp mod segment;
     CalcFamily := fun timestamp segmentTime => (timestamp - segmentTime) / width;
     CalcFamilyStartTime := fun segmentTime family => segmentTime + family * width;
     CalcFamilyEndTime := fun familyStartTime => familyStartTime + width - 1 |}.

End Timeutil.

(** ** series/metric/row_broker.go *)
Module metric.
Import GoSort Timeutil.
Local Open Scope Z_scope.

Definition error : Type := string.

(** [int64] arithmetic wraps modulo 2^64 into [-2^63, 2^63). *)
Definition wrap_int64 (z : Z) : Z := (z + 2 ^ 63) mod 2 ^ 64 - 2 ^ 63.

(** [flatMetricsV1.Metric]: the flat-buffer view of one row, seen through
    the two accessors the broker uses. *)
Record Metric : Type := { Timestamp : Z; Hash : Z }.

Record BrokerRow : Type := {
  m : Metric;
  buffer : list Byte.byte;
  ShardID : Z;
  IsOutOfTimeRange : bool
}.

(** [BrokerRow{}] *)
Definition zeroRow : BrokerRow :=
  {| m := {| Timestamp := 0; Hash := 0 |}; buffer := []; ShardID := 0;
     IsOutOfTimeRange := false |}.

Definition with_ShardID (id : Z) (row : BrokerRow) : BrokerRow :=
  {| m := m row; buffer := buffer row; ShardID := id;
     IsOutOfTimeRange := IsOutOfTimeRange row |}.

Definition with_IsOutOfTimeRange (flag : bool) (row : BrokerRow) : BrokerRow :=
  {| m := m row; buffer := buffer row; ShardID := ShardID row;
     IsOutOfTimeRange := flag |}.

(** [flatbuffers.GetSizePrefix(buf, 0)]: the little-endian [uint32] in the
    first four bytes; [None] where Go panics on a short buffer. *)
Definition GetSizePrefix (buf : list Byte.byte) : option nat :=
  match buf with
  | b0 :: b1 :: b2 :: b3 :: _ =>
      Some (N.to_nat (Byte.to_N b0 + 256 * (Byte.to_N b1 + 256 * (Byte.to_N b2
                        + 256 * Byte.to_N b3))))
  | _ => None
  end.

(** [s[lo:hi]]; [None] where Go panics (the capacity of a slice is taken to
    be its length). *)
Definition slice {A : Type} (s : list A) (lo hi : nat) : option (list A) :=
  if decide (lo <= hi <= length s)%nat then Some (take (hi - lo) (drop lo s)) else None.

(** [flatbuffers.GetUOffsetT(buf)]: the little-endian [uint32] in the first
    four bytes of [buf]; [None] where Go panics on a buffer of fewer than
    four bytes. *)
Definition GetUOffsetT (buf : list Byte.byte) : option nat :=
  match buf with
  | b0 :: b1 :: b2 :: b3 :: _ =>
      Some (N.to_nat (Byte.to_N b0 + 256 * (Byte.to_N b1 + 256 * (Byte.to_N b2
                        + 256 * Byte.to_N b3))))
  | _ => None
  end.

Section FromBlock.
(** [row.m.Init(partition, offset)]: the generated flat-buffer code sets
    the table's bytes and position and reads nothing; the accessors of the
    view are not among the sources, and [Init] stands for the view they
    give of a partition at an offset. *)
Variable Init : list Byte.byte -> nat -> Metric.

(** [func (row *BrokerRow) FromBlock(block []byte)]; the root offset is read
    from the first four bytes of the partition, and a partition of fewer
    than four bytes is a panic. *)
Definition FromBlock (block : list Byte.byte) (row : BrokerRow) : option BrokerRow :=
  let buffer' := block in
  size ← GetSizePrefix buffer';
  partition ← slice buffer' 4 (4 + size);
  offset ← GetUOffsetT partition;
  Some {| m := Init partition offset; buffer := buffer'; ShardID := ShardID row;
          IsOutOfTimeRange := IsOutOfTimeRange row |}.
End FromBlock.

(** [func (row *BrokerRow) Size() int] *)
Definition Size (row : BrokerRow) : nat :=
  if IsOutOfTimeRange row then 0%nat else length (buffer row).

(** [io.Writer]: [Write] returns the writer's new state, the number of bytes
    written and an error. *)
Class Writer (W : Type) : Type := Write : W -> list Byte.byte -> W * (nat * option error).

(** [func (row *BrokerRow) WriteTo(writer io.Writer) (int, error)] *)
Definition WriteTo {W : Type} `{Writer W} (writer : W) (row : BrokerRow)
  : W * (nat * option error) :=
  if IsOutOfTimeRange row then (writer, (0%nat, None)) else Write writer (buffer row).

(** [BrokerBatchRows]; the embedded [shardGroupIterator] is the record
    [BrokerBatchShardIterator] below, which carries the batch it points to. *)
Record BrokerBatchRows : Type := {
  rows : list BrokerRow;
  rowCount : nat
}.

Definition newBrokerBatchRows : BrokerBatchRows := {| rows := []; rowCount := 0 |}.

(** [func (br *BrokerBatchRows) reset() { br.rowCount = 0 }] *)
Definition reset (br : BrokerBatchRows) : BrokerBatchRows :=
  {| rows := rows br; rowCount := 0 |}.

(** [brokerBatchRowsPool]: the batches released so far.  [Get] hands out
    one of them, or nothing when the pool is empty. *)
Definition Pool : Type := list BrokerBatchRows.

Definition Pool_Get (pool : Pool) : option BrokerBatchRows * Pool :=
  match pool with
  | [] => (None, [])
  | item :: pool' => (Some item, pool')
  end.

(** [func NewBrokerBatchRows() (batch *BrokerBatchRows)] *)
Definition NewBrokerBatchRows (pool : Pool) : BrokerBatchRows * Pool :=
  let '(item, pool') := Pool_Get pool in
  match item with
  | Some builder => (reset builder, pool')
  | None => (newBrokerBatchRows, pool')
  end.

(** [func (br *BrokerBatchRows) Release()] *)
Definition Release (br : BrokerBatchRows) (pool : Pool) : Pool := br :: pool.

Definition Len (br : BrokerBatchRows) : nat := rowCount br.

(** [br.rows[:br.rowCount]] *)
Definition Rows (br : BrokerBatchRows) : option (list BrokerRow) :=
  slice (rows br) 0 (rowCount br).

(** The test of [EvictOutOfTimeRange] on one row. *)
Definition outOfTimeRange (now behind ahead : Z) (row : BrokerRow) : bool :=
  ((0 <? behind) && (Timestamp (m row) <? wrap_int64 (now - behind)))
  || ((0 <? ahead) && (wrap_int64 (now + ahead) <? Timestamp (m row))).

(** The loop [for idx := 0; idx < br.Len(); idx++] of [EvictOutOfTimeRange];
    [n] is [br.Len() - idx].  [None] is Go's index-out-of-range panic. *)
Fixpoint evict_loop (now behind ahead : Z) (n idx : nat)
    (rs : list BrokerRow) (evicted : Z) : option (list BrokerRow * Z) :=
  match n with
  | O => Some (rs, evicted)
  | S n' =>
      row ← rs !! idx;
      if outOfTimeRange now behind ahead row
      then evict_loop now behind ahead n' (S idx)
             (<[idx := with_IsOutOfTimeRange true row]> rs) (evicted + 1)
      else evict_loop now behind ahead n' (S idx) rs evicted
  end.

(** [func (br *BrokerBatchRows) EvictOutOfTimeRange(behind, ahead int64) (evicted int)];
    [now] is what [fasttime.UnixMilliseconds()] returns. *)
Definition EvictOutOfTimeRange (now behind ahead : Z) (br : BrokerBatchRows)
  : option (BrokerBatchRows * Z) :=
  '(rs, evicted) ← evict_loop now behind ahead (Len br) 0 (rows br) 0;
  Some ({| rows := rs; rowCount := rowCount br |}, evicted).

(** [func (br *BrokerBatchRows) TryAppend(appendFunc func(row *BrokerRow) error)]:
    [appendFunc] works on the slot through a pointer, so it is a function
    from the slot's old contents to its new contents and an error. *)
Definition TryAppend (appendFunc : BrokerRow -> BrokerRow * option error)
    (br : BrokerBatchRows) : option (BrokerBatchRows * option error) :=
  let rows1 :=
    if decide (length (rows br) <= rowCount br)%nat then rows br ++ [zeroRow] else rows br in
  slot ← rows1 !! rowCount br;
  let '(slot', err) := appendFunc slot in
  let rows2 := <[rowCount br := slot']> rows1 in
  match err with
  | Some e => Some ({| rows := rows2; rowCount := rowCount br |}, Some e)
  | None => Some ({| rows := rows2; rowCount := S (rowCount br) |}, None)
  end.

(** The loop of [NewShardGroupIterator] that stamps the shard ids; [n] is
    [br.Len() - i]. *)
Fixpoint stamp_loop (numOfShards : Z) (n i : nat) (rs : list BrokerRow)
  : option (list BrokerRow) :=
  match n with
  | O => Some rs
  | S n' =>
      row ← rs !! i;
      stamp_loop numOfShards n' (S i)
        (<[i := with_ShardID (Jump.Hash (Hash (m row)) numOfShards) row]> rs)
  end.

(** *** [BrokerBatchShardFamilyIterator] *)
Module FamilyIterator.

Record BrokerBatchShardFamilyIterator : Type := {
  groupEnd : nat;
  groupStart : nat;
  groupFamilyTime : Z;
  sameFamily : bool;
  rows : list BrokerRow;
  intervalCalc : IntervalCalculator
}.

(** [familyTimeOfTimestamp] *)
Definition familyTimeOfTimestamp (calc : IntervalCalculator) (timestamp : Z) : Z :=
  let segmentTime := CalcSegmentTime calc timestamp in
  let family := CalcFamily calc timestamp segmentTime in
  CalcFamilyStartTime calc segmentTime family.

(** [timeRangeOfTimestamp] *)
Definition timeRangeOfTimestamp (calc : IntervalCalculator) (timestamp : Z) : TimeRange :=
  let segmentTime := CalcSegmentTime calc timestamp in
  let family := CalcFamily calc timestamp segmentTime in
  let familyStartTime := CalcFamilyStartTime calc segmentTime family in
  {| Start := familyStartTime; End := CalcFamilyEndTime calc familyStartTime |}.

(** [isSameFamily]: the result and the iterator with [groupFamilyTime] set. *)
Definition isSameFamily (itr : BrokerBatchShardFamilyIterator)
  : bool * BrokerBatchShardFamilyIterator :=
  match rows itr with
  | [] => (true, itr)
  | first :: others =>
      let firstTimestamp := Timestamp (m first) in
      let timeRange := timeRangeOfTimestamp (intervalCalc itr) firstTimestamp in
      (forallb (fun row => Contains timeRange (Timestamp (m row))) others,
       {| groupEnd := groupEnd itr; groupStart := groupStart itr;
          groupFamilyTime := familyTimeOfTimestamp (intervalCalc itr) firstTimestamp;
          sameFamily := sameFamily itr; rows := rows itr;
          intervalCalc := intervalCalc itr |})
  end.

(** [reset(rows, interval)]; [calc] is [interval.Calculator()].  Every field
    of the iterator is overwritten.  [sort.Sort(itr.rows)] works in place on
    the slice it was given. *)
Definition reset `{Sorter} (rs : list BrokerRow) (calc : IntervalCalculator)
  : BrokerBatchShardFamilyIterator :=
  let itr := {| groupEnd := 0; groupStart := 0; groupFamilyTime := 0;
                sameFamily := false; rows := rs; intervalCalc := calc |} in
  let '(same, itr) := isSameFamily itr in
  {| groupEnd := groupEnd itr; groupStart := groupStart itr;
     groupFamilyTime := groupFamilyTime itr; sameFamily := same;
     rows := if same then rows itr
             else sort_by (fun row => Timestamp (m row)) (rows itr);
     intervalCalc := intervalCalc itr |}.

(** The loop [for itr.groupEnd < len(itr.rows)] of [HasNextFamily]; [n] is
    [len(itr.rows) - itr.groupEnd], and the look-up fails exactly when the
    loop condition does. *)
Fixpoint family_run (timeRange : TimeRange) (rs : list BrokerRow) (n ge : nat) : nat :=
  match n with
  | O => ge
  | S n' =>
      match rs !! ge with
      | Some row =>
          if Contains timeRange (Timestamp (m row))
          then family_run timeRange rs n' (S ge)
          else ge
      | None => ge
      end
  end.

(** [HasNextFamily]; the look-up of [itr.rows[itr.groupEnd]] is in range
    by the test that comes first. *)
Definition HasNextFamily (itr : BrokerBatchShardFamilyIterator)
  : bool * BrokerBatchShardFamilyIterator :=
  if decide (length (rows itr) <= groupEnd itr \/ groupEnd itr < groupStart itr)%nat
  then (false, itr)
  else if sameFamily itr then
    (true, {| groupEnd := length (rows itr); groupStart := 0;
              groupFamilyTime := groupFamilyTime itr; sameFamily := sameFamily itr;
              rows := rows itr; intervalCalc := intervalCalc itr |})
  else
    match rows itr !! groupEnd itr with
    | None => (false, itr)
    | Some first =>
        let firstTimestamp := Timestamp (m first) in
        let timeRange := timeRangeOfTimestamp (intervalCalc itr) firstTimestamp in
        let start := groupEnd itr in
        let stop := family_run timeRange (rows itr)
                      (length (rows itr) - groupEnd itr) (groupEnd itr) in
        (bool_decide (start < stop)%nat,
         {| groupEnd := stop; groupStart := start;
            groupFamilyTime := familyTimeOfTimestamp (intervalCalc itr) firstTimestamp;
            sameFamily := sameFamily itr; rows := rows itr;
            intervalCalc := intervalCalc itr |})
    end.

(** [NextFamily] *)
Definition NextFamily (itr : BrokerBatchShardFamilyIterator)
  : option (Z * list BrokerRow) :=
  group ← slice (rows itr) (groupStart itr) (groupEnd itr);
  Some (groupFamilyTime itr, group).

(** The caller's loop [for itr.HasNextFamily() { ... itr.NextFamily() ... }]:
    the groups in the order they are emitted.  [None] when a step panics or
    [fuel] passes were not enough. *)
Fixpoint families (fuel : nat) (itr : BrokerBatchShardFamilyIterator)
  : option (list (Z * list BrokerRow)) :=
  match fuel with
  | O => None
  | S fuel' =>
      let '(more, itr) := HasNextFamily itr in
      if more then
        group ← NextFamily itr;
        groups ← families fuel' itr;
        Some (group :: groups)
      else Some []
  end.

End FamilyIterator.

(** *** [BrokerBatchShardIterator] *)
Module ShardIterator.

Record BrokerBatchShardIterator : Type := {
  groupEnd : nat;
  groupStart : nat;
  groupShardID : Z;
  batch : BrokerBatchRows
}.

(** [Reset]: [sort.Sort(itr.batch)] sorts the first [Len()] rows in place
    by [Less], that is by shard id. *)
Definition Reset `{Sorter} (itr : BrokerBatchShardIterator)
  : option BrokerBatchShardIterator :=
  live ← Rows (batch itr);
  Some {| groupEnd := 0; groupStart := 0; groupShardID := -1;
          batch := {| rows := sort_by ShardID live
                                ++ drop (rowCount (batch itr)) (rows (batch itr));
                      rowCount := rowCount (batch itr) |} |}.

(** The loop [for itr.groupEnd < itr.batch.Len()] of [HasRowsForNextShard];
    [n] is [itr.batch.Len() - itr.groupEnd]. *)
Fixpoint shard_run (shardID : Z) (rs : list BrokerRow) (n ge : nat) : option nat :=
  match n with
  | O => Some ge
  | S n' =>
      row ← rs !! ge;
      if bool_decide (ShardID row = shardID)
      then shard_run shardID rs n' (S ge)
      else Some ge
  end.

(** [HasRowsForNextShard] *)
Definition HasRowsForNextShard (itr : BrokerBatchShardIterator)
  : option (bool * BrokerBatchShardIterator) :=
  if decide (Len (batch itr) <= groupEnd itr \/ groupEnd itr < groupStart itr)%nat
  then Some (false, itr)
  else
    first ← rows (batch itr) !! groupEnd itr;
    let shardID := ShardID first in
    let start := groupEnd itr in
    stop ← shard_run shardID (rows (batch itr))
             (Len (batch itr) - groupEnd itr) (groupEnd itr);
    Some (bool_decide (start < stop)%nat,
          {| groupEnd := stop; groupStart := start; groupShardID := shardID;
             batch := batch itr |}).

(** [FamilyRowsForNextShard]: the family iterator is reset over the slice
    [itr.batch.rows[itr.groupStart:itr.groupEnd]].  The slice shares the
    batch's storage, so the rows the family iterator holds after its reset
    (sorted by timestamp or not) are also what the batch holds there. *)
Definition FamilyRowsForNextShard `{Sorter} (calc : IntervalCalculator)
    (itr : BrokerBatchShardIterator)
  : option ((Z * FamilyIterator.BrokerBatchShardFamilyIterator)
            * BrokerBatchShardIterator) :=
  group ← slice (rows (batch itr)) (groupStart itr) (groupEnd itr);
  let familyIterator := FamilyIterator.reset group calc in
  Some ((groupShardID itr, familyIterator),
        {| groupEnd := groupEnd itr; groupStart := groupStart itr;
           groupShardID := groupShardID itr;
           batch := {| rows := take (groupStart itr) (rows (batch itr))
                                 ++ FamilyIterator.rows familyIterator
                                 ++ drop (groupEnd itr) (rows (batch itr));
                       rowCount := rowCount (batch itr) |} |}).

(** What one pass of the caller's loop sees: the shard id, the rows of the
    group as [HasRowsForNextShard] selected them, and the family iterator
    over them. *)
Record shardGroup : Type := {
  shard : Z;
  selected : list BrokerRow;
  familyIterator : FamilyIterator.BrokerBatchShardFamilyIterator
}.

(** The caller's loop
<<
    for itr.HasRowsForNextShard() {
        shardID, familyItr := itr.FamilyRowsForNextShard(interval)
        ...
    }
>>
    [None] when a step panics or [fuel] passes were not enough. *)
Fixpoint shardGroups `{Sorter} (calc : IntervalCalculator) (fuel : nat)
    (itr : BrokerBatchShardIterator) : option (list shardGroup) :=
  match fuel with
  | O => None
  | S fuel' =>
      '(more, itr) ← HasRowsForNextShard itr;
      if more : bool then
        group ← slice (rows (batch itr)) (groupStart itr) (groupEnd itr);
        '((shardID, familyItr), itr) ← FamilyRowsForNextShard calc itr;
        rest ← shardGroups calc fuel' itr;
        Some ({| shard := shardID; selected := group; familyIterator := familyItr |} :: rest)
      else Some []
  end.

End ShardIterator.

(** [func (br *BrokerBatchRows) NewShardGroupIterator(numOfShards int32)]:
    the shard ids are stamped, then [Reset] overwrites every field of the
    embedded iterator. *)
Definition NewShardGroupIterator `{Sorter} (numOfShards : Z) (br : BrokerBatchRows)
  : option ShardIterator.BrokerBatchShardIterator :=
  rs ← stamp_loop numOfShards (Len br) 0 (rows br);
  ShardIterator.Reset
    {| ShardIterator.groupEnd := 0; ShardIterator.groupStart := 0;
       ShardIterator.groupShardID := 0;
       ShardIterator.batch := {| rows := rs; rowCount := rowCount br |} |}.

End metric.

(** ** replica/channel_shard.go *)
Module replica.
Local Open Scope Z_scope.

(** A family channel as [newFamilyChannel] returns it: a fresh object, known
    by its identity, for one family time. *)
Record FamilyChannel : Type := {
  channelID : nat;
  familyTime : Z
}.

(** [familyChannelSet] is not among the sources: it is the map from family
    time to family channel, read with [GetFamilyChannel] and extended with
    [InsertFamily]. *)
Abbreviation familyChannelSet := (gmap Z FamilyChannel).

Definition GetFamilyChannel (families : familyChannelSet) (familyTime : Z)
  : option FamilyChannel := families !! familyTime.

Definition InsertFamily (familyTime : Z) (familyChannel : FamilyChannel)
    (families : familyChannelSet) : familyChannelSet :=
  <[familyTime := familyChannel]> families.

(** The [channel] struct: the family map, the mutex (held by a goroutine or
    free), and two ghost fields: the number of family channels allocated so
    far, which names the next one, and the log of the channels created. *)
Record channel : Type := {
  families : familyChannelSet;
  mutex : option nat;
  allocated : nat;
  created : list FamilyChannel
}.

Definition newChannel : channel :=
  {| families := ∅; mutex := None; allocated := 0; created := [] |}.

(** [newFamilyChannel(...)] followed by [c.families.InsertFamily(...)]. *)
Definition createFamilyChannel (familyTime : Z) (c : channel) : FamilyChannel * channel :=
  let familyChannel := {| channelID := allocated c; familyTime := familyTime |} in
  (familyChannel,
   {| families := InsertFamily familyTime familyChannel (families c);
      mutex := mutex c;
      allocated := S (allocated c);
      created := familyChannel :: created c |}).

(** [func (c *channel) GetOrCreateFamilyChannel(familyTime int64) FamilyChannel],
    run by one goroutine without interruption. *)
Definition GetOrCreateFamilyChannel (familyTime : Z) (c : channel) : FamilyChannel * channel :=
  match GetFamilyChannel (families c) familyTime with
  | Some familyChannel => (familyChannel, c)
  | None =>
      (* c.mutex.Lock(); defer c.mutex.Unlock(); double check *)
      match GetFamilyChannel (families c) familyTime with
      | Some familyChannel => (familyChannel, c)
      | None => createFamilyChannel familyTime c
      end
  end.

(** *** Goroutines

    Where a goroutine stands inside [GetOrCreateFamilyChannel(familyTime)]. *)
Inductive pc : Type :=
  | Enter (familyTime : Z)        (* before the first, lock-free GetFamilyChannel *)
  | AtLock (familyTime : Z)       (* missed: before c.mutex.Lock() *)
  | DoubleCheck (familyTime : Z)  (* holds the mutex: before the second GetFamilyChannel *)
  | Create (familyTime : Z)       (* holds the mutex, missed twice: about to create *)
  | Unlock (fc : FamilyChannel)   (* holds the mutex: the deferred Unlock, then return *)
  | Returned (familyTime : Z) (fc : FamilyChannel).

Record system : Type := {
  shared : channel;
  goroutines : list pc
}.

Definition set_mutex (holder : option nat) (c : channel) : channel :=
  {| families := families c; mutex := holder; allocated := allocated c;
     created := created c |}.

(** One atomic step of goroutine [g]; [None] when it cannot move (it has
    returned, it does not exist, or it waits for the mutex). *)
Definition step (g : nat) (s : system) : option system :=
  p ← goroutines s !! g;
  match p with
  | Enter ft =>
      match GetFamilyChannel (families (shared s)) ft with
      | Some fc =>
          Some {| shared := shared s; goroutines := <[g := Returned ft fc]> (goroutines s) |}
      | None => Some {| shared := shared s; goroutines := <[g := AtLock ft]> (goroutines s) |}
      end
  | AtLock ft =>
      match mutex (shared s) with
      | None => Some {| shared := set_mutex (Some g) (shared s);
                        goroutines := <[g := DoubleCheck ft]> (goroutines s) |}
      | Some _ => None
      end
  | DoubleCheck ft =>
      match GetFamilyChannel (families (shared s)) ft with
      | Some fc => Some {| shared := shared s; goroutines := <[g := Unlock fc]> (goroutines s) |}
      | None => Some {| shared := shared s; goroutines := <[g := Create ft]> (goroutines s) |}
      end
  | Create ft =>
      let '(fc, c) := createFamilyChannel ft (shared s) in
      Some {| shared := c; goroutines := <[g := Unlock fc]> (goroutines s) |}
  | Unlock fc =>
      Some {| shared := set_mutex None (shared s);
              goroutines := <[g := Returned (familyTime fc) fc]> (goroutines s) |}
  | Returned _ _ => None
  end.

(** A schedule names the goroutine that moves next; a goroutine that cannot
    move leaves the system as it is. *)
Fixpoint run (schedule : list nat) (s : system) : system :=
  match schedule with
  | [] => s
  | g :: schedule' => run schedule' (default s (step g s))
  end.

(** Any number of goroutines, each entering [GetOrCreateFamilyChannel] with
    a family time of its own choice, on a channel nobody holds. *)
Definition start (c : channel) (calls : list Z) : system :=
  {| shared := c; goroutines := Enter <$> calls |}.

(** *** The remote replicator ([replicator_remote.go])

    Only its test, [replicator_remote_test.go], is among the sources. *)
Module remote.

Inductive ReplicatorState : Type :=
  | ReplicatorInitState
  | ReplicatorReadyState
  | ReplicatorFailureState.

(** The calls the replicator makes on the follower, on its consumer
    ([queue.FanOut]) and on the underlying log ([queue.FanOutQueue]);
    the getters [HeadSeq] and [TailSeq] change nothing and are left out. *)
Inductive call : Type :=
  | CallReset (ackIndex : Z)
  | CallSetHeadSeq (seq : Z)
  | CallSetAppendSeq (seq : Z)
  | CallSend (replicaIndex : Z) (payload : list Byte.byte)
  | CallRecv
  | CallAck (ackIndex : Z).

(** What the collaborators answer during one call of [IsReady] or
    [Replica] (the mocks of the test). *)
Record world : Type := {
  liveNode : bool;              (* GetLiveNode finds the follower *)
  createClient : bool;          (* CreateReplicaServiceClient succeeds *)
  openStream : bool;            (* replicaCli.Replica(ctx) succeeds *)
  ackIndex : option Z;          (* GetReplicaAckIndex: the follower's ack index, or an error *)
  headSeq : Z;                  (* q.HeadSeq(): the consumer's next sequence to send *)
  tailSeq : Z;                  (* q.TailSeq(): the smallest sequence still held *)
  appendSeq : Z;                (* q.Queue().HeadSeq(): the log's append sequence *)
  resetOk : bool;               (* replicaCli.Reset succeeds *)
  setHeadSeqOk : bool;          (* q.SetHeadSeq returns no error *)
  sendOk : bool;                (* stream.Send returns no error *)
  recv : option Z               (* stream.Recv: the response's AckIndex, or an error *)
}.

Record outcome (A : Type) : Type := {
  result : A;
  state : ReplicatorState;
  calls : list call
}.
Arguments result {A} _.
Arguments state {A} _.
Arguments calls {A} _.

(** Modelled from the spec: [remoteReplicator.IsReady], whose code is
    missing from the sources.  Section 4.7: a ready replicator stays ready;
    otherwise the follower is resolved, the client created, the stream
    opened and the follower's [ackIndex] fetched, any failure leaving the
    replicator failed; then the reconciliation rules are tried in order:
    [ackIndex + 1 == myHead]: nothing to do;
    [ackIndex < myTail]: [reset(follower, ackIndex)], failure to reset is
    failure, then [setHeadSeq(ackIndex + 1)];
    [ackIndex > myAppend - 1]: [setAppendSeq(ackIndex + 1)] on the log and
    [setHeadSeq(ackIndex + 1)] on the consumer, whose error is only logged;
    else [setHeadSeq(ackIndex + 1)].  Outside the third rule a failing
    step, [setHeadSeq] included, leaves the replicator failed. *)
Definition IsReady (w : world) (st : ReplicatorState) : outcome bool :=
  let failed cs := {| result := false; state := ReplicatorFailureState; calls := cs |} in
  let ready cs := {| result := true; state := ReplicatorReadyState; calls := cs |} in
  match st with
  | ReplicatorReadyState => ready []
  | _ =>
      if negb (liveNode w) then failed []
      else if negb (createClient w) then failed []
      else if negb (openStream w) then failed []
      else
        match ackIndex w with
        | None => failed []
        | Some ack =>
            if ack + 1 =? headSeq w then ready []
            else if ack <? tailSeq w then
              if resetOk w then
                if setHeadSeqOk w then ready [CallReset ack; CallSetHeadSeq (ack + 1)]
                else failed [CallReset ack; CallSetHeadSeq (ack + 1)]
              else failed [CallReset ack]
            else if appendSeq w - 1 <? ack then
              ready [CallSetAppendSeq (ack + 1); CallSetHeadSeq (ack + 1)]
            else
              if setHeadSeqOk w then ready [CallSetHeadSeq (ack + 1)]
              else failed [CallSetHeadSeq (ack + 1)]
        end
  end.

(** Modelled from the spec: [remoteReplicator.Replica], whose code is
    missing from the sources.  Section 4.7: send the message with
    [replicaIndex = seq] and the payload; then [recv()]; on success
    [queue.ack(response.ackIndex)]; on either error the replicator becomes
    failed and returns without acking. *)
Definition Replica (w : world) (st : ReplicatorState) (seq : Z) (payload : list Byte.byte)
  : outcome unit :=
  if negb (sendOk w) then
    {| result := tt; state := ReplicatorFailureState; calls := [CallSend seq payload] |}
  else
    match recv w with
    | None =>
        {| result := tt; state := ReplicatorFailureState;
           calls := [CallSend seq payload; CallRecv] |}
    | Some ack =>
        {| result := tt; state := st;
           calls := [CallSend seq payload; CallRecv; CallAck ack] |}
    end.

End remote.
End replica.

(** ** tsdb/sequence.go *)
Module tsdb.
Local Open Scope Z_scope.

Definition error : Type := string.

(** [queue.Sequence], seen through its methods [GetHeadSeq], [SetHeadSeq],
    [GetAckSeq] and [SetAckSeq]; [file] is the path it was opened on. *)
Record Sequence : Type := {
  file : string;
  headSeq : Z;
  ackSeq : Z
}.

Definition GetHeadSeq (seq : Sequence) : Z := headSeq seq.
Definition GetAckSeq (seq : Sequence) : Z := ackSeq seq.
Definition SetHeadSeq (value : Z) (seq : Sequence) : Sequence :=
  {| file := file seq; headSeq := value; ackSeq := ackSeq seq |}.
Definition SetAckSeq (value : Z) (seq : Sequence) : Sequence :=
  {| file := file seq; headSeq := headSeq seq; ackSeq := value |}.

(** What lies outside [sequence.go]: the file system ([fileutil.Exist],
    [listDir], [mkDirIfNotExist], [path.Join]), the package variable
    [newSequenceFunc] (by default [queue.NewSequence], which opens the
    sequence persisted at a path) and [Sequence.Sync]. *)
Record platform : Type := {
  Exist : string -> bool;
  listDir : string -> error + list string;
  mkDirIfNotExist : string -> option error;
  Join : string -> string -> string;
  newSequenceFunc : string -> error + Sequence;
  Sync : Sequence -> option error
}.

(** [replicaSequence]; [sequenceMap] is the [sync.Map] from remote peer to
    sequence. *)
Record replicaSequence : Type := {
  dirPath : string;
  sequenceMap : gmap string Sequence
}.

Section WithPlatform.
Variable os : platform.

(** [syncSequence]: the compare-and-swap on [syncing] succeeds when no
    other goroutine is syncing; [Range] then overwrites [err] with the
    result of every [seq.Sync()] in turn. *)
Definition syncSequence (ss : replicaSequence) : option error :=
  foldl (fun (err : option error) (entry : string * Sequence) => Sync os entry.2)
        None (map_to_list (sequenceMap ss)).

(** The loop [for _, remotePeer := range remotePeers] of
    [newReplicaSequence]. *)
Fixpoint load_sequences (dir : string) (remotePeers : list string)
    (ss : replicaSequence) : error + replicaSequence :=
  match remotePeers with
  | [] => inr ss
  | remotePeer :: remotePeers' =>
      let filePath := Join os dir remotePeer in
      match newSequenceFunc os filePath with
      | inl err => inl err
      | inr seq =>
          let seq := SetHeadSeq (GetAckSeq seq) seq in
          load_sequences dir remotePeers'
            {| dirPath := dirPath ss;
               sequenceMap := <[remotePeer := seq]> (sequenceMap ss) |}
      end
  end.

(** [func newReplicaSequence(dirPath string) (ReplicaSequence, error)] *)
Definition newReplicaSequence (dir : string) : error + replicaSequence :=
  if Exist os dir then
    match listDir os dir with
    | inl err => inl err
    | inr remotePeers =>
        match load_sequences dir remotePeers {| dirPath := dir; sequenceMap := ∅ |} with
        | inl err => inl err
        | inr ss =>
            match syncSequence ss with
            | Some err => inl err
            | None => inr ss
            end
        end
    end
  else
    match mkDirIfNotExist os dir with
    | Some err => inl err
    | None => inr {| dirPath := dir; sequenceMap := ∅ |}
    end.

(** [getOrCreateSequence], run by one goroutine without interruption: the
    look-up, and on a miss the second look-up under [lock4map] and the
    opening of the sequence at [path.Join(ss.dirPath, remotePeer)]. *)
Definition getOrCreateSequence (remotePeer : string) (ss : replicaSequence)
  : (error + Sequence) * replicaSequence :=
  match sequenceMap ss !! remotePeer with
  | Some seq => (inr seq, ss)
  | None =>
      (* ss.lock4map.Lock(); defer ss.lock4map.Unlock(); double check *)
      match sequenceMap ss !! remotePeer with
      | Some seq => (inr seq, ss)
      | None =>
          let filePath := Join os (dirPath ss) remotePeer in
          match newSequenceFunc os filePath with
          | inl err => (inl err, ss)
          | inr seq =>
              (inr seq,
               {| dirPath := dirPath ss;
                  sequenceMap := <[remotePeer := seq]> (sequenceMap ss) |})
          end
      end
  end.

(** [getAllHeads]: [Range] fills [result] entry by entry. *)
Definition getAllHeads (ss : replicaSequence) : gmap string Z :=
  foldl (fun (result : gmap string Z) (entry : string * Sequence) =>
           <[entry.1 := GetHeadSeq entry.2]> result)
        ∅ (map_to_list (sequenceMap ss)).

(** The loop [for remotePeer, head := range heads] of [ack]:
    [s.SetAckSeq(head)] changes the sequence the map holds. *)
Definition ack_loop (heads : list (string * Z)) (ss : replicaSequence) : replicaSequence :=
  foldl (fun (ss : replicaSequence) (entry : string * Z) =>
           match sequenceMap ss !! entry.1 with
           | None => ss
           | Some s =>
               {| dirPath := dirPath ss;
                  sequenceMap := <[entry.1 := SetAckSeq entry.2 s]> (sequenceMap ss) |}
           end)
        ss heads.

(** [func (ss *replicaSequence) ack(heads map[string]int64) error] *)
Definition ack (heads : gmap string Z) (ss : replicaSequence)
  : option error * replicaSequence :=
  let ss := ack_loop (map_to_list heads) ss in
  (syncSequence ss, ss).

End WithPlatform.
End tsdb.

(* ===================================================================== *)
(** * Part II.  The vocabulary of the properties and the sample data      *)
(* ===================================================================== *)

(** ** [jump.Hash] *)
Module JumpSpec.
Import Jump.
Local Open Scope Z_scope.

(** The value of [x] is at least, respectively at most, the integer [v]. *)
Definition at_least (x : float64) (v : Z) : Prop :=
  0 < (to_rat x).2 /\ v * (to_rat x).2 <= (to_rat x).1.

Definition at_most (x : float64) (v : Z) : Prop :=
  0 < (to_rat x).2 /\ (to_rat x).1 <= v * (to_rat x).2.

(** [next_j] computed with the kernel's primitive floats, which are
    IEEE-754 binary64 with rounding to nearest even. *)
Definition prim_of_int (z : Z) : PrimFloat.float :=
  PrimFloat.of_uint63 (Uint63.of_Z z).

Definition prim_int64 (x : PrimFloat.float) : Z :=
  match FloatOps.Prim2SF x with
  | SpecFloat.S754_finite false mantissa e =>
      if 0 <=? e then Z.pos mantissa * 2 ^ e else Z.pos mantissa / 2 ^ (- e)
  | _ => -1
  end.

Definition prim_next_j (b key : Z) : Z :=
  prim_int64
    (PrimFloat.mul (prim_of_int (b + 1))
       (PrimFloat.div (prim_of_int (Z.shiftl 1 31))
                      (prim_of_int (Z.shiftr key 33 + 1)))).

(** Pairs [(b, key)] along the orbit of a linear congruential generator,
    with [b] taken small, as in the first passes of the loop, and large. *)
Fixpoint samples (n : nat) (seed : Z) : list (Z * Z) :=
  match n with
  | O => []
  | S n' =>
      let key := wrap64 (seed * 6364136223846793005 + 1442695040888963407) in
      let b := Z.shiftr (next_key key) 33 in
      (b mod 64, key) :: (b, key) :: samples n' key
  end.

Definition agree (sample : Z * Z) : bool :=
  next_j sample.1 sample.2 =? prim_next_j sample.1 sample.2.

End JumpSpec.

(** ** The family iterator *)
Module FamilySpec.
Import GoSort Timeutil metric metric.FamilyIterator.
Local Open Scope Z_scope.

(** The timestamp of a row. *)
Abbreviation ts row := (Timestamp (m row)).

(** A group emitted by the family iterator is well formed: it is not
    empty and all its timestamps lie in the window that starts at its
    family time. *)
Definition in_one_window (calc : IntervalCalculator) (g : Z * list BrokerRow) : Prop :=
  g.2 <> [] /\
  Forall (fun row => g.1 <= ts row <= CalcFamilyEndTime calc g.1) g.2.

Definition family_ascending (groups : list (Z * list BrokerRow)) : Prop :=
  StronglySorted (fun g1 g2 => g1.1 < g2.1) groups.

(** [isSameFamily] as a test on the slice. *)
Definition allSameFamily (calc : IntervalCalculator) (rs : list BrokerRow) : bool :=
  match rs with
  | [] => true
  | first :: others =>
      forallb (fun row => Contains (timeRangeOfTimestamp calc (ts first)) (ts row)) others
  end.

(** Ingestion order, in two readings.  Within one family: every
    group lists its rows in the order they have in the slice.  For equal
    timestamps only: two rows of one group with the same timestamp stand
    in the group as they stand in the slice. *)
Definition keeps_family_order (S : list BrokerRow) (groups : list (Z * list BrokerRow)) : Prop :=
  forall g, g ∈ groups -> sublist g.2 S.

Definition keeps_tie_order (S : list BrokerRow) (groups : list (Z * list BrokerRow)) : Prop :=
  forall g x y, g ∈ groups -> ts x = ts y -> sublist [x; y] g.2 -> sublist [x; y] S.

Definition rowAt (timestamp hash : Z) : BrokerRow :=
  {| m := {| Timestamp := timestamp; Hash := hash |}; buffer := []; ShardID := 0;
     IsOutOfTimeRange := false |}.

(** Segments of one day, families of one hour. *)
Definition hourly : IntervalCalculator := fixedWidth 86400000 3600000.

End FamilySpec.

(** ** The shard iterator *)
Module ShardSpec.
Import GoSort Timeutil metric metric.ShardIterator.
Local Open Scope Z_scope.

(** A batch as [TryAppend] builds it: the committed rows are slots of the
    slice. *)
Definition well_formed (br : BrokerBatchRows) : Prop :=
  (rowCount br <= length (rows br))%nat.

(** What [NewShardGroupIterator] does to one row. *)
Definition stamp (numOfShards : Z) (row : BrokerRow) : BrokerRow :=
  with_ShardID (Jump.Hash (Hash (m row)) numOfShards) row.

(** A shard group is a non-empty run of rows of one shard id. *)
Definition one_shard (g : shardGroup) : Prop :=
  selected g <> [] /\ Forall (fun row => ShardID row = shard g) (selected g).

Definition shard_ascending (groups : list shardGroup) : Prop :=
  StronglySorted (fun g1 g2 => shard g1 < shard g2) groups.

Definition hashedRow (hash : Z) : BrokerRow :=
  {| m := {| Timestamp := 1000; Hash := hash |}; buffer := []; ShardID := 0;
     IsOutOfTimeRange := false |}.

(** Three committed rows and one stale slot behind them. *)
Definition threeRows : BrokerBatchRows :=
  {| rows := [hashedRow 4; hashedRow 2; hashedRow 1; hashedRow 9]; rowCount := 3 |}.

(** The shard id and the metric hashes of every group. *)
Definition summary (groups : list shardGroup) : list (Z * list Z) :=
  (fun g => (shard g, (fun row => Hash (m row)) <$> selected g)) <$> groups.

(** The caller's inner loop over the family iterator of a shard group:
    the shard id with the family groups.  A group of [n] rows has at most
    [n] families. *)
Definition familiesOfShard (g : shardGroup) : option (Z * list (Z * list BrokerRow)) :=
  familyGroups ← FamilyIterator.families (S (length (selected g))) (familyIterator g);
  Some (shard g, familyGroups).

(** The rows that the nested loops hand on, in the order they do. *)
Definition allRows (nested : list (Z * list (Z * list BrokerRow))) : list BrokerRow :=
  concat ((fun sg => concat sg.2.*2) <$> nested).

(** What the nested loops see for one shard: at least one family group;
    every family group is non-empty and lies in the window of its family
    time; the family times ascend; every row carries the shard id. *)
Definition routed (calc : IntervalCalculator) (sg : Z * list (Z * list BrokerRow)) : Prop :=
  sg.2 <> [] /\
  Forall (FamilySpec.in_one_window calc) sg.2 /\
  FamilySpec.family_ascending sg.2 /\
  Forall (fun fg => Forall (fun row => ShardID row = sg.1) fg.2) sg.2.

End ShardSpec.

(** ** Eviction and recycled batches *)
Module BatchSpec.
Import metric FamilySpec ShardSpec.
Local Open Scope Z_scope.

(** What [EvictOutOfTimeRange] does to one row. *)
Definition mark (now behind ahead : Z) (row : BrokerRow) : BrokerRow :=
  if outOfTimeRange now behind ahead row then with_IsOutOfTimeRange true row else row.

Definition count_out (now behind ahead : Z) (rs : list BrokerRow) : Z :=
  Z.of_nat (length (List.filter (outOfTimeRange now behind ahead) rs)).

(** A builder in the manner of the flat decoder: it copies the block into
    the slot with [FromBlock] and touches nothing else. *)
Definition decodeTo (Init : list Byte.byte -> nat -> Metric) (block : list Byte.byte)
  : BrokerRow -> BrokerRow * option error :=
  fun slot =>
    match FromBlock Init block slot with
    | Some row => (row, None)
    | None => (slot, Some "malformed block"%string)
    end.

(** A block with the size prefix 4 and a partition of four bytes, which
    hold the root offset. *)
Definition sampleBlock : list Byte.byte :=
  [Byte.x04; Byte.x00; Byte.x00; Byte.x00; Byte.x01; Byte.x02; Byte.x03; Byte.x04].

(** A view that reads the timestamp 1000 and the hash 7 from every block. *)
Definition sampleInit (partition : list Byte.byte) (offset : nat) : Metric :=
  {| Timestamp := 1000; Hash := 7 |}.

(** A batch of one row that [EvictOutOfTimeRange] has marked. *)
Definition evictedBatch : BrokerBatchRows :=
  {| rows := [with_IsOutOfTimeRange true (hashedRow 1)]; rowCount := 1 |}.

Definition sampleBatch : BrokerBatchRows :=
  {| rows := [rowAt 50 1; rowAt 100 2; rowAt 150 3;
              rowAt 0 4];
     rowCount := 3 |}.


End BatchSpec.

(** ** The goroutines of [GetOrCreateFamilyChannel] *)
Module ChannelSpec.
Import replica.
Local Open Scope Z_scope.

(** The goroutines between [c.mutex.Lock()] and the deferred [Unlock]. *)
Definition in_critical_section (p : pc) : Prop :=
  match p with
  | DoubleCheck _ | Create _ | Unlock _ => True
  | _ => False
  end.

(** The family time a goroutine was called with. *)
Definition call_of (p : pc) : Z :=
  match p with
  | Enter ft | AtLock ft | DoubleCheck ft | Create ft | Returned ft _ => ft
  | Unlock fc => familyTime fc
  end.

(** The family map and the log of created channels agree, and no family
    time was given two channels. *)
Record coherent (c : channel) : Prop := {
  map_keyed : forall ft fc, families c !! ft = Some fc -> familyTime fc = ft;
  created_mapped : forall fc, fc ∈ created c -> families c !! familyTime fc = Some fc;
  created_once : NoDup (familyTime <$> created c)
}.

(** What holds of every state the goroutines can reach. *)
Record invariant (calls : list Z) (s : system) : Prop := {
  inv_coherent : coherent (shared s);
  inv_calls : forall g p, goroutines s !! g = Some p -> calls !! g = Some (call_of p);
  inv_mutex : forall g p, goroutines s !! g = Some p -> in_critical_section p ->
                mutex (shared s) = Some g;
  inv_holder : forall g, mutex (shared s) = Some g ->
                 exists p, goroutines s !! g = Some p /\ in_critical_section p;
  inv_create : forall g ft, goroutines s !! g = Some (Create ft) ->
                 families (shared s) !! ft = None;
  inv_unlock : forall g fc, goroutines s !! g = Some (Unlock fc) ->
                 families (shared s) !! familyTime fc = Some fc;
  inv_returned : forall g ft fc, goroutines s !! g = Some (Returned ft fc) ->
                   families (shared s) !! ft = Some fc
}.

Definition has_returned (p : pc) : Prop :=
  match p with
  | Returned _ _ => True
  | _ => False
  end.

(** Two goroutines ask for family time 5 and one for 7.  Goroutines 0 and
    1 both miss on the lock-free read; goroutine 1 takes the mutex first,
    creates the channel and unlocks; goroutine 0 then finds it on its
    second read. *)
Definition race : list nat := [0; 1; 1; 1; 1; 1; 0; 0; 0; 2; 2; 2; 2; 2]%nat.

(** The steps a goroutine may still have to take before it returns. *)
Definition remaining (p : pc) : nat :=
  match p with
  | Enter _ => 5
  | AtLock _ => 4
  | DoubleCheck _ => 3
  | Create _ => 2
  | Unlock _ => 1
  | Returned _ _ => 0
  end.

Definition budget (s : system) : nat := sum_list (remaining <$> goroutines s).

(** The number of steps taken along a schedule: the turns of goroutines
    that could move. *)
Fixpoint moves (schedule : list nat) (s : system) : nat :=
  match schedule with
  | [] => 0
  | g :: schedule' =>
      match step g s with
      | Some s' => S (moves schedule' s')
      | None => moves schedule' s
      end
  end.

(** Every goroutine stands for one call, and the family map holds nothing
    but channels that were created for a family time that was asked for. *)
Record requested (calls : list Z) (s : system) : Prop := {
  req_length : length (goroutines s) = length calls;
  req_created : forall ft fc, families (shared s) !! ft = Some fc -> fc ∈ created (shared s);
  req_calls : forall ft fc, families (shared s) !! ft = Some fc -> ft ∈ calls
}.

End ChannelSpec.

(** ** The remote replicator *)
Module RemoteSpec.
Import replica.remote.
Local Open Scope Z_scope.

(** A handshake that gets as far as the follower's ack index. *)
Definition reaches_reconciliation (w : world) (st : ReplicatorState) (ack : Z) : Prop :=
  st <> ReplicatorReadyState /\ liveNode w = true /\ createClient w = true
  /\ openStream w = true /\ ackIndex w = Some ack.

(** The eighth case of [TestRemoteReplicator_IsReady] (scenario S5 with the
    test's numbers): the log's append sequence is 5, the follower acked 10,
    and [SetHeadSeq] fails. *)
Definition case8 : world :=
  {| liveNode := true; createClient := true; openStream := true;
     ackIndex := Some 10; headSeq := 12; tailSeq := 9; appendSeq := 5;
     resetOk := true; setHeadSeqOk := false; sendOk := true; recv := None |}.

(** The seventh case of the test: the follower acked 10, the smallest
    sequence still held is 13, the log's append sequence is 10. *)
Definition case7 : world :=
  {| liveNode := true; createClient := true; openStream := true;
     ackIndex := Some 10; headSeq := 12; tailSeq := 13; appendSeq := 10;
     resetOk := true; setHeadSeqOk := true; sendOk := true; recv := None |}.

(** The fifth case of the test: the follower's ack index is the
    consumer's head minus one. *)
Definition case5 : world :=
  {| liveNode := true; createClient := true; openStream := true;
     ackIndex := Some 10; headSeq := 11; tailSeq := 0; appendSeq := 5;
     resetOk := true; setHeadSeqOk := true; sendOk := true; recv := None |}.

End RemoteSpec.

(** ** The replica sequences *)
Module SequenceSpec.
Import tsdb.
Local Open Scope Z_scope.

(** What the loop of [newReplicaSequence] stores for a peer. *)
Definition loaded (os : platform) (dir peer : string) (seq : Sequence) : Prop :=
  exists persisted,
    newSequenceFunc os (Join os dir peer) = inr persisted /\
    seq = SetHeadSeq (GetAckSeq persisted) persisted.

(** A shard directory with the sequence files of two followers, each
    persisted with head 42 and ack 17. *)
Definition twoPeers : platform :=
  {| Exist := fun _ => true;
     listDir := fun _ => inr ["2"; "3"]%string;
     mkDirIfNotExist := fun _ => None;
     Join := fun dir peer => (dir +:+ "/" +:+ peer)%string;
     newSequenceFunc := fun path => inr {| file := path; headSeq := 42; ackSeq := 17 |};
     Sync := fun _ => None |}.

(** The peers of a replica sequence with their head and ack sequences. *)
Definition heads_and_acks (ss : replicaSequence) : list (string * (Z * Z)) :=
  (fun entry => (entry.1, (headSeq entry.2, ackSeq entry.2)))
    <$> map_to_list (sequenceMap ss).

(** The directory of [twoPeers], where the sequence file of follower 3
    cannot be opened. *)
Definition brokenPeer : platform :=
  {| Exist := fun _ => true;
     listDir := fun _ => inr ["2"; "3"; "4"]%string;
     mkDirIfNotExist := fun _ => None;
     Join := fun dir peer => (dir +:+ "/" +:+ peer)%string;
     newSequenceFunc := fun path =>
       if String.eqb path "replica/3"
       then inl "cannot open"%string
       else inr {| file := path; headSeq := 42; ackSeq := 17 |};
     Sync := fun _ => None |}.

(** A shard that has no replica directory yet. *)
Definition newShard : platform :=
  {| Exist := fun _ => false;
     listDir := fun _ => inr [];
     mkDirIfNotExist := fun _ => None;
     Join := fun dir peer => (dir +:+ "/" +:+ peer)%string;
     newSequenceFunc := fun path => inr {| file := path; headSeq := 5; ackSeq := 3 |};
     Sync := fun _ => None |}.

End SequenceSpec.

(* ===================================================================== *)
(** * Part III.  Properties                                               *)
(* ===================================================================== *)

(** ** [jump.Hash] returns a bucket below [buckets] *)
Module JumpFacts.
Import Jump JumpSpec.
Local Open Scope Z_scope.

Lemma pow2_pos (e : Z) : 0 <= e -> 0 < 2 ^ e.
Proof. intros. apply Z.pow_pos_nonneg; lia. Qed.

Lemma pow2_ge_2 (e : Z) : 0 < e -> 2 <= 2 ^ e.
Proof.
  intros He. replace e with (1 + (e - 1)) by lia.
  rewrite Z.pow_add_r by lia. pose proof (pow2_pos (e - 1)). lia.
Qed.

Lemma rne_lower (n d k : Z) : 0 < d -> k * d <= n -> k <= rne n d.
Proof.
  intros Hd Hk. assert (k <= n / d) by (apply Z.div_le_lower_bound; lia).
  unfold rne. repeat case_match; lia.
Qed.

Lemma rne_upper (n d k : Z) : 0 < d -> n <= k * d -> rne n d <= k.
Proof.
  intros Hd Hk. unfold rne.
  pose proof (Z.div_mod n d ltac:(lia)) as Hdm.
  pose proof (Z.mod_pos_bound n d Hd) as Hr.
  assert (n / d <= k) by (apply Z.div_le_upper_bound; lia).
  set (q := n / d) in *. set (r := n mod d) in *.
  destruct (Z.eq_dec q k) as [E|Hne].
  - assert (r = 0) by nia.
    destruct (2 * r <? d) eqn:E1; [lia|]. apply Z.ltb_ge in E1. lia.
  - repeat case_match; lia.
Qed.

Lemma round53_expo (n d : Z) : expo (round53 n d) = exponent53 n d.
Proof. unfold round53. by destruct (scale n d _). Qed.

Lemma round53_mant (n d : Z) :
  mant (round53 n d) = rne (scale n d (exponent53 n d)).1 (scale n d (exponent53 n d)).2.
Proof. unfold round53. by destruct (scale n d _). Qed.

(** The quotient that [round53] rounds to the mantissa is at least 2^52. *)
Lemma round53_binade (n d : Z) :
  0 < n -> 0 < d ->
  (scale n d (exponent53 n d)).2 * 2 ^ 52 <= (scale n d (exponent53 n d)).1.
Proof.
  intros Hn Hd. unfold exponent53.
  set (e0 := Z.log2 n - Z.log2 d - 52).
  destruct (scale n d e0) as [n0 d0] eqn:Hs0.
  destruct (n0 <? d0 * 2 ^ 52) eqn:Htest.
  - pose proof (Z.log2_spec n Hn) as [Hn1 Hn2].
    pose proof (Z.log2_spec d Hd) as [Hd1 Hd2].
    pose proof (Z.log2_nonneg n). pose proof (Z.log2_nonneg d).
    unfold scale. destruct (0 <=? e0 - 1) eqn:He; cbn [fst snd].
    + apply Z.leb_le in He.
      rewrite <- Z.mul_assoc, <- Z.pow_add_r by lia.
      replace (e0 - 1 + 52) with (Z.log2 n - Z.succ (Z.log2 d)) by (unfold e0; lia).
      assert (2 ^ (Z.log2 n - Z.succ (Z.log2 d)) * 2 ^ Z.succ (Z.log2 d) = 2 ^ Z.log2 n) as Hsplit.
      { rewrite <- Z.pow_add_r by (unfold e0 in He; lia). f_equal. lia. }
      pose proof (pow2_pos (Z.log2 n - Z.succ (Z.log2 d)) ltac:(unfold e0 in He; lia)).
      assert (d * 2 ^ (Z.log2 n - Z.succ (Z.log2 d))
              <= 2 ^ Z.succ (Z.log2 d) * 2 ^ (Z.log2 n - Z.succ (Z.log2 d)))
        by (apply Z.mul_le_mono_nonneg_r; lia).
      lia.
    + apply Z.leb_gt in He.
      assert (2 ^ Z.log2 n * 2 ^ (- (e0 - 1)) = 2 ^ Z.succ (Z.log2 d) * 2 ^ 52) as Hsplit.
      { rewrite <- !Z.pow_add_r by (unfold e0 in *; lia). f_equal. unfold e0. lia. }
      pose proof (pow2_pos (- (e0 - 1)) ltac:(lia)).
      assert (2 ^ Z.log2 n * 2 ^ (- (e0 - 1)) <= n * 2 ^ (- (e0 - 1)))
        by (apply Z.mul_le_mono_nonneg_r; lia).
      lia.
  - rewrite Hs0. apply Z.ltb_ge in Htest. cbn [fst snd]. lia.
Qed.

Lemma round53_at_least (n d v : Z) :
  0 < n -> 0 < d -> 0 < v < 2 ^ 53 -> v * d <= n -> at_least (round53 n d) v.
Proof.
  intros Hn Hd Hv Hvn.
  pose proof (round53_binade n d Hn Hd) as Hb.
  unfold at_least, to_rat. rewrite round53_mant, round53_expo.
  set (e := exponent53 n d) in *.
  unfold scale in *. destruct (0 <=? e) eqn:He; cbn [fst snd] in *.
  - apply Z.leb_le in He. split; [lia|].
    destruct (Z.eq_dec e 0) as [E0|E0].
    + rewrite E0 in *. rewrite Z.pow_0_r in *.
      pose proof (rne_lower n (d * 1) v). lia.
    + pose proof (pow2_ge_2 e ltac:(lia)).
      pose proof (pow2_pos e He).
      assert (2 ^ 52 <= rne n (d * 2 ^ e)) by (apply rne_lower; lia).
      nia.
  - apply Z.leb_gt in He. pose proof (pow2_pos (- e) ltac:(lia)).
    split; [lia|]. apply rne_lower; [lia|]. nia.
Qed.

Lemma round53_at_most (n d v : Z) :
  0 < n -> 0 < d -> 0 < v < 2 ^ 53 -> n <= v * d -> at_most (round53 n d) v.
Proof.
  intros Hn Hd Hv Hvn.
  pose proof (round53_binade n d Hn Hd) as Hb.
  unfold at_most, to_rat. rewrite round53_mant, round53_expo.
  set (e := exponent53 n d) in *.
  unfold scale in *. destruct (0 <=? e) eqn:He; cbn [fst snd] in *.
  - apply Z.leb_le in He. split; [lia|].
    destruct (Z.eq_dec e 0) as [E0|E0].
    + rewrite E0 in *. rewrite Z.pow_0_r in *.
      pose proof (rne_upper n (d * 1) v). lia.
    + pose proof (pow2_ge_2 e ltac:(lia)). nia.
  - apply Z.leb_gt in He. pose proof (pow2_pos (- e) ltac:(lia)).
    split; [lia|]. apply rne_upper; [lia|]. nia.
Qed.

Lemma float64_of_int_at_least (z : Z) : 0 < z < 2 ^ 53 -> at_least (float64_of_int z) z.
Proof. intros. apply round53_at_least; lia. Qed.

Lemma float64_of_int_at_most (z : Z) : 0 < z < 2 ^ 53 -> at_most (float64_of_int z) z.
Proof. intros. apply round53_at_most; lia. Qed.

Lemma at_least_pos (x : float64) (v : Z) : 0 < v -> at_least x v -> 0 < (to_rat x).1.
Proof.
  intros Hv [Hd Hx]. pose proof (Z.mul_pos_pos v _ Hv Hd). lia.
Qed.

Lemma fdiv_at_least_1 (x y : float64) (vx vy : Z) :
  0 < vy <= vx -> at_least x vx -> at_least y 1 -> at_most y vy -> at_least (fdiv x y) 1.
Proof.
  intros Hv Hx Hy1 Hy.
  pose proof (at_least_pos x vx ltac:(lia) Hx) as Hnx.
  pose proof (at_least_pos y 1 ltac:(lia) Hy1) as Hny.
  revert Hx Hy1 Hy Hnx Hny. unfold at_least, at_most, fdiv.
  destruct (to_rat x) as [nx dx], (to_rat y) as [ny dy]. cbn [fst snd].
  intros [Hdx Hx] [Hdy Hy1] [_ Hy] Hnx Hny.
  apply round53_at_least; [by apply Z.mul_pos_pos | by apply Z.mul_pos_pos | lia |].
  assert (dx * ny <= dx * (vy * dy)) by (apply Z.mul_le_mono_nonneg_l; lia).
  assert (vy * dy <= vx * dy) by (apply Z.mul_le_mono_nonneg_r; lia).
  assert (dx * (vy * dy) <= dx * (vx * dy)) by (apply Z.mul_le_mono_nonneg_l; lia).
  assert (vx * dx * dy <= nx * dy) by (apply Z.mul_le_mono_nonneg_r; lia).
  lia.
Qed.

Lemma fmul_at_least (x y : float64) (v : Z) :
  0 < v < 2 ^ 53 -> at_least x v -> at_least y 1 -> at_least (fmul x y) v.
Proof.
  intros Hv Hx Hy.
  pose proof (at_least_pos x v ltac:(lia) Hx) as Hnx.
  pose proof (at_least_pos y 1 ltac:(lia) Hy) as Hny.
  revert Hx Hy Hnx Hny. unfold at_least, fmul.
  destruct (to_rat x) as [nx dx], (to_rat y) as [ny dy]. cbn [fst snd].
  intros [Hdx Hx] [Hdy Hy] Hnx Hny.
  apply round53_at_least; [by apply Z.mul_pos_pos | by apply Z.mul_pos_pos | lia |].
  assert (v * dx * dy <= nx * dy) by (apply Z.mul_le_mono_nonneg_r; lia).
  assert (nx * dy <= nx * ny) by (apply Z.mul_le_mono_nonneg_l; lia).
  lia.
Qed.

Lemma int64_of_float_at_least (x : float64) (v : Z) :
  at_least x v -> v <= int64_of_float x.
Proof.
  unfold at_least, int64_of_float. destruct (to_rat x) as [n d]. simpl.
  intros [Hd Hv]. apply Z.div_le_lower_bound; lia.
Qed.

Lemma next_key_range (key : Z) : 0 <= next_key key < 2 ^ 64.
Proof. unfold next_key, wrap64. apply Z.mod_pos_bound. lia. Qed.

(** [j] grows on every pass of the loop. *)
Lemma next_j_grows (b key : Z) :
  0 <= b -> b + 1 < 2 ^ 53 -> 0 <= key < 2 ^ 64 -> b + 1 <= next_j b key.
Proof.
  intros Hb Hb' Hkey. unfold next_j.
  apply int64_of_float_at_least.
  rewrite Z.shiftr_div_pow2 by lia.
  assert (0 <= key / 2 ^ 33 < 2 ^ 31) as Hq.
  { split; [apply Z.div_pos; lia|]. apply Z.div_lt_upper_bound; lia. }
  change (Z.shiftl 1 31) with (2 ^ 31).
  apply fmul_at_least; [lia | apply float64_of_int_at_least; lia |].
  apply fdiv_at_least_1 with (vx := 2 ^ 31) (vy := key / 2 ^ 33 + 1).
  - lia.
  - apply float64_of_int_at_least; lia.
  - destruct (float64_of_int_at_least (key / 2 ^ 33 + 1)) as [? ?]; [lia|].
    split; [done|]. nia.
  - apply float64_of_int_at_most; lia.
Qed.

Lemma hash_loop_total (fuel : nat) : forall key b j buckets,
  0 <= b -> b <= j -> b < buckets -> buckets < 2 ^ 53 ->
  buckets - j <= Z.of_nat fuel ->
  exists r, hash_loop fuel key b j buckets = Some r /\ 0 <= r < buckets.
Proof.
  induction fuel as [|fuel IH]; intros key b j buckets Hb Hbj Hbb Hbk Hfuel; simpl.
  - destruct (j <? buckets) eqn:Hj; [apply Z.ltb_lt in Hj; lia|]. eauto.
  - destruct (j <? buckets) eqn:Hj; [|eauto].
    apply Z.ltb_lt in Hj.
    pose proof (next_j_grows j (next_key key) ltac:(lia) ltac:(lia) (next_key_range key)).
    apply IH; lia.
Qed.

Lemma wrap_int32_small (z : Z) : - 2 ^ 31 <= z < 2 ^ 31 -> wrap_int32 z = z.
Proof. intros. unfold wrap_int32. rewrite Z.mod_small; lia. Qed.

(** [jump.Hash] returns: [buckets] passes of the loop are enough, and the
    bucket lies in [[0, buckets)]. *)
Lemma Hash_fuel_total (key buckets : Z) :
  1 <= buckets < 2 ^ 31 ->
  Hash_fuel (Z.to_nat buckets) key buckets = Some (Hash key buckets)
  /\ 0 <= Hash key buckets < buckets.
Proof.
  intros Hn. unfold Hash, Hash_fuel, clamp_buckets.
  destruct (buckets <=? 0) eqn:E; [apply Z.leb_le in E; lia|].
  destruct (hash_loop_total (Z.to_nat buckets) key 0 0 buckets) as (r & -> & Hr); try lia.
  simpl. rewrite wrap_int32_small by lia. done.
Qed.

(** The test vectors of the jump consistent hash. *)
Example Hash_test_vectors :
  (Hash 1 1, Hash 42 57, Hash 0xDEAD10CC 1, Hash 0xDEAD10CC 666, Hash 256 1024)
  = (0, 43, 0, 361, 520).
Proof. vm_compute. reflexivity. Qed.

(** The loop body against the machine's binary64: on the samples the
    model of [next_j] in [Z] and the primitive floats agree. *)
Example next_j_is_binary64 :
  forallb agree (samples 500 2024) = true
  /\ forallb agree [(0, 0); (0, 2 ^ 64 - 1); (2 ^ 31 - 2, 0); (2 ^ 31 - 2, 2 ^ 64 - 1);
                    (2, 3 * 2 ^ 33 - 1); (6, 7 * 2 ^ 33); (9, 10 * 2 ^ 33 + 5)] = true.
Proof. vm_compute. done. Qed.

Lemma hash_loop_0 (key b j buckets : Z) :
  hash_loop 0 key b j buckets = if j <? buckets then None else Some b.
Proof. reflexivity. Qed.

Lemma hash_loop_S (fuel : nat) (key b j buckets : Z) :
  hash_loop (S fuel) key b j buckets =
  if j <? buckets
  then hash_loop fuel (next_key key) j (next_j j (next_key key)) buckets
  else Some b.
Proof. reflexivity. Qed.

(** More fuel than the loop needs does not change its result. *)
Lemma hash_loop_more_fuel (fuel : nat) : forall key b j buckets r,
  hash_loop fuel key b j buckets = Some r ->
  hash_loop (S fuel) key b j buckets = Some r.
Proof.
  induction fuel as [|fuel IH]; intros key b j buckets r Hrun.
  - rewrite hash_loop_0 in Hrun. rewrite hash_loop_S.
    by destruct (j <? buckets).
  - rewrite hash_loop_S in Hrun. rewrite hash_loop_S.
    destruct (j <? buckets); [by apply IH | done].
Qed.

(** The loop with one bucket more: it stops where it stopped before, or
    one pass later, in the new bucket. *)
Lemma hash_loop_one_more_bucket (fuel : nat) : forall key b j buckets r r',
  0 <= b -> b <= j -> buckets + 1 < 2 ^ 53 ->
  hash_loop fuel key b j buckets = Some r ->
  hash_loop fuel key b j (buckets + 1) = Some r' ->
  r' = r \/ r' = buckets.
Proof.
  induction fuel as [|fuel IH]; intros key b j buckets r r' Hb Hbj Hbk Hrun Hrun'.
  - rewrite hash_loop_0 in Hrun, Hrun'. destruct (j <? buckets) eqn:Hj; [done|].
    destruct (j <? buckets + 1); [done|]. left. congruence.
  - rewrite hash_loop_S in Hrun, Hrun'.
    destruct (j <? buckets) eqn:Hj.
    + apply Z.ltb_lt in Hj.
      destruct (j <? buckets + 1) eqn:Hj'; [|apply Z.ltb_ge in Hj'; lia].
      pose proof (next_j_grows j (next_key key) ltac:(lia) ltac:(lia) (next_key_range key)).
      apply (IH (next_key key) j (next_j j (next_key key)) buckets); try done; lia.
    + apply Z.ltb_ge in Hj. simplify_eq.
      destruct (j <? buckets + 1) eqn:Hj'.
      * apply Z.ltb_lt in Hj'. assert (j = buckets) as -> by lia.
        pose proof (next_j_grows buckets (next_key key) ltac:(lia) ltac:(lia)
                      (next_key_range key)) as Hgrow.
        right.
        assert ((next_j buckets (next_key key) <? buckets + 1) = false) as Hn
          by (apply Z.ltb_ge; lia).
        destruct fuel as [|fuel].
        -- rewrite hash_loop_0, Hn in Hrun'. congruence.
        -- rewrite hash_loop_S, Hn in Hrun'. congruence.
      * left. congruence.
Qed.

(** X1.  Jump consistency.  When a database grows from [buckets] shards to
    [buckets + 1], [jump.Hash] leaves a key in the shard it had or sends
    it to the new shard, number [buckets]: no key moves between two of the
    old shards. *)
Theorem Hash_one_more_bucket (key buckets : Z) :
  1 <= buckets -> buckets + 1 < 2 ^ 31 ->
  Hash key (buckets + 1) = Hash key buckets \/ Hash key (buckets + 1) = buckets.
Proof.
  intros Hlo Hhi. unfold Hash, Hash_fuel, clamp_buckets.
  destruct (buckets <=? 0) eqn:E; [apply Z.leb_le in E; lia|].
  destruct (buckets + 1 <=? 0) eqn:E'; [apply Z.leb_le in E'; lia|].
  destruct (hash_loop_total (Z.to_nat buckets) key 0 0 buckets) as (r & Hr & Hrange);
    try lia.
  destruct (hash_loop_total (Z.to_nat (buckets + 1)) key 0 0 (buckets + 1))
    as (r' & Hr' & Hrange'); try lia.
  rewrite Hr, Hr'. cbn [fmap option_fmap option_map default].
  rewrite !wrap_int32_small by lia.
  replace (Z.to_nat (buckets + 1)) with (S (Z.to_nat buckets)) in Hr' by lia.
  apply hash_loop_more_fuel in Hr.
  apply (hash_loop_one_more_bucket (S (Z.to_nat buckets)) key 0 0 buckets); try done; lia.
Qed.

Lemma Hash_one_more_bucket_witness :
  1 <= 57 /\ 57 + 1 < 2 ^ 31 /\ (Hash 42 (57 + 1) = Hash 42 57 \/ Hash 42 (57 + 1) = 57).
Proof.
  split; [lia|]. split; [lia|]. apply (Hash_one_more_bucket 42 57); lia.
Defined.

(** A shard count of one, of zero or below zero leaves one shard. *)
Lemma Hash_no_buckets (key buckets : Z) : buckets <= 1 -> Hash key buckets = 0.
Proof.
  intros Hle. unfold Hash, Hash_fuel.
  assert (clamp_buckets buckets = 1) as ->.
  { unfold clamp_buckets. destruct (buckets <=? 0) eqn:E; [done|].
    apply Z.leb_gt in E. lia. }
  destruct (hash_loop_total (Z.to_nat 1) key 0 0 1) as (r & Hr & Hrange); try lia.
  rewrite Hr. cbn [fmap option_fmap option_map default].
  rewrite wrap_int32_small by lia. unfold id. lia.
Qed.

End JumpFacts.

(** ** The two insertion sorts meet the contract of [sort.Sort] *)
Module SortFacts.
Import GoSort.
Local Open Scope Z_scope.

Section Insertion.
Context {A : Type} (before : Z -> Z -> bool) (key : A -> Z).
Hypothesis before_le : forall a b, if before a b then a <= b else b <= a.

Lemma insert_by_perm (x : A) (l : list A) :
  Permutation (insert_by before key x l) (x :: l).
Proof.
  induction l as [|y l IH]; simpl; [done|].
  destruct (before (key x) (key y)); [done|].
  rewrite IH. apply perm_swap.
Qed.

Lemma insertion_sort_perm (l : list A) : Permutation (insertion_sort before key l) l.
Proof.
  induction l as [|x l IH]; simpl; [done|].
  rewrite insert_by_perm. by constructor.
Qed.

Lemma insert_by_ascending (x : A) (l : list A) :
  ascending key l -> ascending key (insert_by before key x l).
Proof.
  unfold ascending. induction l as [|y l IH]; simpl; intros Hl.
  - repeat constructor.
  - pose proof (before_le (key x) (key y)) as Hxy.
    apply StronglySorted_cons in Hl as [Hy Hl].
    destruct (before (key x) (key y)).
    + apply StronglySorted_cons. split; [|by apply StronglySorted_cons].
      constructor; [done|]. eapply Forall_impl; [exact Hy|]. simpl. lia.
    + apply StronglySorted_cons. split; [|by apply IH].
      rewrite (insert_by_perm x l). by constructor.
Qed.

Lemma insertion_sort_ascending (l : list A) : ascending key (insertion_sort before key l).
Proof.
  induction l as [|x l IH]; simpl; [constructor|]. by apply insert_by_ascending.
Qed.
End Insertion.

Lemma leb_le_or_ge (a b : Z) : if a <=? b then a <= b else b <= a.
Proof. destruct (a <=? b) eqn:E; [apply Z.leb_le in E | apply Z.leb_gt in E]; lia. Qed.

Lemma ltb_le_or_ge (a b : Z) : if a <? b then a <= b else b <= a.
Proof. destruct (a <? b) eqn:E; [apply Z.ltb_lt in E | apply Z.ltb_ge in E]; lia. Qed.

Lemma stable_contract : contract stable.
Proof.
  split; intros A key l.
  - apply insertion_sort_perm.
  - apply insertion_sort_ascending, leb_le_or_ge.
Qed.

Lemma reversing_contract : contract reversing.
Proof.
  split; intros A key l.
  - apply insertion_sort_perm.
  - apply insertion_sort_ascending, ltb_le_or_ge.
Qed.

End SortFacts.

Module TimeutilFacts.
Import Timeutil.
Local Open Scope Z_scope.

(** Families of equal width that tile their segment form a lawful calculator. *)
Lemma fixedWidth_lawful (segment width : Z) :
  0 < width -> 0 < segment -> (width | segment) -> lawful (fixedWidth segment width).
Proof.
  intros Hw Hs [k Hk].
  assert (forall ts, familyStart (fixedWidth segment width) ts = ts - ts mod width) as Hfs.
  { intros ts. unfold familyStart. simpl.
    replace (ts - (ts - ts mod segment)) with (ts mod segment) by lia.
    pose proof (Z.div_mod (ts mod segment) width ltac:(lia)) as Hdm.
    assert ((ts mod segment) mod width = ts mod width) as Hmm.
    { apply Z.mod_mod_divide. by exists k. }
    rewrite Hmm in Hdm. lia. }
  split.
  - intros ts. rewrite Hfs. simpl.
    pose proof (Z.mod_pos_bound ts width Hw). lia.
  - intros ts1 ts2 Hle. rewrite !Hfs.
    pose proof (Z.div_mod ts1 width ltac:(lia)).
    pose proof (Z.div_mod ts2 width ltac:(lia)).
    assert (ts1 / width <= ts2 / width) by (apply Z.div_le_mono; lia).
    nia.
Qed.

End TimeutilFacts.

(** ** The family iterator *)
Module FamilyFacts.
Import GoSort Timeutil metric metric.FamilyIterator FamilySpec.
Local Open Scope Z_scope.

Lemma slice_Some {A : Type} (s : list A) (lo hi : nat) :
  (lo <= hi <= length s)%nat -> slice s lo hi = Some (take (hi - lo) (drop lo s)).
Proof. intros. unfold slice. by rewrite decide_True. Qed.

Lemma slice_app_drop {A : Type} (s : list A) (lo hi : nat) :
  (lo <= hi)%nat -> take (hi - lo) (drop lo s) ++ drop hi s = drop lo s.
Proof.
  intros. rewrite <- (take_drop (hi - lo) (drop lo s)) at 2.
  rewrite drop_drop. do 2 f_equal. lia.
Qed.

Section Family.
Context `{Sorter} (Hsort : contract _) (calc : IntervalCalculator) (Hlaw : lawful calc).

Lemma Contains_window (t t' : Z) :
  Contains (timeRangeOfTimestamp calc t) t' = true <->
  familyStart calc t <= t' <= CalcFamilyEndTime calc (familyStart calc t).
Proof.
  unfold Contains, timeRangeOfTimestamp, familyStart. simpl.
  rewrite andb_true_iff, Z.leb_le, Z.leb_le. done.
Qed.

Lemma Contains_own (t : Z) : Contains (timeRangeOfTimestamp calc t) t = true.
Proof. apply Contains_window, (own_window calc Hlaw). Qed.

(** A later timestamp outside the window of [t] has a later family. *)
Lemma next_window_later (t t' : Z) :
  t <= t' -> Contains (timeRangeOfTimestamp calc t) t' = false ->
  familyStart calc t < familyStart calc t'.
Proof.
  intros Hle Hout.
  pose proof (family_monotone calc Hlaw t t' Hle) as Hmono.
  destruct (Z.eq_dec (familyStart calc t) (familyStart calc t')) as [E|]; [|lia].
  pose proof (Contains_own t') as Hown. apply Contains_window in Hown.
  rewrite <- E in Hown. apply Contains_window in Hown. congruence.
Qed.

Lemma family_run_spec (tr : TimeRange) (rs : list BrokerRow) (n : nat) : forall ge : nat,
  (ge + n = length rs)%nat ->
  let stop := family_run tr rs n ge in
  (ge <= stop <= length rs)%nat /\
  Forall (fun row => Contains tr (ts row) = true) (take (stop - ge) (drop ge rs)) /\
  (forall row, rs !! stop = Some row -> Contains tr (ts row) = false).
Proof.
  induction n as [|n IH]; intros ge Hlen; simpl.
  - split; [lia|]. rewrite Nat.sub_diag. split; [constructor|].
    intros row Hrow. apply lookup_lt_Some in Hrow. lia.
  - destruct (rs !! ge) as [row|] eqn:Hrow.
    2:{ apply lookup_ge_None in Hrow. lia. }
    destruct (Contains tr (ts row)) eqn:Hc.
    + destruct (IH (S ge) ltac:(lia)) as (Hb & Hall & Hstop).
      split; [lia|]. split; [|done].
      rewrite (drop_S _ _ _ Hrow).
      replace (family_run tr rs n (S ge) - ge)%nat
        with (S (family_run tr rs n (S ge) - S ge)) by lia.
      simpl. by constructor.
    + split; [lia|]. rewrite Nat.sub_diag. split; [constructor|].
      intros row' Hrow'. congruence.
Qed.

Lemma family_run_first (tr : TimeRange) (rs : list BrokerRow) (n ge : nat) (row : BrokerRow) :
  rs !! ge = Some row -> Contains tr (ts row) = true -> (ge + n = length rs)%nat ->
  (ge < family_run tr rs n ge)%nat.
Proof.
  intros Hrow Hc Hlen. destruct n as [|n].
  - apply lookup_lt_Some in Hrow. lia.
  - simpl. rewrite Hrow, Hc.
    destruct (family_run_spec tr rs n (S ge) ltac:(lia)) as (Hb & _). lia.
Qed.

Lemma families_S (fuel : nat) (itr : BrokerBatchShardFamilyIterator) :
  families (S fuel) itr =
  (let '(more, itr') := HasNextFamily itr in
   if more then
     group ← NextFamily itr'; groups ← families fuel itr'; Some (group :: groups)
   else Some []).
Proof. reflexivity. Qed.

(** The groups of the slow path: from [groupEnd] on, the iterator emits
    the rest of its rows in runs, one run per family window. *)
Lemma families_runs (n : nat) : forall itr : BrokerBatchShardFamilyIterator,
  sameFamily itr = false -> intervalCalc itr = calc ->
  (groupStart itr <= groupEnd itr)%nat ->
  (length (rows itr) - groupEnd itr <= n)%nat ->
  ascending (fun row => ts row) (rows itr) ->
  exists groups,
    families (S n) itr = Some groups /\
    concat groups.*2 = drop (groupEnd itr) (rows itr) /\
    Forall (in_one_window calc) groups /\
    family_ascending groups /\
    (forall row, rows itr !! groupEnd itr = Some row ->
       Forall (fun g => familyStart calc (ts row) <= g.1) groups).
Proof.
  induction n as [|n IH]; intros itr Hsame Hcalc Hse Hn Hasc.
  - exists []. rewrite families_S. unfold HasNextFamily.
    rewrite decide_True by lia. repeat split; try constructor.
    symmetry. apply drop_ge. lia.
  - rewrite families_S. unfold HasNextFamily.
    destruct (decide _) as [Hend|Hmore].
    { exists []. repeat split; try constructor.
      symmetry. apply drop_ge. lia. }
    rewrite Hsame.
    destruct (rows itr !! groupEnd itr) as [first|] eqn:Hfirst.
    2:{ apply lookup_ge_None in Hfirst. lia. }
    rewrite Hcalc.
    set (tr := timeRangeOfTimestamp calc (ts first)).
    set (stop := family_run tr (rows itr) (length (rows itr) - groupEnd itr) (groupEnd itr)).
    destruct (family_run_spec tr (rows itr) (length (rows itr) - groupEnd itr)
                (groupEnd itr) ltac:(lia)) as (Hb & Hall & Hstop).
    fold stop in Hb, Hall, Hstop.
    pose proof (family_run_first tr (rows itr) (length (rows itr) - groupEnd itr)
                  (groupEnd itr) first Hfirst (Contains_own _) ltac:(lia)) as Hlt.
    fold stop in Hlt.
    rewrite bool_decide_true by lia.
    unfold NextFamily. cbn [groupStart groupEnd rows groupFamilyTime].
    rewrite slice_Some by lia. cbn [mbind option_bind].
    set (itr' := {| groupEnd := stop |}).
    destruct (IH itr') as (groups & Hrun & Hcat & Hgood & Hsorted & Hlow);
      [done | done | simpl; lia | simpl; lia | done |].
    rewrite Hrun. cbn [mbind option_bind].
    eexists. split; [reflexivity|].
    change (rows itr') with (rows itr) in Hcat, Hlow.
    change (groupEnd itr') with stop in Hcat, Hlow.
    assert (Forall (fun g => familyStart calc (ts first) < g.1) groups) as Hlater.
    { destruct (rows itr !! stop) as [row|] eqn:Hrow.
      - specialize (Hlow row eq_refl).
        assert (familyStart calc (ts first) < familyStart calc (ts row)).
        { apply next_window_later; [|by apply Hstop].
          clear Hstop Hlow.
          unfold ascending in Hasc.
          rewrite <- (take_drop (groupEnd itr) (rows itr)) in Hasc.
          apply StronglySorted_app_1_r in Hasc.
          rewrite (drop_S _ _ _ Hfirst) in Hasc.
          apply StronglySorted_cons in Hasc as [Hle _].
          rewrite Forall_lookup in Hle.
          apply (Hle (stop - S (groupEnd itr))%nat row).
          rewrite lookup_drop. rewrite <- Hrow. f_equal. lia. }
        eapply Forall_impl; [exact Hlow|]. simpl. lia.
      - apply lookup_ge_None in Hrow.
        assert (groups = []) as ->; [|constructor].
        destruct groups as [|g groups]; [done|].
        apply Forall_cons in Hgood as [[Hne _] _].
        rewrite drop_ge in Hcat by lia. simpl in Hcat.
        apply app_eq_nil in Hcat as [? _]. done. }
    repeat split.
    + cbn [fmap list_fmap concat snd]. rewrite Hcat.
      apply slice_app_drop. lia.
    + constructor; [|done]. split; cbn [fst snd].
      * intros Hnil. apply (f_equal length) in Hnil.
        rewrite length_take, length_drop in Hnil. simpl in Hnil. lia.
      * eapply Forall_impl; [exact Hall|]. intros row Hc. simpl in Hc.
        by apply Contains_window in Hc.
    + apply StronglySorted_cons. split; [|done]. done.
    + intros row Hrow. assert (row = first) as -> by congruence.
      constructor; [cbn [fst]; unfold familyTimeOfTimestamp, familyStart; lia|].
      eapply Forall_impl; [exact Hlater|]. simpl. lia.
Qed.

Lemma reset_fields (rs : list BrokerRow) :
  reset rs calc =
  {| groupEnd := 0; groupStart := 0;
     groupFamilyTime := match rs with
                        | [] => 0
                        | first :: _ => familyStart calc (ts first)
                        end;
     sameFamily := allSameFamily calc rs;
     rows := if allSameFamily calc rs then rs else sort_by (fun row => ts row) rs;
     intervalCalc := calc |}.
Proof. unfold reset, isSameFamily. by destruct rs. Qed.

(** The fast path: one group, the slice as it is. *)
Lemma families_same (rs : list BrokerRow) :
  allSameFamily calc rs = true ->
  families (S (length rs)) (reset rs calc) =
  Some match rs with
       | [] => []
       | first :: _ => [(familyStart calc (ts first), rs)]
       end.
Proof.
  intros Hsame. rewrite reset_fields, Hsame.
  destruct rs as [|first others].
  - rewrite families_S. unfold HasNextFamily.
    cbn [rows groupEnd groupStart sameFamily]. by rewrite decide_True by (simpl; lia).
  - rewrite families_S. unfold HasNextFamily. cbn [rows groupEnd groupStart sameFamily].
    rewrite decide_False by (simpl; lia).
    unfold NextFamily. cbn [rows groupEnd groupStart groupFamilyTime].
    rewrite slice_Some by lia. cbn [mbind option_bind length].
    rewrite families_S. unfold HasNextFamily. cbn [rows groupEnd groupStart sameFamily].
    rewrite decide_True by (simpl; lia). cbn [mbind option_bind].
    rewrite drop_0, Nat.sub_0_r. change (S (length others)) with (length (first :: others)).
    by rewrite firstn_all.
Qed.

Lemma families_sorted (rs : list BrokerRow) :
  allSameFamily calc rs = false ->
  exists groups,
    families (S (length rs)) (reset rs calc) = Some groups /\
    concat groups.*2 = sort_by (fun row => ts row) rs /\
    Forall (in_one_window calc) groups /\
    family_ascending groups.
Proof.
  intros Hsame. rewrite reset_fields, Hsame.
  set (itr := {| groupEnd := 0 |}).
  destruct (families_runs (length rs) itr) as (groups & Hrun & Hcat & Hgood & Hasc & _);
    try done.
  - simpl. rewrite (Permutation_length (sort_by_perm _ Hsort _ rs)). lia.
  - by apply sort_by_ascending.
  - exists groups. by rewrite Hrun, Hcat.
Qed.

End Family.

(** C1.  For every shard slice [S] handed to the family iterator, and every
    sorting routine and lawful interval calculator: the caller's loop over
    [HasNextFamily]/[NextFamily] returns; the groups it sees, put end to
    end, are a permutation of [S]; every group is non-empty and all its
    timestamps lie in the one family window that starts at the group's
    family time; and the family times of the groups ascend strictly. *)
Theorem family_groups_partition `{Sorter} (calc : IntervalCalculator) (S : list BrokerRow) :
  contract _ -> lawful calc ->
  exists groups,
    families (Datatypes.S (length S)) (reset S calc) = Some groups /\
    Permutation (concat groups.*2) S /\
    Forall (in_one_window calc) groups /\
    family_ascending groups.
Proof.
  intros Hsort Hlaw. destruct (allSameFamily calc S) eqn:Hsame.
  - rewrite (families_same calc S Hsame). eexists. split; [reflexivity|].
    destruct S as [|first others].
    + repeat split; constructor.
    + simpl. rewrite app_nil_r. split; [done|]. split; [|repeat constructor].
      constructor; [|constructor]. split; [done|]. cbn [fst snd].
      constructor; [apply (own_window calc Hlaw)|].
      simpl in Hsame. rewrite forallb_forall in Hsame. apply Forall_forall.
      intros row Hin. apply Contains_window. apply Hsame.
      by apply list_elem_of_In.
  - destruct (families_sorted Hsort calc Hlaw S Hsame)
      as (groups & Hrun & Hcat & Hgood & Hasc).
    exists groups. rewrite Hcat. repeat split; try done. by apply sort_by_perm.
Qed.

(** C6, as the code has it.  The family iterator sorts with [sort.Sort]:
    when the slice spans more than one family window, the groups put end
    to end are the slice in ascending timestamp order, a permutation of
    it, so rows with different timestamps come out in timestamp order and
    nothing is promised for rows with equal timestamps; when the slice
    lies in one window nothing is sorted and the one group is the slice
    in its own order. *)
Theorem family_groups_order `{Sorter} (calc : IntervalCalculator) (S : list BrokerRow) :
  contract _ -> lawful calc ->
  exists groups,
    families (Datatypes.S (length S)) (reset S calc) = Some groups /\
    (allSameFamily calc S = true -> concat groups.*2 = S) /\
    (allSameFamily calc S = false ->
       concat groups.*2 = sort_by (fun row => ts row) S /\
       ascending (fun row => ts row) (concat groups.*2) /\
       Permutation (concat groups.*2) S).
Proof.
  intros Hsort Hlaw. destruct (allSameFamily calc S) eqn:Hsame.
  - rewrite (families_same calc S Hsame). eexists. split; [reflexivity|].
    split; [|done]. intros _. destruct S; simpl; [done|]. by rewrite app_nil_r.
  - destruct (families_sorted Hsort calc Hlaw S Hsame) as (groups & Hrun & Hcat & _).
    exists groups. split; [done|]. split; [done|]. intros _.
    rewrite Hcat. split; [done|].
    split; [by apply sort_by_ascending | by apply sort_by_perm].
Qed.

(** Where no two rows have the same key, the contract of [sort.Sort] leaves
    one result only. *)
Lemma sort_by_distinct `{Sorter} {A : Type} (key : A -> Z) (l sorted : list A) :
  contract _ ->
  Permutation sorted l -> ascending key sorted ->
  (forall x y, x ∈ l -> y ∈ l -> key x = key y -> x = y) ->
  sort_by key l = sorted.
Proof.
  intros Hsort Hperm Hasc Hinj.
  apply (StronglySorted_unique_strong (fun x y => key x <= key y)).
  - intros x y Hx Hy Hxy Hyx. apply Hinj; [| |lia].
    + by rewrite (sort_by_perm _ Hsort key l) in Hx.
    + by rewrite Hperm in Hy.
  - by apply sort_by_ascending.
  - done.
  - by rewrite (sort_by_perm _ Hsort), Hperm.
Qed.

Lemma hourly_lawful : lawful hourly.
Proof. apply TimeutilFacts.fixedWidth_lawful; [lia | lia | by exists 24]. Qed.

(** Scenario S2: two rows at [t] and [t + 2 W] give two groups, in
    ascending family-time order. *)
Example two_windows_two_groups :
  families 3 (reset (H := stable) [rowAt 1000 1; rowAt 7201000 2] hourly)
  = Some [(0, [rowAt 1000 1]); (7200000, [rowAt 7201000 2])].
Proof. vm_compute. reflexivity. Qed.

Lemma family_groups_partition_witness :
  contract stable /\ lawful hourly /\
  exists groups,
    families 3 (reset (H := stable) [rowAt 1000 1; rowAt 7201000 2] hourly)
      = Some groups /\
    Permutation (concat groups.*2) [rowAt 1000 1; rowAt 7201000 2] /\
    Forall (in_one_window hourly) groups /\
    family_ascending groups.
Proof.
  split; [exact SortFacts.stable_contract|]. split; [exact hourly_lawful|].
  exact (family_groups_partition (H := stable) hourly
           [rowAt 1000 1; rowAt 7201000 2] SortFacts.stable_contract hourly_lawful).
Defined.

Lemma family_groups_order_witness :
  contract stable /\ lawful hourly /\
  exists groups,
    families 4 (reset (H := stable)
                  [rowAt 5 1; rowAt 3 2; rowAt 7200000 3] hourly) = Some groups /\
    (allSameFamily hourly [rowAt 5 1; rowAt 3 2; rowAt 7200000 3] = true ->
       concat groups.*2 = [rowAt 5 1; rowAt 3 2; rowAt 7200000 3]) /\
    (allSameFamily hourly [rowAt 5 1; rowAt 3 2; rowAt 7200000 3] = false ->
       concat groups.*2
         = @sort_by stable _ (fun row => ts row)
             [rowAt 5 1; rowAt 3 2; rowAt 7200000 3] /\
       ascending (fun row => ts row) (concat groups.*2) /\
       Permutation (concat groups.*2) [rowAt 5 1; rowAt 3 2; rowAt 7200000 3]).
Proof.
  split; [exact SortFacts.stable_contract|]. split; [exact hourly_lawful|].
  exact (family_groups_order (H := stable) hourly
           [rowAt 5 1; rowAt 3 2; rowAt 7200000 3] SortFacts.stable_contract
           hourly_lawful).
Defined.

(** With the insertion sort that puts an element behind its equals, two
    rows of one timestamp leave the family iterator in the opposite order. *)
Example reversing_swaps_ties :
  families 4 (reset (H := reversing)
                [rowAt 0 1; rowAt 0 2; rowAt 7200000 3] hourly)
  = Some [(0, [rowAt 0 2; rowAt 0 1]); (7200000, [rowAt 7200000 3])].
Proof. vm_compute. reflexivity. Qed.

(** Refutes [sublist l k] for explicit lists [l] and [k]. *)
Ltac no_sublist :=
  repeat match goal with
         | H : sublist _ _ |- _ => inversion H; clear H; subst
         end.

(** With any sorting routine, rows of one family with different
    timestamps leave the family iterator in timestamp order. *)
Lemma sorted_within_family `{Sorter} :
  contract _ ->
  families 4 (reset [rowAt 5 1; rowAt 3 2; rowAt 7200000 3] hourly)
  = Some [(0, [rowAt 3 2; rowAt 5 1]); (7200000, [rowAt 7200000 3])].
Proof.
  intros Hsort. rewrite reset_fields.
  change (allSameFamily hourly [rowAt 5 1; rowAt 3 2; rowAt 7200000 3]) with false.
  cbn iota.
  rewrite (sort_by_distinct (fun row => ts row) _ [rowAt 3 2; rowAt 5 1; rowAt 7200000 3]).
  - vm_compute. reflexivity.
  - done.
  - rewrite (perm_swap (rowAt 3 2) (rowAt 5 1)). done.
  - unfold ascending. repeat constructor; simpl; lia.
  - intros x y Hx Hy. revert Hx Hy. rewrite !elem_of_cons, !elem_of_nil.
    intros [->|[->|[->|[]]]] [->|[->|[->|[]]]]; simpl; intros; try done; lia.
Qed.

(** C6 fails as stated, in both readings.  Whatever the sorting routine,
    the slice [5, 3, 7200000] of one shard comes out with the row at 3
    before the row at 5 in their common family: the order within a family
    is by timestamp, not by position in the slice.  And a sorting routine
    within the contract of [sort.Sort], which promises no stability, may
    swap two rows of equal timestamp. *)
Lemma grouping_breaks_slice_order :
  (forall sorter : Sorter,
     contract sorter ->
     exists groups,
       families 4 (reset (H := sorter) [rowAt 5 1; rowAt 3 2; rowAt 7200000 3] hourly)
         = Some groups /\
       ~ keeps_family_order [rowAt 5 1; rowAt 3 2; rowAt 7200000 3] groups) /\
  (exists groups,
     contract reversing /\
     families 4 (reset (H := reversing)
                   [rowAt 0 1; rowAt 0 2; rowAt 7200000 3] hourly) = Some groups /\
     ~ keeps_tie_order [rowAt 0 1; rowAt 0 2; rowAt 7200000 3] groups).
Proof.
  split.
  - intros sorter Hsort. eexists. split; [by apply sorted_within_family|].
    intros Hord. specialize (Hord (0, [rowAt 3 2; rowAt 5 1]) ltac:(left)).
    cbn [snd] in Hord. no_sublist.
  - eexists. split; [exact SortFacts.reversing_contract|].
    split; [apply reversing_swaps_ties|].
    intros Hord.
    specialize (Hord (0, [rowAt 0 2; rowAt 0 1]) (rowAt 0 2) (rowAt 0 1)
                  ltac:(left) eq_refl ltac:(reflexivity)).
    no_sublist.
Qed.

End FamilyFacts.

(** ** The shard iterator and the shard ids *)
Module ShardFacts.
Import GoSort Timeutil metric metric.ShardIterator.
Import FamilySpec ShardSpec FamilyFacts.
Local Open Scope Z_scope.

Lemma stamp_loop_spec (numOfShards : Z) (n : nat) : forall (i : nat) (rs : list BrokerRow),
  (i + n <= length rs)%nat ->
  stamp_loop numOfShards n i rs
  = Some (take i rs ++ (stamp numOfShards <$> take n (drop i rs)) ++ drop (i + n) rs).
Proof.
  induction n as [|n IH]; intros i rs Hlen; simpl.
  - rewrite Nat.add_0_r. by rewrite take_drop.
  - destruct (lookup_lt_is_Some_2 rs i ltac:(lia)) as [row Hrow].
    rewrite Hrow. cbn [mbind option_bind].
    rewrite IH by (rewrite length_insert; lia).
    f_equal.
    rewrite (take_S_r (<[i:=_]> rs) i (stamp numOfShards row))
      by (rewrite list_lookup_insert_eq; [done | lia]).
    rewrite take_insert_ge by lia.
    rewrite !drop_insert_lt by lia.
    rewrite (drop_S rs row i Hrow). cbn [take fmap list_fmap].
    rewrite <- app_assoc. cbn [app].
    by replace (S i + n)%nat with (i + S n)%nat by lia.
Qed.

Lemma Rows_Some (br : BrokerBatchRows) :
  well_formed br -> Rows br = Some (take (rowCount br) (rows br)).
Proof.
  intros Hwf. unfold Rows. rewrite slice_Some by (unfold well_formed in Hwf; lia).
  by rewrite Nat.sub_0_r, drop_0.
Qed.

Section Shard.
Context `{Sorter} (Hsort : contract _).

(** [NewShardGroupIterator] on a well-formed batch: every committed row is
    stamped, the committed rows are sorted by shard id, the slots behind
    them are left alone. *)
Lemma NewShardGroupIterator_spec (numOfShards : Z) (br : BrokerBatchRows) :
  well_formed br ->
  NewShardGroupIterator numOfShards br =
  Some {| groupEnd := 0; groupStart := 0; groupShardID := -1;
          batch := {| rows := sort_by ShardID
                                (stamp numOfShards <$> take (rowCount br) (rows br))
                              ++ drop (rowCount br) (rows br);
                      rowCount := rowCount br |} |}.
Proof.
  intros Hwf. unfold NewShardGroupIterator, Len.
  rewrite stamp_loop_spec by (unfold well_formed in Hwf; lia).
  cbn [mbind option_bind]. rewrite take_0, drop_0, Nat.add_0_l, app_nil_l. unfold Reset.
  cbn [batch metric.rows rowCount].
  assert (length (stamp numOfShards <$> take (rowCount br) (rows br)) = rowCount br) as Hlen.
  { rewrite length_fmap, length_take. unfold well_formed in Hwf. lia. }
  rewrite Rows_Some by (unfold well_formed; cbn [metric.rows rowCount];
                        rewrite length_app, Hlen; lia).
  cbn [mbind option_bind metric.rows rowCount].
  rewrite take_app_length' by done.
  rewrite drop_app_length' by done. done.
Qed.

Lemma shard_run_spec (shardID : Z) (rs : list BrokerRow) (n : nat) : forall ge : nat,
  (ge + n <= length rs)%nat ->
  exists stop,
    shard_run shardID rs n ge = Some stop /\
    (ge <= stop <= ge + n)%nat /\
    Forall (fun row => ShardID row = shardID) (take (stop - ge) (drop ge rs)) /\
    (forall row, (stop < ge + n)%nat -> rs !! stop = Some row -> ShardID row <> shardID).
Proof.
  induction n as [|n IH]; intros ge Hlen; simpl.
  - exists ge. split; [done|]. split; [lia|]. rewrite Nat.sub_diag.
    split; [constructor|]. intros; lia.
  - destruct (lookup_lt_is_Some_2 rs ge ltac:(lia)) as [row Hrow].
    rewrite Hrow. cbn [mbind option_bind].
    destruct (bool_decide (ShardID row = shardID)) eqn:Hsid.
    + apply bool_decide_eq_true in Hsid.
      destruct (IH (S ge) ltac:(lia)) as (stop & Hrun & Hb & Hall & Hstop).
      exists stop. split; [done|]. split; [lia|]. split.
      * rewrite (drop_S _ _ _ Hrow).
        replace (stop - ge)%nat with (S (stop - S ge)) by lia.
        simpl. by constructor.
      * intros row' Hlt. apply Hstop. lia.
    + apply bool_decide_eq_false in Hsid.
      exists ge. split; [done|]. split; [lia|]. rewrite Nat.sub_diag.
      split; [constructor|]. intros row' _ Hrow'. congruence.
Qed.

Lemma reset_rows_perm (calc : IntervalCalculator) (rs : list BrokerRow) :
  Permutation (FamilyIterator.rows (FamilyIterator.reset rs calc)) rs.
Proof.
  rewrite reset_fields. cbn [FamilyIterator.rows].
  destruct (allSameFamily calc rs); [done | by apply sort_by_perm].
Qed.

Lemma shardGroups_S (calc : IntervalCalculator) (fuel : nat) (itr : BrokerBatchShardIterator) :
  shardGroups calc (S fuel) itr =
  ('(more, itr) ← HasRowsForNextShard itr;
   if more : bool then
     group ← slice (rows (batch itr)) (groupStart itr) (groupEnd itr);
     '((shardID, familyItr), itr) ← FamilyRowsForNextShard calc itr;
     rest ← shardGroups calc fuel itr;
     Some ({| shard := shardID; selected := group; familyIterator := familyItr |} :: rest)
   else Some []).
Proof. reflexivity. Qed.

(** From [groupEnd] on, the shard iterator cuts the committed rows into
    runs of equal shard id. *)
Lemma shardGroups_runs (calc : IntervalCalculator) (n : nat) :
  forall itr : BrokerBatchShardIterator,
  well_formed (batch itr) ->
  (groupStart itr <= groupEnd itr <= Len (batch itr))%nat ->
  (Len (batch itr) - groupEnd itr <= n)%nat ->
  ascending ShardID (drop (groupEnd itr) (take (Len (batch itr)) (rows (batch itr)))) ->
  exists groups,
    shardGroups calc (S n) itr = Some groups /\
    concat (selected <$> groups)
      = drop (groupEnd itr) (take (Len (batch itr)) (rows (batch itr))) /\
    Forall one_shard groups /\
    shard_ascending groups /\
    (forall row, rows (batch itr) !! groupEnd itr = Some row ->
       Forall (fun g => ShardID row <= shard g) groups).
Proof.
  induction n as [|n IH]; intros itr Hwf Hse Hn Hasc; unfold Len, well_formed in *.
  - exists []. rewrite shardGroups_S. unfold HasRowsForNextShard, Len.
    rewrite decide_True by lia. cbn [mbind option_bind].
    repeat split; try constructor.
    symmetry. apply drop_ge. rewrite length_take. lia.
  - rewrite shardGroups_S. unfold HasRowsForNextShard, Len.
    destruct (decide _) as [Hend|Hmore].
    { exists []. cbn [mbind option_bind]. repeat split; try constructor.
      symmetry. apply drop_ge. rewrite length_take. lia. }
    destruct (lookup_lt_is_Some_2 (rows (batch itr)) (groupEnd itr) ltac:(lia))
      as [first Hfirst].
    rewrite Hfirst. cbn [mbind option_bind].
    destruct (shard_run_spec (ShardID first) (rows (batch itr))
                (rowCount (batch itr) - groupEnd itr) (groupEnd itr) ltac:(lia))
      as (stop & Hrun & Hb & Hall & Hstop).
    rewrite Hrun. cbn [mbind option_bind].
    assert (groupEnd itr < stop)%nat as Hlt.
    { destruct (rowCount (batch itr) - groupEnd itr)%nat as [|k] eqn:Hk; [lia|].
      simpl in Hrun. rewrite Hfirst in Hrun. cbn [mbind option_bind] in Hrun.
      rewrite bool_decide_true in Hrun by done.
      destruct (shard_run_spec (ShardID first) (rows (batch itr)) k (S (groupEnd itr))
                  ltac:(lia)) as (stop' & Hrun' & Hb' & _).
      rewrite Hrun' in Hrun. simplify_eq. lia. }
    rewrite bool_decide_true by lia.
    cbn [batch groupStart groupEnd].
    rewrite slice_Some by lia. cbn [mbind option_bind].
    unfold FamilyRowsForNextShard. cbn [batch groupStart groupEnd groupShardID].
    rewrite slice_Some by lia. cbn [mbind option_bind].
    set (group := take (stop - groupEnd itr) (drop (groupEnd itr) (rows (batch itr)))).
    set (fitr := FamilyIterator.reset group calc).
    set (rs' := take (groupEnd itr) (rows (batch itr))
                  ++ FamilyIterator.rows fitr ++ drop stop (rows (batch itr))).
    set (itr' := {| groupEnd := stop |}).
    assert (length group = (stop - groupEnd itr)%nat) as Hglen.
    { unfold group. rewrite length_take, length_drop. lia. }
    assert (length (FamilyIterator.rows fitr) = (stop - groupEnd itr)%nat) as Hflen.
    { unfold fitr. rewrite (Permutation_length (reset_rows_perm calc group)). done. }
    assert (length (take (groupEnd itr) (rows (batch itr))) = groupEnd itr) as Htlen.
    { rewrite length_take. lia. }
    assert (drop stop rs' = drop stop (rows (batch itr))) as Hdrop.
    { unfold rs'. rewrite app_assoc. apply drop_app_length'.
      rewrite length_app. lia. }
    assert (length rs' = length (rows (batch itr))) as Hlen'.
    { unfold rs'. rewrite !length_app, length_drop. lia. }
    assert (drop stop (take (rowCount (batch itr)) rs')
            = drop stop (take (rowCount (batch itr)) (rows (batch itr)))) as Hsuffix.
    { rewrite !skipn_firstn_comm. by rewrite Hdrop. }
    destruct (IH itr') as (groups & Hgroups & Hcat & Hgood & Hsorted & Hlow).
    { unfold well_formed. simpl. lia. }
    { simpl. lia. }
    { simpl. lia. }
    { unfold itr', Len. cbn [batch groupEnd rowCount metric.rows]. rewrite Hsuffix.
      unfold ascending in *.
      rewrite <- (take_drop (stop - groupEnd itr)
                    (drop (groupEnd itr) (take (rowCount (batch itr)) (rows (batch itr)))))
        in Hasc.
      apply StronglySorted_app_1_r in Hasc. rewrite drop_drop in Hasc.
      by replace (groupEnd itr + (stop - groupEnd itr))%nat with stop in Hasc by lia. }
    rewrite Hgroups. cbn [mbind option_bind].
    eexists. split; [reflexivity|].
    unfold itr', Len in Hcat, Hlow.
    cbn [batch groupEnd rowCount metric.rows] in Hcat, Hlow.
    rewrite Hsuffix in Hcat.
    assert (Forall (fun g => ShardID first < shard g) groups) as Hlater.
    { destruct (decide (stop < rowCount (batch itr))%nat) as [Hin|Hout].
      - destruct (lookup_lt_is_Some_2 (rows (batch itr)) stop ltac:(lia)) as [row Hrow].
        assert (rs' !! stop = Some row) as Hrow'.
        { rewrite <- (Nat.add_0_r stop), <- lookup_drop, Hdrop, lookup_drop.
          by rewrite Nat.add_0_r. }
        specialize (Hlow row Hrow').
        assert (ShardID first <= ShardID row) as Hle.
        { unfold ascending in Hasc.
          rewrite skipn_firstn_comm in Hasc.
          rewrite (drop_S _ _ _ Hfirst) in Hasc.
          destruct (rowCount (batch itr) - groupEnd itr)%nat as [|k] eqn:Hk; [lia|].
          cbn [take] in Hasc.
          apply StronglySorted_cons in Hasc as [Hle _].
          rewrite Forall_lookup in Hle.
          apply (Hle (stop - S (groupEnd itr))%nat row).
          rewrite lookup_take_lt by lia.
          rewrite lookup_drop. rewrite <- Hrow. f_equal. lia. }
        pose proof (Hstop row ltac:(lia) Hrow).
        eapply Forall_impl; [exact Hlow|]. simpl. lia.
      - assert (groups = []) as ->; [|constructor].
        destruct groups as [|g groups]; [done|].
        apply Forall_cons in Hgood as [[Hne _] _].
        rewrite drop_ge in Hcat by (rewrite length_take; lia). simpl in Hcat.
        apply app_eq_nil in Hcat as [? _]. done. }
    repeat split.
    + cbn [fmap list_fmap concat selected]. rewrite Hcat.
      fold group. unfold group.
      rewrite <- (take_drop (stop - groupEnd itr)
                    (drop (groupEnd itr) (take (rowCount (batch itr)) (rows (batch itr))))).
      rewrite drop_drop.
      replace (groupEnd itr + (stop - groupEnd itr))%nat with stop by lia.
      f_equal. rewrite skipn_firstn_comm, take_take. f_equal. lia.
    + constructor; [|done]. split; cbn [selected shard].
      * intros Hnil. apply (f_equal length) in Hnil. rewrite Hglen in Hnil.
        simpl in Hnil. lia.
      * done.
    + apply StronglySorted_cons. split; [|done]. done.
    + intros row Hrow. assert (row = first) as -> by congruence.
      constructor; [cbn [shard]; lia|].
      eapply Forall_impl; [exact Hlater|]. simpl. lia.
Qed.

End Shard.

(** C2.  For every well-formed batch and every shard count, after
    [NewShardGroupIterator] the caller's loop over [HasRowsForNextShard]
    returns; the committed rows of the batch are the stamped rows sorted by
    shard id; the groups the loop selects, put end to end, are exactly
    these rows, so their sizes add up to [Len]; every group is a non-empty
    run of one shard id and the shard ids of the groups ascend strictly, so
    every run is maximal; and an empty batch gives no group. *)
Theorem shard_groups_partition `{Sorter} (calc : IntervalCalculator)
    (numOfShards : Z) (br : BrokerBatchRows) :
  contract _ ->
  well_formed br ->
  exists itr groups,
    NewShardGroupIterator numOfShards br = Some itr /\
    shardGroups calc (S (Len br)) itr = Some groups /\
    Permutation (take (Len br) (rows (batch itr)))
                (stamp numOfShards <$> take (Len br) (rows br)) /\
    ascending ShardID (take (Len br) (rows (batch itr))) /\
    concat (selected <$> groups) = take (Len br) (rows (batch itr)) /\
    sum_list (length <$> (selected <$> groups)) = Len br /\
    Forall one_shard groups /\
    shard_ascending groups /\
    (Len br = 0%nat -> groups = []).
Proof.
  intros Hsort Hwf. rewrite (NewShardGroupIterator_spec numOfShards br Hwf).
  set (stamped := stamp numOfShards <$> take (rowCount br) (rows br)).
  assert (length stamped = rowCount br) as Hlen.
  { unfold stamped. rewrite length_fmap, length_take. unfold well_formed in Hwf. lia. }
  assert (length (sort_by ShardID stamped) = rowCount br) as Hslen.
  { by rewrite (Permutation_length (sort_by_perm _ Hsort _ stamped)). }
  set (itr := {| groupEnd := 0 |}).
  assert (take (Len br) (rows (batch itr)) = sort_by ShardID stamped) as Htake.
  { unfold itr, Len. cbn [batch metric.rows]. by apply take_app_length'. }
  destruct (shardGroups_runs Hsort calc (Len br) itr)
    as (groups & Hrun & Hcat & Hgood & Hasc & _).
  { unfold well_formed, itr. cbn [batch metric.rows rowCount].
    rewrite length_app, length_drop, Hslen. unfold well_formed in Hwf. lia. }
  { unfold itr, Len. simpl. lia. }
  { unfold itr, Len. simpl. lia. }
  { change (Len (batch itr)) with (Len br). rewrite Htake.
    change (groupEnd itr) with 0%nat. rewrite drop_0. by apply sort_by_ascending. }
  change (Len (batch itr)) with (Len br) in Hcat. change (groupEnd itr) with 0%nat in Hcat.
  rewrite drop_0 in Hcat.
  exists itr, groups. split; [done|]. split; [done|].
  rewrite Htake in *. split; [by apply sort_by_perm|].
  split; [by apply sort_by_ascending|].
  split; [done|]. split.
  { rewrite <- length_concat, Hcat. done. }
  split; [done|]. split; [done|].
  intros Hzero. destruct groups as [|g groups]; [done|].
  apply Forall_cons in Hgood as [[Hne _] _].
  apply (f_equal length) in Hcat. unfold Len in Hzero.
  rewrite Hslen, Hzero in Hcat. simpl in Hcat. rewrite length_app in Hcat.
  destruct (selected g); [done | simpl in Hcat; lia].
Qed.

(** C3.  For every well-formed batch and every shard count [1 <= N < 2^31]
    (an [int32]), [NewShardGroupIterator] leaves in the batch the rows it
    held, each with its shard id set, in some order; the shard id of every
    committed row is [jump.Hash] of the row's metric hash and [N], a
    function of these two alone whose loop ends within [N] passes; it lies
    in [[0, N)], and it is 0 when [N = 1]. *)
Theorem shard_id_is_jump_hash `{Sorter} (numOfShards : Z) (br : BrokerBatchRows) :
  contract _ ->
  well_formed br ->
  1 <= numOfShards < 2 ^ 31 ->
  exists itr,
    NewShardGroupIterator numOfShards br = Some itr /\
    Permutation (take (Len br) (rows (batch itr)))
                (stamp numOfShards <$> take (Len br) (rows br)) /\
    forall row, row ∈ take (Len br) (rows (batch itr)) ->
      ShardID row = Jump.Hash (Hash (m row)) numOfShards /\
      Jump.Hash_fuel (Z.to_nat numOfShards) (Hash (m row)) numOfShards = Some (ShardID row) /\
      0 <= ShardID row < numOfShards /\
      (numOfShards = 1 -> ShardID row = 0).
Proof.
  intros Hsort Hwf HN. rewrite (NewShardGroupIterator_spec numOfShards br Hwf).
  eexists. split; [reflexivity|]. cbn [batch metric.rows]. unfold Len.
  set (stamped := stamp numOfShards <$> take (rowCount br) (rows br)).
  assert (length (sort_by ShardID stamped) = rowCount br) as Hslen.
  { rewrite (Permutation_length (sort_by_perm _ Hsort _ stamped)). unfold stamped.
    rewrite length_fmap, length_take. unfold well_formed in Hwf. lia. }
  rewrite take_app_length' by done.
  split; [by apply sort_by_perm|].
  intros row Hrow. rewrite (sort_by_perm _ Hsort ShardID stamped) in Hrow.
  apply list_elem_of_fmap in Hrow as (row0 & -> & _).
  cbn [stamp with_ShardID ShardID m Hash].
  destruct (JumpFacts.Hash_fuel_total (Hash (m row0)) numOfShards HN) as [Hfuel Hrange].
  split; [done|]. split; [done|]. split; [done|]. lia.
Qed.

(** Scenario S1: three rows whose hashes route to three shards of four
    give three shard groups of one row each, in ascending shard order. *)
Example three_rows_three_shards :
  summary <$> (NewShardGroupIterator (H := stable) 4 threeRows
                 ≫= shardGroups (H := stable) hourly 4)
  = Some [(0, [1]); (1, [4]); (3, [2])].
Proof. vm_compute. reflexivity. Qed.

Lemma shard_groups_partition_witness :
  contract stable /\ well_formed threeRows /\
  exists itr groups,
    NewShardGroupIterator (H := stable) 4 threeRows = Some itr /\
    shardGroups (H := stable) hourly 4 itr = Some groups /\
    Permutation (take 3 (rows (batch itr))) (stamp 4 <$> take 3 (rows threeRows)) /\
    ascending ShardID (take 3 (rows (batch itr))) /\
    concat (selected <$> groups) = take 3 (rows (batch itr)) /\
    sum_list (length <$> (selected <$> groups)) = 3%nat /\
    Forall one_shard groups /\
    shard_ascending groups /\
    (3%nat = 0%nat -> groups = []).
Proof.
  split; [exact SortFacts.stable_contract|].
  split; [unfold well_formed; simpl; lia|].
  apply (shard_groups_partition (H := stable) hourly 4 threeRows).
  - exact SortFacts.stable_contract.
  - unfold well_formed; simpl; lia.
Defined.

Lemma shard_id_is_jump_hash_witness :
  contract stable /\ well_formed threeRows /\ 1 <= 4 < 2 ^ 31 /\
  exists itr,
    NewShardGroupIterator (H := stable) 4 threeRows = Some itr /\
    Permutation (take 3 (rows (batch itr))) (stamp 4 <$> take 3 (rows threeRows)) /\
    forall row, row ∈ take 3 (rows (batch itr)) ->
      ShardID row = Jump.Hash (Hash (m row)) 4 /\
      Jump.Hash_fuel (Z.to_nat 4) (Hash (m row)) 4 = Some (ShardID row) /\
      0 <= ShardID row < 4 /\
      (4 = 1 -> ShardID row = 0).
Proof.
  split; [exact SortFacts.stable_contract|].
  split; [unfold well_formed; simpl; lia|]. split; [lia|].
  apply (shard_id_is_jump_hash (H := stable) 4 threeRows);
    [exact SortFacts.stable_contract | unfold well_formed; simpl; lia | lia].
Defined.

(** *** Shard groups and family groups together *)

(** The shard groups of a batch. *)
Lemma shard_groups_of_batch `{Sorter} (calc : IntervalCalculator)
    (numOfShards : Z) (br : BrokerBatchRows) :
  contract _ ->
  well_formed br ->
  exists itr groups,
    NewShardGroupIterator numOfShards br = Some itr /\
    shardGroups calc (S (Len br)) itr = Some groups /\
    concat (selected <$> groups)
      = sort_by ShardID (stamp numOfShards <$> take (Len br) (rows br)) /\
    Forall one_shard groups /\
    shard_ascending groups.
Proof.
  intros Hsort Hwf. rewrite (NewShardGroupIterator_spec numOfShards br Hwf).
  set (stamped := stamp numOfShards <$> take (rowCount br) (rows br)).
  assert (length stamped = rowCount br) as Hlen.
  { unfold stamped. rewrite length_fmap, length_take. unfold well_formed in Hwf. lia. }
  assert (length (sort_by ShardID stamped) = rowCount br) as Hslen.
  { by rewrite (Permutation_length (sort_by_perm _ Hsort _ stamped)). }
  set (itr := {| groupEnd := 0 |}).
  assert (take (Len br) (rows (batch itr)) = sort_by ShardID stamped) as Htake.
  { unfold itr, Len. cbn [batch metric.rows]. by apply take_app_length'. }
  destruct (shardGroups_runs Hsort calc (Len br) itr)
    as (groups & Hrun & Hcat & Hgood & Hasc & _).
  { unfold well_formed, itr. cbn [batch metric.rows rowCount].
    rewrite length_app, length_drop, Hslen. unfold well_formed in Hwf. lia. }
  { unfold itr, Len. simpl. lia. }
  { unfold itr, Len. simpl. lia. }
  { change (Len (batch itr)) with (Len br). rewrite Htake.
    change (groupEnd itr) with 0%nat. rewrite drop_0. by apply sort_by_ascending. }
  change (Len (batch itr)) with (Len br) in Hcat. change (groupEnd itr) with 0%nat in Hcat.
  rewrite drop_0, Htake in Hcat.
  by exists itr, groups.
Qed.

(** The family iterator that the caller gets for a shard group was reset
    over the rows of that group. *)
Lemma shardGroups_family_iterators `{Sorter} (calc : IntervalCalculator) (fuel : nat) :
  forall (itr : BrokerBatchShardIterator) (groups : list shardGroup),
  shardGroups calc fuel itr = Some groups ->
  Forall (fun g => familyIterator g = FamilyIterator.reset (selected g) calc) groups.
Proof.
  induction fuel as [|fuel IH]; intros itr groups Hrun; [done|].
  rewrite shardGroups_S in Hrun.
  destruct (HasRowsForNextShard itr) as [[more itr1]|]; [|done].
  cbn [mbind option_bind] in Hrun. destruct more; [|by simplify_eq].
  unfold FamilyRowsForNextShard in Hrun.
  destruct (slice (rows (batch itr1)) (groupStart itr1) (groupEnd itr1)) as [group|]; [|done].
  cbn [mbind option_bind] in Hrun.
  destruct (shardGroups calc fuel _) as [rest|] eqn:Hrest; [|done].
  cbn [mbind option_bind] in Hrun. simplify_eq.
  constructor; [done|]. by apply IH in Hrest.
Qed.

(** The family groups of one slice. *)
Lemma families_of_slice `{Sorter} (calc : IntervalCalculator) (rs : list BrokerRow) :
  contract _ -> lawful calc ->
  exists familyGroups,
    FamilyIterator.families (S (length rs)) (FamilyIterator.reset rs calc) = Some familyGroups /\
    concat familyGroups.*2 ≡ₚ rs /\
    Forall (in_one_window calc) familyGroups /\
    family_ascending familyGroups.
Proof.
  intros Hsort Hlaw. destruct (allSameFamily calc rs) eqn:Hsame.
  - rewrite (families_same calc rs Hsame). eexists. split; [reflexivity|].
    destruct rs as [|first others].
    + repeat split; constructor.
    + simpl. rewrite app_nil_r. split; [done|]. split; [|repeat constructor].
      constructor; [|constructor]. split; [done|]. cbn [fst snd].
      constructor; [apply (own_window calc Hlaw)|].
      simpl in Hsame. rewrite forallb_forall in Hsame. apply Forall_forall.
      intros row Hin. apply Contains_window. apply Hsame.
      by apply list_elem_of_In.
  - destruct (families_sorted Hsort calc Hlaw rs Hsame)
      as (familyGroups & Hrun & Hcat & Hgood & Hasc).
    exists familyGroups. rewrite Hcat. repeat split; try done. by apply sort_by_perm.
Qed.

(** The inner loop over one shard group. *)
Lemma familiesOfShard_routed `{Sorter} (calc : IntervalCalculator) (g : shardGroup) :
  contract _ -> lawful calc ->
  one_shard g ->
  familyIterator g = FamilyIterator.reset (selected g) calc ->
  exists sg,
    familiesOfShard g = Some sg /\
    sg.1 = shard g /\
    concat sg.2.*2 ≡ₚ selected g /\
    routed calc sg.
Proof.
  intros Hsort Hlaw [Hne Hids] Hitr. unfold familiesOfShard. rewrite Hitr.
  destruct (families_of_slice calc (selected g) Hsort Hlaw)
    as (familyGroups & -> & Hperm & Hwin & Hasc).
  cbn [mbind option_bind]. eexists. split; [reflexivity|]. cbn [fst snd].
  split; [done|]. split; [done|]. unfold routed. cbn [fst snd].
  split; [|split; [done|split; [done|]]].
  - intros ->. cbn in Hperm. apply Permutation_nil_l in Hperm. done.
  - apply Forall_forall. intros fg Hfg. apply Forall_forall. intros row Hrow.
    rewrite Forall_forall in Hids. apply Hids. rewrite <- Hperm.
    apply list_elem_of_In, in_concat. exists fg.2.
    split; apply list_elem_of_In; [|done].
    apply list_elem_of_fmap. by exists fg.
Qed.

(** X2.  The two loops together.  Every committed row of a batch, with its
    shard id set, comes out of the nested loops over shard groups and
    family groups once and only once; it comes out under its own shard id,
    in a family group whose window holds its timestamp; the shard ids
    ascend from group to group, and within a shard the family times do. *)
Theorem every_row_once `{Sorter} (calc : IntervalCalculator)
    (numOfShards : Z) (br : BrokerBatchRows) :
  contract _ -> lawful calc ->
  well_formed br ->
  exists itr groups nested,
    NewShardGroupIterator numOfShards br = Some itr /\
    shardGroups calc (S (Len br)) itr = Some groups /\
    mapM familiesOfShard groups = Some nested /\
    allRows nested ≡ₚ stamp numOfShards <$> take (Len br) (rows br) /\
    Forall (routed calc) nested /\
    StronglySorted (fun sg1 sg2 => sg1.1 < sg2.1) nested.
Proof.
  intros Hsort Hlaw Hwf.
  destruct (shard_groups_of_batch calc numOfShards br Hsort Hwf)
    as (itr & groups & Hitr & Hgroups & Hcat & Hone & Hasc).
  pose proof (shardGroups_family_iterators calc _ _ _ Hgroups) as Hfam.
  assert (exists nested,
            Forall2 (fun g sg => familiesOfShard g = Some sg /\ sg.1 = shard g /\
                                 concat sg.2.*2 ≡ₚ selected g /\ routed calc sg)
                    groups nested) as [nested Hnested].
  { clear Hgroups Hcat Hasc. induction groups as [|g groups IH]; [by exists []|].
    apply Forall_cons in Hone as [Hg Hone]. apply Forall_cons in Hfam as [Hgf Hfam].
    destruct (IH Hone Hfam) as [nested Hnested].
    destruct (familiesOfShard_routed calc g Hsort Hlaw Hg Hgf) as (sg & ? & ? & ? & ?).
    exists (sg :: nested). by constructor. }
  exists itr, groups, nested. split; [done|]. split; [done|].
  split; [|split; [|split]].
  - apply mapM_Some_2. eapply Forall2_impl; [exact Hnested|]. by intros g sg [? _].
  - rewrite <- (sort_by_perm _ Hsort ShardID (stamp numOfShards <$> take (Len br) (rows br))).
    rewrite <- Hcat. unfold allRows.
    clear Hcat Hasc Hgroups Hone Hfam. induction Hnested as [|g sg groups nested Hg _ IH]; [done|].
    cbn [fmap list_fmap concat]. destruct Hg as (_ & _ & Hperm & _). by rewrite Hperm, IH.
  - apply Forall_forall. intros sg Hsg.
    apply (Forall2_Forall_r _ (fun sg => routed calc sg)) in Hnested.
    + rewrite Forall_forall in Hnested. by apply Hnested.
    + apply Forall_forall. by intros g _ sg' (_ & _ & _ & ?).
  - unfold shard_ascending in Hasc. clear Hcat Hgroups Hone Hfam.
    induction Hnested as [|g sg groups nested Hg Hrest IH]; [constructor|].
    apply StronglySorted_cons in Hasc as [Hlt Hasc].
    apply StronglySorted_cons. split; [|by apply IH].
    destruct Hg as (_ & -> & _).
    clear IH Hasc.
    induction Hrest as [|g' sg' groups nested (_ & Heq & _) _ IH]; [constructor|].
    apply Forall_cons in Hlt as [? ?]. constructor; [by rewrite Heq | by apply IH].
Qed.

(** The nested loops on [threeRows] with a fourth, later row for shard 3:
    shard 3 gets two family groups. *)
Example four_rows_nested :
  match NewShardGroupIterator (H := stable) 4
          {| rows := [hashedRow 4; hashedRow 2; hashedRow 1; rowAt 7201000 2];
             rowCount := 4 |} with
  | Some itr =>
      match shardGroups (H := stable) hourly 5 itr with
      | Some groups => mapM familiesOfShard groups
      | None => None
      end
  | None => None
  end
  = Some [(0, [(0, [stamp 4 (hashedRow 1)])]);
          (1, [(0, [stamp 4 (hashedRow 4)])]);
          (3, [(0, [stamp 4 (hashedRow 2)]); (7200000, [stamp 4 (rowAt 7201000 2)])])].
Proof. vm_compute. reflexivity. Qed.

Lemma every_row_once_witness :
  contract stable /\ lawful hourly /\ well_formed threeRows /\
  exists itr groups nested,
    NewShardGroupIterator (H := stable) 4 threeRows = Some itr /\
    shardGroups (H := stable) hourly (S (Len threeRows)) itr = Some groups /\
    mapM familiesOfShard groups = Some nested /\
    allRows nested ≡ₚ stamp 4 <$> take (Len threeRows) (rows threeRows) /\
    Forall (routed hourly) nested /\
    StronglySorted (fun sg1 sg2 => sg1.1 < sg2.1) nested.
Proof.
  assert (well_formed threeRows) as Hwf by (unfold well_formed; simpl; lia).
  split; [exact SortFacts.stable_contract|]. split; [exact hourly_lawful|].
  split; [exact Hwf|].
  exact (every_row_once (H := stable) hourly 4 threeRows
           SortFacts.stable_contract hourly_lawful Hwf).
Defined.

(** X3.  A shard count of one, of zero or below zero leaves one shard:
    every row is routed to shard 0, and a batch with rows gives one shard
    group that holds them all. *)
Theorem no_shards_one_group `{Sorter} (calc : IntervalCalculator)
    (numOfShards : Z) (br : BrokerBatchRows) :
  contract _ ->
  well_formed br ->
  numOfShards <= 1 ->
  exists itr groups,
    NewShardGroupIterator numOfShards br = Some itr /\
    shardGroups calc (S (Len br)) itr = Some groups /\
    (Len br = 0%nat -> groups = []) /\
    ((0 < Len br)%nat ->
     exists g, groups = [g] /\ shard g = 0 /\
               selected g ≡ₚ stamp numOfShards <$> take (Len br) (rows br)).
Proof.
  intros Hsort Hwf HN.
  destruct (shard_groups_of_batch calc numOfShards br Hsort Hwf)
    as (itr & groups & Hitr & Hgroups & Hcat & Hone & Hasc).
  exists itr, groups. split; [done|]. split; [done|].
  set (stamped := stamp numOfShards <$> take (Len br) (rows br)) in *.
  assert (length stamped = Len br) as Hlen.
  { unfold stamped. rewrite length_fmap, length_take. unfold well_formed, Len in *. lia. }
  assert (concat (selected <$> groups) ≡ₚ stamped) as Hperm.
  { rewrite Hcat. by apply sort_by_perm. }
  assert (Forall (fun g => shard g = 0) groups) as Hzero.
  { apply Forall_forall. intros g Hg. rewrite Forall_forall in Hone.
    destruct (Hone g Hg) as [Hne Hids]. destruct (selected g) as [|row rest] eqn:Hsel; [done|].
    apply Forall_cons in Hids as [<- _].
    assert (row ∈ stamped) as Hrow.
    { rewrite <- Hperm. apply list_elem_of_In, in_concat. exists (selected g).
      split; apply list_elem_of_In; [apply list_elem_of_fmap; by exists g|].
      rewrite Hsel. by left. }
    apply list_elem_of_fmap in Hrow as (row0 & -> & _).
    cbn [stamp with_ShardID ShardID]. by apply JumpFacts.Hash_no_buckets. }
  assert (groups = [] \/ exists g, groups = [g]) as Hshape.
  { destruct groups as [|g1 [|g2 groups]]; [by left | right; by exists g1 |].
    apply StronglySorted_cons in Hasc as [Hlt _]. apply Forall_cons in Hlt as [Hlt _].
    apply Forall_cons in Hzero as [H1 Hzero]. apply Forall_cons in Hzero as [H2 _]. lia. }
  split.
  - intros Hempty. destruct Hshape as [->|[g ->]]; [done|].
    apply Forall_cons in Hone as [[Hne _] _].
    apply Permutation_length in Hperm. cbn in Hperm. rewrite app_nil_r in Hperm.
    destruct (selected g); [done|]. simpl in Hperm. lia.
  - intros Hrows. destruct Hshape as [->|[g ->]].
    + apply Permutation_length in Hperm. simpl in Hperm. lia.
    + exists g. split; [done|]. apply Forall_cons in Hzero as [Hg _]. split; [done|].
      cbn in Hperm. by rewrite app_nil_r in Hperm.
Qed.

Lemma no_shards_one_group_witness :
  contract stable /\ well_formed threeRows /\ 0 <= 1 /\
  exists itr groups,
    NewShardGroupIterator (H := stable) 0 threeRows = Some itr /\
    shardGroups (H := stable) hourly (S (Len threeRows)) itr = Some groups /\
    (Len threeRows = 0%nat -> groups = []) /\
    ((0 < Len threeRows)%nat ->
     exists g, groups = [g] /\ shard g = 0 /\
               selected g ≡ₚ stamp 0 <$> take (Len threeRows) (rows threeRows)).
Proof.
  assert (well_formed threeRows) as Hwf by (unfold well_formed; simpl; lia).
  split; [exact SortFacts.stable_contract|]. split; [exact Hwf|]. split; [lia|].
  exact (no_shards_one_group (H := stable) hourly 0 threeRows
           SortFacts.stable_contract Hwf ltac:(lia)).
Defined.

(** X4.  The shard ids are stamped afresh by every call of
    [NewShardGroupIterator]: after a call with one shard count, a call
    with another leaves the committed rows as a call with the second count
    alone would, up to their order, and the slots behind the committed
    rows are the ones the batch had. *)
Theorem shard_ids_overwritten `{Sorter} (first second : Z) (br : BrokerBatchRows) :
  contract _ ->
  well_formed br ->
  exists itr1 itr2,
    NewShardGroupIterator first br = Some itr1 /\
    NewShardGroupIterator second (batch itr1) = Some itr2 /\
    Len (batch itr2) = Len br /\
    take (Len br) (rows (batch itr2)) ≡ₚ stamp second <$> take (Len br) (rows br) /\
    drop (Len br) (rows (batch itr2)) = drop (Len br) (rows br).
Proof.
  intros Hsort Hwf. rewrite (NewShardGroupIterator_spec first br Hwf).
  set (stamped := stamp first <$> take (rowCount br) (rows br)).
  assert (length (sort_by ShardID stamped) = rowCount br) as Hlen.
  { rewrite (Permutation_length (sort_by_perm _ Hsort _ stamped)). unfold stamped.
    rewrite length_fmap, length_take. unfold well_formed in Hwf. lia. }
  eexists _, _. split; [reflexivity|]. cbn [batch].
  rewrite NewShardGroupIterator_spec
    by (unfold well_formed; cbn [rows rowCount]; rewrite length_app, Hlen; lia).
  split; [reflexivity|]. unfold Len. cbn [batch rows rowCount].
  rewrite !(take_app_length' (sort_by ShardID stamped)) by done.
  rewrite !(drop_app_length' (sort_by ShardID stamped)) by done.
  set (again := stamp second <$> sort_by ShardID stamped).
  assert (length (sort_by ShardID again) = rowCount br) as Hlen'.
  { rewrite (Permutation_length (sort_by_perm _ Hsort _ again)). unfold again.
    by rewrite length_fmap. }
  rewrite take_app_length', drop_app_length' by done.
  split; [done|]. split; [|done].
  rewrite (sort_by_perm _ Hsort ShardID again). unfold again.
  rewrite (sort_by_perm _ Hsort ShardID stamped). unfold stamped.
  rewrite <- list_fmap_compose.
  rewrite (list_fmap_ext (stamp second ∘ stamp first) (stamp second)); [done|].
  intros i row _. reflexivity.
Qed.

Lemma shard_ids_overwritten_witness :
  contract stable /\ well_formed threeRows /\
  exists itr1 itr2,
    NewShardGroupIterator (H := stable) 4 threeRows = Some itr1 /\
    NewShardGroupIterator (H := stable) 7 (batch itr1) = Some itr2 /\
    Len (batch itr2) = Len threeRows /\
    take (Len threeRows) (rows (batch itr2))
      ≡ₚ stamp 7 <$> take (Len threeRows) (rows threeRows) /\
    drop (Len threeRows) (rows (batch itr2)) = drop (Len threeRows) (rows threeRows).
Proof.
  assert (well_formed threeRows) as Hwf by (unfold well_formed; simpl; lia).
  split; [exact SortFacts.stable_contract|]. split; [exact Hwf|].
  exact (shard_ids_overwritten (H := stable) 4 7 threeRows SortFacts.stable_contract Hwf).
Defined.

End ShardFacts.

(** ** Eviction and recycled batches *)
Module BatchFacts.
Import metric FamilySpec ShardSpec BatchSpec ShardFacts.
Local Open Scope Z_scope.

Lemma evict_loop_spec (now behind ahead : Z) (n : nat) :
  forall (idx : nat) (rs : list BrokerRow) (evicted : Z),
  (idx + n <= length rs)%nat ->
  evict_loop now behind ahead n idx rs evicted
  = Some (take idx rs ++ (mark now behind ahead <$> take n (drop idx rs))
            ++ drop (idx + n) rs,
          evicted + count_out now behind ahead (take n (drop idx rs))).
Proof.
  induction n as [|n IH]; intros idx rs evicted Hlen; simpl.
  - rewrite Nat.add_0_r, take_drop. unfold count_out. simpl. do 2 f_equal. lia.
  - destruct (lookup_lt_is_Some_2 rs idx ltac:(lia)) as [row Hrow].
    rewrite Hrow. cbn [mbind option_bind].
    rewrite (drop_S rs row idx Hrow). cbn [take fmap list_fmap].
    unfold count_out. cbn [List.filter].
    destruct (outOfTimeRange now behind ahead row) eqn:Hout.
    + assert (mark now behind ahead row = with_IsOutOfTimeRange true row) as ->
        by (unfold mark; by rewrite Hout).
      rewrite IH by (rewrite length_insert; lia).
      rewrite (take_S_r (<[idx:=_]> rs) idx (with_IsOutOfTimeRange true row))
        by (rewrite list_lookup_insert_eq; [done | lia]).
      rewrite take_insert_ge by lia.
      rewrite !drop_insert_lt by lia.
      rewrite <- app_assoc. cbn [app length].
      replace (S idx + n)%nat with (idx + S n)%nat by lia.
      unfold count_out. rewrite Nat2Z.inj_succ.
      f_equal. f_equal. lia.
    + assert (mark now behind ahead row = row) as ->
        by (unfold mark; by rewrite Hout).
      rewrite IH by lia.
      rewrite (take_S_r rs idx row Hrow).
      rewrite <- app_assoc. cbn [app].
      replace (S idx + n)%nat with (idx + S n)%nat by lia.
      done.
Qed.

Lemma outOfTimeRange_spec (now behind ahead : Z) (row : BrokerRow) :
  outOfTimeRange now behind ahead row = true <->
  (0 < behind /\ ts row < wrap_int64 (now - behind))
  \/ (0 < ahead /\ wrap_int64 (now + ahead) < ts row).
Proof.
  unfold outOfTimeRange.
  rewrite orb_true_iff, !andb_true_iff, !Z.ltb_lt. done.
Qed.

(** Values of [int64] that do not overflow are not changed by the wrap. *)
Lemma wrap_int64_small (z : Z) : - 2 ^ 63 <= z < 2 ^ 63 -> wrap_int64 z = z.
Proof. intros. unfold wrap_int64. rewrite Z.mod_small; lia. Qed.


Lemma FromBlock_keeps_flag (Init : list Byte.byte -> nat -> Metric) (block : list Byte.byte)
    (row row' : BrokerRow) :
  FromBlock Init block row = Some row' ->
  IsOutOfTimeRange row' = IsOutOfTimeRange row /\ ShardID row' = ShardID row
  /\ buffer row' = block.
Proof.
  unfold FromBlock. intros Hfrom.
  destruct (GetSizePrefix block) as [size|]; [|done]. cbn [mbind option_bind] in Hfrom.
  destruct (slice block 4 (4 + size)) as [partition|]; [|done].
  cbn [mbind option_bind] in Hfrom.
  destruct (GetUOffsetT partition) as [offset|]; [|done].
  cbn [mbind option_bind] in Hfrom. by simplify_eq.
Qed.

Lemma decodeTo_keeps_flag (Init : list Byte.byte -> nat -> Metric) (block : list Byte.byte)
    (slot : BrokerRow) :
  IsOutOfTimeRange (decodeTo Init block slot).1 = IsOutOfTimeRange slot.
Proof.
  unfold decodeTo. destruct (FromBlock Init block slot) as [row|] eqn:Hfrom; [|done].
  by apply FromBlock_keeps_flag in Hfrom as [? _].
Qed.

(** [TryAppend] on a batch whose next slot exists: the slot is handed to
    the builder as it is, and no other slot changes. *)
Lemma TryAppend_reuses_slot (appendFunc : BrokerRow -> BrokerRow * option error)
    (br : BrokerBatchRows) (slot : BrokerRow) :
  rows br !! rowCount br = Some slot ->
  TryAppend appendFunc br =
  Some ({| rows := <[rowCount br := (appendFunc slot).1]> (rows br);
           rowCount := if (appendFunc slot).2 is Some _ then rowCount br else S (rowCount br) |},
        (appendFunc slot).2).
Proof.
  intros Hslot. unfold TryAppend.
  rewrite decide_False by (apply lookup_lt_Some in Hslot; lia).
  rewrite Hslot. cbn [mbind option_bind].
  by destruct (appendFunc slot) as [slot' [e|]].
Qed.

(** [TryAppend] keeps batches well formed. *)
Lemma TryAppend_well_formed (appendFunc : BrokerRow -> BrokerRow * option error)
    (br br' : BrokerBatchRows) (err : option error) :
  well_formed br -> TryAppend appendFunc br = Some (br', err) -> well_formed br'.
Proof.
  unfold well_formed, TryAppend. intros Hwf Happ.
  destruct (decide (length (rows br) <= rowCount br)%nat) as [Hfull|Hroom].
  - assert (rowCount br = length (rows br)) as Heq by lia.
    rewrite Heq in Happ.
    rewrite lookup_app_r, Nat.sub_diag in Happ by lia.
    cbn [lookup list_lookup mbind option_bind] in Happ.
    destruct (appendFunc zeroRow) as [slot' [e|]]; simplify_eq; cbn [rows rowCount];
      rewrite length_insert, length_app; simpl; lia.
  - destruct (lookup_lt_is_Some_2 (rows br) (rowCount br) ltac:(lia)) as [slot Hslot].
    rewrite Hslot in Happ. cbn [mbind option_bind] in Happ.
    destruct (appendFunc slot) as [slot' [e|]]; simplify_eq; cbn [rows rowCount];
      rewrite length_insert; lia.
Qed.

(** C10.  A batch that comes back from the pool keeps every slot: [reset]
    only sets [rowCount] to 0.  Neither [TryAppend] nor [FromBlock] clears
    [IsOutOfTimeRange].  So when the first slot of a released batch has the
    flag set and the builder does not clear it, the row appended to the
    recycled batch has the flag set: its [Size] is 0 and [WriteTo] skips
    it, also when its timestamp is in range, in which case
    [EvictOutOfTimeRange] counts nothing and leaves the batch as it is. *)
Theorem recycled_slot_keeps_flag
    (appendFunc : BrokerRow -> BrokerRow * option error)
    (br : BrokerBatchRows) (pool : Pool) (slot : BrokerRow) :
  rows br !! 0%nat = Some slot ->
  IsOutOfTimeRange slot = true ->
  (forall s, IsOutOfTimeRange (appendFunc s).1 = IsOutOfTimeRange s) ->
  (appendFunc slot).2 = None ->
  NewBrokerBatchRows (Release br pool) = ({| rows := rows br; rowCount := 0 |}, pool) /\
  reset br = {| rows := rows br; rowCount := 0 |} /\
  (forall Init block row row', FromBlock Init block row = Some row' ->
     IsOutOfTimeRange row' = IsOutOfTimeRange row) /\
  exists batch,
    TryAppend appendFunc (NewBrokerBatchRows (Release br pool)).1 = Some (batch, None) /\
    Rows batch = Some [(appendFunc slot).1] /\
    drop 1 (rows batch) = drop 1 (rows br) /\
    Size (appendFunc slot).1 = 0%nat /\
    (forall (W : Type) (writer_W : Writer W) (writer : W),
       WriteTo writer (appendFunc slot).1 = (writer, (0%nat, None))) /\
    (forall now behind ahead,
       outOfTimeRange now behind ahead (appendFunc slot).1 = false ->
       EvictOutOfTimeRange now behind ahead batch = Some (batch, 0)).
Proof.
  intros Hslot Hflag Hkeeps Hok.
  assert (IsOutOfTimeRange (appendFunc slot).1 = true) as Hflag'
    by (by rewrite Hkeeps).
  split; [done|]. split; [done|].
  split; [intros Init block row row' Hfrom; by apply FromBlock_keeps_flag in Hfrom as [? _]|].
  unfold NewBrokerBatchRows, Release, Pool_Get, reset. cbn [fst].
  rewrite (TryAppend_reuses_slot appendFunc _ slot) by done.
  cbn [rows rowCount]. rewrite Hok.
  eexists. split; [reflexivity|].
  destruct (rows br) as [|slot0 others] eqn:Hrows; [done|].
  cbn in Hslot. simplify_eq.
  split; [done|]. split; [done|].
  split; [unfold Size; by rewrite Hflag'|].
  split; [intros W writer_W writer; unfold WriteTo; by rewrite Hflag'|].
  intros now behind ahead Hin.
  unfold EvictOutOfTimeRange, Len. cbn [rows rowCount evict_loop].
  cbn [insert list_insert lookup list_lookup mbind option_bind].
  by rewrite Hin.
Qed.

Lemma recycled_slot_keeps_flag_witness :
  NewBrokerBatchRows (Release evictedBatch [])
    = ({| rows := rows evictedBatch; rowCount := 0 |}, []) /\
  reset evictedBatch = {| rows := rows evictedBatch; rowCount := 0 |} /\
  (forall Init block row row', FromBlock Init block row = Some row' ->
     IsOutOfTimeRange row' = IsOutOfTimeRange row) /\
  exists batch,
    TryAppend (decodeTo sampleInit sampleBlock)
      (NewBrokerBatchRows (Release evictedBatch [])).1 = Some (batch, None) /\
    Rows batch
      = Some [(decodeTo sampleInit sampleBlock
                 (with_IsOutOfTimeRange true (hashedRow 1))).1] /\
    drop 1 (rows batch) = drop 1 (rows evictedBatch) /\
    Size (decodeTo sampleInit sampleBlock
            (with_IsOutOfTimeRange true (hashedRow 1))).1 = 0%nat /\
    (forall (W : Type) (writer_W : Writer W) (writer : W),
       WriteTo writer (decodeTo sampleInit sampleBlock
                         (with_IsOutOfTimeRange true (hashedRow 1))).1
         = (writer, (0%nat, None))) /\
    (forall now behind ahead,
       outOfTimeRange now behind ahead
         (decodeTo sampleInit sampleBlock
            (with_IsOutOfTimeRange true (hashedRow 1))).1 = false ->
       EvictOutOfTimeRange now behind ahead batch = Some (batch, 0)).
Proof.
  apply (recycled_slot_keeps_flag (decodeTo sampleInit sampleBlock) evictedBatch []
           (with_IsOutOfTimeRange true (hashedRow 1))).
  - reflexivity.
  - reflexivity.
  - intros s. apply decodeTo_keeps_flag.
  - reflexivity.
Defined.

(** The recycled slot, end to end: the row read from [sampleBlock] has the
    timestamp 1000, which is in range at [now = 1000], and yet its size is 0. *)
Example recycled_row_is_skipped :
  let batch := (NewBrokerBatchRows (Release evictedBatch [])).1 in
  (fun r => (Len r.1, (fun row => (ts row, IsOutOfTimeRange row, length (buffer row), Size row))
                        <$> rows r.1))
    <$> TryAppend (decodeTo sampleInit sampleBlock) batch
  = Some (1%nat, [(1000, true, 8%nat, 0%nat)])
  /\ outOfTimeRange 1000 10 10 (decodeTo sampleInit sampleBlock
                                  (with_IsOutOfTimeRange true (hashedRow 1))).1 = false.
Proof. vm_compute. done. Qed.

(** Rows at both ends of the window: with [now = 100] and ten milliseconds
    on either side, the rows at 50 and at 150 are marked and counted. *)
Example evict_both_ends :
  (fun r => (r.2, IsOutOfTimeRange <$> rows r.1, Len r.1))
    <$> EvictOutOfTimeRange 100 10 10 sampleBatch
  = Some (2, [true; false; true; false], 3%nat).
Proof. vm_compute. reflexivity. Qed.


(** *** Decoding and writing back *)


Lemma GetUOffsetT_None (buf : list Byte.byte) :
  (length buf < 4)%nat -> GetUOffsetT buf = None.
Proof.
  intros Hlen. destruct buf as [|b0 [|b1 [|b2 [|b3 buf]]]]; simpl in Hlen; try done. lia.
Qed.

(** A block whose size prefix announces a partition of fewer than four
    bytes makes [FromBlock] panic, as does a block without a size prefix. *)
Lemma FromBlock_short_partition (Init : list Byte.byte -> nat -> Metric)
    (block : list Byte.byte) (slot : BrokerRow) :
  match GetSizePrefix block with
  | Some size => (size < 4)%nat
  | None => True
  end ->
  FromBlock Init block slot = None.
Proof.
  unfold FromBlock. destruct (GetSizePrefix block) as [size|]; [|done].
  intros Hsize. cbn [mbind option_bind].
  destruct (slice block 4 (4 + size)) as [partition|] eqn:Hslice; [|done].
  cbn [mbind option_bind]. rewrite GetUOffsetT_None; [done|].
  unfold slice in Hslice. destruct (decide _); [|done]. simplify_eq.
  rewrite length_take. lia.
Qed.



(** *** [TryAppend] *)

(** X6.  On a well-formed batch [TryAppend] does not panic.  The builder
    gets the slot behind the committed rows, or a zero row when there is
    none.  If the builder succeeds the row is committed behind the others;
    if it fails nothing is committed, and the committed rows are as
    before. *)
Theorem TryAppend_commits (appendFunc : BrokerRow -> BrokerRow * option error)
    (br : BrokerBatchRows) :
  well_formed br ->
  let slot := default zeroRow (rows br !! rowCount br) in
  exists br',
    TryAppend appendFunc br = Some (br', (appendFunc slot).2) /\
    well_formed br' /\
    match (appendFunc slot).2 with
    | None =>
        Len br' = S (Len br) /\
        Rows br' = Some (take (Len br) (rows br) ++ [(appendFunc slot).1])
    | Some _ =>
        Len br' = Len br /\ Rows br' = Rows br
    end.
Proof.
  intros Hwf slot. subst slot. unfold TryAppend, well_formed, Len, Rows, slice in *.
  destruct br as [rs n]. cbn [rows rowCount] in *.
  destruct (decide (length rs <= n)%nat) as [Hfull|Hroom].
  - assert (n = length rs) as -> by lia.
    rewrite (lookup_ge_None_2 rs (length rs)) by lia.
    change (default zeroRow None) with zeroRow.
    rewrite lookup_app_r, Nat.sub_diag by lia.
    cbn [lookup list_lookup mbind option_bind].
    destruct (appendFunc zeroRow) as [slot' [e|]]; cbn [fst snd];
      rewrite insert_app_r_alt, Nat.sub_diag by lia; cbn [insert list_insert];
      eexists; (split; [reflexivity|]); cbn [rows rowCount];
      (split; [rewrite length_app; simpl; lia|]); (split; [done|]).
    + rewrite !decide_True by (rewrite ?length_app; simpl; lia).
      rewrite !Nat.sub_0_r, !drop_0. f_equal. by rewrite take_app_length, firstn_all.
    + rewrite !decide_True by (rewrite ?length_app; simpl; lia).
      rewrite !Nat.sub_0_r, !drop_0. f_equal. rewrite firstn_all.
      apply take_ge. rewrite length_app. simpl. lia.
  - destruct (lookup_lt_is_Some_2 rs n ltac:(lia)) as [old Hold].
    rewrite Hold. change (default zeroRow (Some old)) with old.
    cbn [mbind option_bind].
    destruct (appendFunc old) as [slot' [e|]]; cbn [fst snd];
      eexists; (split; [reflexivity|]); cbn [rows rowCount];
      (split; [rewrite length_insert; lia|]); (split; [done|]).
    + rewrite !decide_True by (rewrite ?length_insert; lia).
      rewrite !Nat.sub_0_r, !drop_0. f_equal. by rewrite take_insert_ge by lia.
    + rewrite !decide_True by (rewrite ?length_insert; lia).
      rewrite !Nat.sub_0_r, !drop_0. f_equal.
      rewrite (take_S_r _ _ slot') by (rewrite list_lookup_insert_eq; [done | lia]).
      by rewrite take_insert_ge by lia.
Qed.

Lemma TryAppend_commits_witness :
  well_formed sampleBatch /\
  let slot := default zeroRow (rows sampleBatch !! rowCount sampleBatch) in
  exists br',
    TryAppend (decodeTo sampleInit sampleBlock) sampleBatch
      = Some (br', (decodeTo sampleInit sampleBlock slot).2) /\
    well_formed br' /\
    match (decodeTo sampleInit sampleBlock slot).2 with
    | None =>
        Len br' = S (Len sampleBatch) /\
        Rows br' = Some (take (Len sampleBatch) (rows sampleBatch)
                           ++ [(decodeTo sampleInit sampleBlock slot).1])
    | Some _ =>
        Len br' = Len sampleBatch /\ Rows br' = Rows sampleBatch
    end.
Proof.
  split; [unfold well_formed; simpl; lia|].
  apply (TryAppend_commits (decodeTo sampleInit sampleBlock) sampleBatch).
  unfold well_formed; simpl; lia.
Defined.

(** *** [EvictOutOfTimeRange] once more *)

Lemma EvictOutOfTimeRange_spec (now behind ahead : Z) (br : BrokerBatchRows) :
  well_formed br ->
  EvictOutOfTimeRange now behind ahead br
  = Some ({| rows := (mark now behind ahead <$> take (Len br) (rows br))
                       ++ drop (Len br) (rows br);
             rowCount := rowCount br |},
          count_out now behind ahead (take (Len br) (rows br))).
Proof.
  intros Hwf. unfold EvictOutOfTimeRange.
  rewrite evict_loop_spec by (unfold well_formed, Len in *; lia).
  cbn [mbind option_bind]. by rewrite take_0, drop_0, Nat.add_0_l, app_nil_l, Z.add_0_l.
Qed.

(** The test looks at the timestamp only, which marking does not change. *)
Lemma outOfTimeRange_mark (now behind ahead now' behind' ahead' : Z) (row : BrokerRow) :
  outOfTimeRange now behind ahead (mark now' behind' ahead' row)
  = outOfTimeRange now behind ahead row.
Proof. unfold mark. by destruct (outOfTimeRange now' behind' ahead' row). Qed.

Lemma mark_mark (now behind ahead : Z) (row : BrokerRow) :
  mark now behind ahead (mark now behind ahead row) = mark now behind ahead row.
Proof.
  unfold mark at 1. rewrite outOfTimeRange_mark. unfold mark.
  by destruct (outOfTimeRange now behind ahead row).
Qed.

Lemma count_out_mark (now behind ahead : Z) (rs : list BrokerRow) :
  count_out now behind ahead (mark now behind ahead <$> rs) = count_out now behind ahead rs.
Proof.
  unfold count_out. f_equal. induction rs as [|row rs IH]; [done|].
  cbn [fmap list_fmap List.filter]. rewrite outOfTimeRange_mark.
  destruct (outOfTimeRange now behind ahead row); simpl; by rewrite <- IH.
Qed.

(** X7.  With both sides of the window switched off ([behind] and [ahead]
    zero or below) no row is tested: nothing is counted and the batch is
    left as it is, the flags set by an earlier call included. *)
Theorem evict_disabled (now behind ahead : Z) (br : BrokerBatchRows) :
  well_formed br -> behind <= 0 -> ahead <= 0 ->
  EvictOutOfTimeRange now behind ahead br = Some (br, 0).
Proof.
  intros Hwf Hb Ha. rewrite EvictOutOfTimeRange_spec by done.
  assert (forall row, outOfTimeRange now behind ahead row = false) as Hin.
  { intros row. unfold outOfTimeRange.
    destruct (0 <? behind) eqn:E1; [apply Z.ltb_lt in E1; lia|].
    destruct (0 <? ahead) eqn:E2; [apply Z.ltb_lt in E2; lia|]. done. }
  assert (forall rs : list BrokerRow, mark now behind ahead <$> rs = rs) as Hid.
  { intros rs. induction rs as [|row rs IH]; [done|].
    cbn [fmap list_fmap]. unfold mark at 1. rewrite Hin. by f_equal. }
  assert (forall rs, count_out now behind ahead rs = 0) as Hzero.
  { intros rs. unfold count_out. induction rs as [|row rs IH]; [done|].
    cbn [List.filter]. by rewrite Hin. }
  rewrite Hid, Hzero, take_drop. by destruct br.
Qed.

Lemma evict_disabled_witness :
  well_formed evictedBatch /\ 0 <= 0 /\ -1 <= 0 /\
  EvictOutOfTimeRange 1000 0 (-1) evictedBatch = Some (evictedBatch, 0).
Proof.
  split; [unfold well_formed; simpl; lia|]. split; [lia|]. split; [lia|].
  apply (evict_disabled 1000 0 (-1) evictedBatch); [unfold well_formed; simpl; lia | lia | lia].
Defined.

(** X8.  [EvictOutOfTimeRange] counts the rows that fail its test, whether
    or not they were flagged before: called again with the same clock and
    window it leaves the batch as the first call left it and returns the
    same number once more. *)
Theorem evict_again (now behind ahead : Z) (br : BrokerBatchRows) :
  well_formed br ->
  exists br' evicted,
    EvictOutOfTimeRange now behind ahead br = Some (br', evicted) /\
    well_formed br' /\
    EvictOutOfTimeRange now behind ahead br' = Some (br', evicted).
Proof.
  intros Hwf. rewrite EvictOutOfTimeRange_spec by done.
  eexists _, _. split; [reflexivity|].
  assert (length (mark now behind ahead <$> take (Len br) (rows br)) = Len br) as Hlen.
  { rewrite length_fmap, length_take. unfold well_formed, Len in *. lia. }
  assert (well_formed
            {| rows := (mark now behind ahead <$> take (Len br) (rows br))
                         ++ drop (Len br) (rows br);
               rowCount := rowCount br |}) as Hwf'.
  { unfold well_formed. cbn [rows rowCount]. rewrite length_app, Hlen. unfold Len. lia. }
  split; [done|].
  rewrite EvictOutOfTimeRange_spec by done. unfold Len in *. cbn [rows rowCount].
  rewrite take_app_length', drop_app_length' by done.
  rewrite count_out_mark. do 3 f_equal.
  rewrite <- list_fmap_compose. f_equal.
  apply list_fmap_ext. intros i row _. apply mark_mark.
Qed.

Lemma evict_again_witness :
  well_formed sampleBatch /\
  exists br' evicted,
    EvictOutOfTimeRange 100 10 10 sampleBatch = Some (br', evicted) /\
    well_formed br' /\
    EvictOutOfTimeRange 100 10 10 br' = Some (br', evicted).
Proof.
  split; [unfold well_formed; simpl; lia|].
  apply (evict_again 100 10 10 sampleBatch). unfold well_formed; simpl; lia.
Defined.

(** X9.  [now + ahead] is an [int64] sum.  When it overflows it wraps
    around to a negative bound, and then every committed row with a
    timestamp of zero or more is flagged and counted, though none of them
    lies ahead of the window. *)
Theorem evict_ahead_overflow (now behind ahead : Z) (br : BrokerBatchRows) :
  well_formed br ->
  0 <= now < 2 ^ 63 -> 0 < ahead < 2 ^ 63 -> 2 ^ 63 <= now + ahead ->
  Forall (fun row => 0 <= ts row) (take (Len br) (rows br)) ->
  exists br',
    EvictOutOfTimeRange now behind ahead br = Some (br', Z.of_nat (Len br)) /\
    Forall (fun row => IsOutOfTimeRange row = true /\ Size row = 0%nat)
           (take (Len br) (rows br')).
Proof.
  intros Hwf Hnow Hahead Hover Hts. rewrite EvictOutOfTimeRange_spec by done.
  eexists. cbn [rows].
  assert (length (take (Len br) (rows br)) = Len br) as Hlen.
  { rewrite length_take. unfold well_formed, Len in *. lia. }
  assert (wrap_int64 (now + ahead) = now + ahead - 2 ^ 64) as Hwrap.
  { unfold wrap_int64.
    replace (now + ahead + 2 ^ 63) with (now + ahead - 2 ^ 63 + 1 * 2 ^ 64) by lia.
    rewrite Z.mod_add by lia. rewrite Z.mod_small by lia. lia. }
  assert (Forall (fun row => outOfTimeRange now behind ahead row = true)
                 (take (Len br) (rows br))) as Hout.
  { eapply Forall_impl; [exact Hts|]. intros row Hrow. cbn beta in Hrow.
    apply outOfTimeRange_spec. right. rewrite Hwrap. lia. }
  split.
  - do 2 f_equal. unfold count_out. rewrite <- Hlen at 2. do 2 f_equal.
    clear Hlen Hts. induction Hout as [|row rs Hrow _ IH]; [done|].
    cbn [List.filter]. rewrite Hrow. by f_equal.
  - cbn [rows]. rewrite take_app_length' by (by rewrite length_fmap).
    apply Forall_fmap. eapply Forall_impl; [exact Hout|].
    intros row Hrow. cbn beta in *. unfold compose, mark. rewrite Hrow.
    by unfold Size.
Qed.

Lemma evict_ahead_overflow_witness :
  well_formed sampleBatch /\
  0 <= 2 ^ 62 < 2 ^ 63 /\ 0 < 2 ^ 62 < 2 ^ 63 /\ 2 ^ 63 <= 2 ^ 62 + 2 ^ 62 /\
  Forall (fun row => 0 <= ts row) (take (Len sampleBatch) (rows sampleBatch)) /\
  exists br',
    EvictOutOfTimeRange (2 ^ 62) 0 (2 ^ 62) sampleBatch
      = Some (br', Z.of_nat (Len sampleBatch)) /\
    Forall (fun row => IsOutOfTimeRange row = true /\ Size row = 0%nat)
           (take (Len sampleBatch) (rows br')).
Proof.
  assert (well_formed sampleBatch) as Hwf by (unfold well_formed; simpl; lia).
  assert (Forall (fun row => 0 <= ts row) (take (Len sampleBatch) (rows sampleBatch)))
    as Hts by (repeat constructor; simpl; lia).
  split; [exact Hwf|]. split; [lia|]. split; [lia|]. split; [lia|]. split; [exact Hts|].
  apply (evict_ahead_overflow (2 ^ 62) 0 (2 ^ 62) sampleBatch); [exact Hwf|lia|lia|lia|exact Hts].
Defined.

End BatchFacts.

(** ** [GetOrCreateFamilyChannel] under concurrent callers *)
Module ChannelFacts.
Import replica ChannelSpec.
Local Open Scope Z_scope.

Lemma newChannel_coherent : coherent newChannel.
Proof.
  split; unfold newChannel; cbn [families created].
  - intros ft fc Hft. by rewrite lookup_empty in Hft.
  - intros fc Hfc. by apply not_elem_of_nil in Hfc.
  - constructor.
Qed.

Lemma invariant_start (c : channel) (calls : list Z) :
  coherent c -> mutex c = None -> invariant calls (start c calls).
Proof.
  intros Hc Hm. split; simpl; try done.
  - intros g p Hg. apply list_lookup_fmap_Some in Hg as (ft & -> & Hft). done.
  - intros g p Hg Hcrit. apply list_lookup_fmap_Some in Hg as (ft & -> & Hft). done.
  - intros g Hg. congruence.
  - intros g ft Hg. apply list_lookup_fmap_Some in Hg as (ft' & ? & _). done.
  - intros g fc Hg. apply list_lookup_fmap_Some in Hg as (ft' & ? & _). done.
  - intros g ft fc Hg. apply list_lookup_fmap_Some in Hg as (ft' & ? & _). done.
Qed.

(** Looking up goroutine [g'] after goroutine [g] has moved to [p]. *)
(** A goroutine other than the one that moved is where it was. *)
Lemma lookup_other (gs : list pc) (g h : nat) (p q : pc) :
  gs !! h = Some q -> h <> g -> <[g := p]> gs !! h = Some q.
Proof. intros Hh Hne. by rewrite list_lookup_insert_ne. Qed.

(** The goroutine that moved is where it moved to. *)
Lemma lookup_self (gs : list pc) (g : nat) (p q : pc) :
  gs !! g = Some q -> <[g := p]> gs !! g = Some p.
Proof. intros Hg. apply list_lookup_insert_eq. by apply lookup_lt_Some in Hg. Qed.

Lemma lookup_moved (gs : list pc) (g g' : nat) (p p' : pc) :
  <[g := p]> gs !! g' = Some p' ->
  (g' = g /\ p' = p) \/ (g' <> g /\ gs !! g' = Some p').
Proof.
  intros Hl. destruct (decide (g' = g)) as [->|Hne].
  - left. split; [done|].
    destruct (decide (g < length gs)%nat).
    + rewrite list_lookup_insert_eq in Hl by done. congruence.
    + rewrite list_insert_ge in Hl by lia. apply lookup_lt_Some in Hl. lia.
  - right. split; [done|]. by rewrite list_lookup_insert_ne in Hl.
Qed.

Lemma createFamilyChannel_coherent (ft : Z) (c : channel) :
  coherent c -> families c !! ft = None -> coherent (createFamilyChannel ft c).2.
Proof.
  intros [Hkey Hmap Honce] Hnone. split; simpl; unfold InsertFamily.
  - intros ft' fc Hl. destruct (decide (ft' = ft)) as [->|Hne].
    + rewrite lookup_insert_eq in Hl. by simplify_eq.
    + rewrite lookup_insert_ne in Hl by done. by apply Hkey.
  - intros fc Hfc. apply elem_of_cons in Hfc as [->|Hfc]; simpl.
    + by rewrite lookup_insert_eq.
    + destruct (decide (familyTime fc = ft)) as [E|Hne].
      * apply Hmap in Hfc. rewrite E in Hfc. congruence.
      * rewrite lookup_insert_ne by done. by apply Hmap.
  - apply NoDup_cons. split; [|done].
    intros Hin. apply list_elem_of_fmap in Hin as (fc & E & Hfc).
    apply Hmap in Hfc. rewrite <- E in Hfc. congruence.
Qed.

Lemma coherent_set_mutex (holder : option nat) (c : channel) :
  coherent c -> coherent (set_mutex holder c).
Proof. intros [? ? ?]. by split. Qed.

Ltac moved H :=
  apply lookup_moved in H as [[-> ?]|[? H]]; simplify_eq;
  cbn [call_of in_critical_section familyTime] in *.

(** The holder of the mutex is in the critical section, after a step of
    goroutine [g]: the mutex was released; or [g] took it or kept it; or
    another goroutine holds it and did not move. *)
Ltac solve_holder :=
  match goal with
  | Hh : None = Some _ |- _ => discriminate Hh
  | Hh : Some ?g = Some _, Hg : goroutines _ !! ?g = Some _ |- _ =>
      injection Hh as <-; eexists; split; [eapply lookup_self; exact Hg | exact I]
  | Hh : mutex _ = Some _, Hheld : mutex _ = Some ?g, Hg : goroutines _ !! ?g = Some _ |- _ =>
      rewrite Hheld in Hh; injection Hh as <-;
      eexists; split; [eapply lookup_self; exact Hg | exact I]
  | Hh : mutex _ = Some ?h, Hholder : forall g, mutex _ = Some g -> _,
    Hg : goroutines _ !! _ = Some _ |- _ =>
      let q := fresh "q" in let Hq := fresh "Hq" in let Hcq := fresh "Hcq" in
      destruct (Hholder h Hh) as (q & Hq & Hcq); exists q; split; [|done];
      apply lookup_other; [done|]; intros ->; rewrite Hg in Hq; by simplify_eq
  end.

Ltac by_cases :=
  split; cbn [shared goroutines set_mutex families mutex created];
  [ try done; try by apply coherent_set_mutex
  | intros g' p' Hg'; moved Hg'
  | intros g' p' Hg' Hcrit; moved Hg'
  | intros h Hh; solve_holder
  | intros g' ft' Hg'; moved Hg'
  | intros g' fc' Hg'; moved Hg'
  | intros g' ft' fc' Hg'; moved Hg' ];
  eauto.

Section Steps.
Context (calls : list Z) (g : nat) (s : system).
Hypothesis Hinv : invariant calls s.

(** At most one goroutine is in the critical section. *)
Lemma critical_unique (p : pc) (g' : nat) (p' : pc) :
  goroutines s !! g = Some p -> in_critical_section p ->
  goroutines s !! g' = Some p' -> in_critical_section p' -> g' = g.
Proof.
  intros Hg Hp Hg' Hp'.
  pose proof (inv_mutex _ _ Hinv g p Hg Hp).
  pose proof (inv_mutex _ _ Hinv g' p' Hg' Hp'). congruence.
Qed.

(** The lock-free read. *)
Lemma step_Enter (ft : Z) (s' : system) :
  goroutines s !! g = Some (Enter ft) -> step g s = Some s' -> invariant calls s'.
Proof.
  destruct Hinv as [Hc Hcalls Hmutex Hholder Hcreate Hunlock Hret]. intros Hg Hstep.
  unfold step in Hstep. rewrite Hg in Hstep. cbn [mbind option_bind] in Hstep.
  pose proof (Hcalls g _ Hg) as Hcall. cbn [call_of] in Hcall.
  unfold GetFamilyChannel in Hstep.
  destruct (families (shared s) !! ft) as [fc|] eqn:Hft; simplify_eq; by_cases.
Qed.

(** [c.mutex.Lock()] *)
Lemma step_AtLock (ft : Z) (s' : system) :
  goroutines s !! g = Some (AtLock ft) -> step g s = Some s' -> invariant calls s'.
Proof.
  destruct Hinv as [Hc Hcalls Hmutex Hholder Hcreate Hunlock Hret]. intros Hg Hstep.
  unfold step in Hstep. rewrite Hg in Hstep. cbn [mbind option_bind] in Hstep.
  pose proof (Hcalls g _ Hg) as Hcall. cbn [call_of] in Hcall.
  destruct (mutex (shared s)) as [holder|] eqn:Hm; simplify_eq; by_cases.
  by pose proof (Hmutex _ _ Hg' Hcrit).
Qed.

(** The second read, under the mutex. *)
Lemma step_DoubleCheck (ft : Z) (s' : system) :
  goroutines s !! g = Some (DoubleCheck ft) -> step g s = Some s' -> invariant calls s'.
Proof.
  destruct Hinv as [Hc Hcalls Hmutex Hholder Hcreate Hunlock Hret]. intros Hg Hstep.
  unfold step in Hstep. rewrite Hg in Hstep. cbn [mbind option_bind] in Hstep.
  pose proof (Hcalls g _ Hg) as Hcall. cbn [call_of] in Hcall.
  pose proof (Hmutex g _ Hg I) as Hheld.
  unfold GetFamilyChannel in Hstep.
  destruct (families (shared s) !! ft) as [fc|] eqn:Hft; simplify_eq; by_cases.
  - by rewrite (map_keyed _ Hc _ _ Hft).
  - by rewrite (map_keyed _ Hc _ _ Hft).
Qed.

(** [newFamilyChannel] and [InsertFamily]. *)
Lemma step_Create (ft : Z) (s' : system) :
  goroutines s !! g = Some (Create ft) -> step g s = Some s' -> invariant calls s'.
Proof.
  pose proof (critical_unique (Create ft)) as Hunique.
  destruct Hinv as [Hc Hcalls Hmutex Hholder Hcreate Hunlock Hret]. intros Hg Hstep.
  unfold step in Hstep. rewrite Hg in Hstep. cbn [mbind option_bind] in Hstep.
  pose proof (Hcalls g _ Hg) as Hcall. cbn [call_of] in Hcall.
  pose proof (Hmutex g _ Hg I) as Hheld.
  pose proof (Hcreate g ft Hg) as Hnone.
  pose proof (createFamilyChannel_coherent ft (shared s) Hc Hnone) as Hc'.
  destruct (createFamilyChannel ft (shared s)) as [fc c] eqn:Hnew.
  unfold createFamilyChannel in Hnew. simplify_eq.
  split; cbn [shared goroutines families mutex created snd] in *.
  - done.
  - intros g' p' Hg'. moved Hg'; eauto.
  - intros g' p' Hg' Hcrit. moved Hg'; eauto.
  - intros h Hh. solve_holder.
  - intros g' ft' Hg'. moved Hg'.
    by pose proof (Hunique g' (Create ft') Hg I Hg' I).
  - intros g' fc' Hg'. moved Hg'.
    + unfold InsertFamily. by rewrite lookup_insert_eq.
    + by pose proof (Hunique g' (Unlock fc') Hg I Hg' I).
  - intros g' ft' fc' Hg'. moved Hg'.
    apply Hret in Hg'. destruct (decide (ft' = ft)) as [->|Hft]; [congruence|].
    unfold InsertFamily. by rewrite lookup_insert_ne.
Qed.

(** The deferred [Unlock]. *)
Lemma step_Unlock (fc : FamilyChannel) (s' : system) :
  goroutines s !! g = Some (Unlock fc) -> step g s = Some s' -> invariant calls s'.
Proof.
  pose proof (critical_unique (Unlock fc)) as Hunique.
  destruct Hinv as [Hc Hcalls Hmutex Hholder Hcreate Hunlock Hret]. intros Hg Hstep.
  unfold step in Hstep. rewrite Hg in Hstep. cbn [mbind option_bind] in Hstep.
  pose proof (Hcalls g _ Hg) as Hcall. cbn [call_of] in Hcall.
  simplify_eq. by_cases; [done|].
  by pose proof (Hunique g' p' Hg I Hg' Hcrit).
Qed.

End Steps.

(** Every step keeps the invariant. *)
Lemma invariant_step (calls : list Z) (g : nat) (s s' : system) :
  invariant calls s -> step g s = Some s' -> invariant calls s'.
Proof.
  intros Hinv Hstep.
  destruct (goroutines s !! g) as [p|] eqn:Hg.
  - destruct p as [ft|ft|ft|ft|fc|ft fc].
    + by apply (step_Enter calls g s Hinv ft).
    + by apply (step_AtLock calls g s Hinv ft).
    + by apply (step_DoubleCheck calls g s Hinv ft).
    + by apply (step_Create calls g s Hinv ft).
    + by apply (step_Unlock calls g s Hinv fc).
    + unfold step in Hstep. by rewrite Hg in Hstep.
  - unfold step in Hstep. by rewrite Hg in Hstep.
Qed.

Lemma invariant_run (calls : list Z) (schedule : list nat) : forall s,
  invariant calls s -> invariant calls (run schedule s).
Proof.
  induction schedule as [|g schedule IH]; intros s Hinv; simpl; [done|].
  apply IH. destruct (step g s) as [s'|] eqn:Hstep; simpl; [|done].
  by apply (invariant_step calls g s).
Qed.

(** A goroutine in the critical section can always take its next step. *)
Lemma step_critical (h : nat) (q : pc) (s : system) :
  goroutines s !! h = Some q -> in_critical_section q -> exists s', step h s = Some s'.
Proof.
  intros Hh Hq. unfold step. rewrite Hh. cbn [mbind option_bind].
  destruct q as [ft|ft|ft|ft|fc|ft fc]; try done.
  - destruct (GetFamilyChannel _ _); eauto.
  - destruct (createFamilyChannel _ _). eauto.
  - eauto.
Qed.

(** No deadlock: while a call is under way some goroutine can move; a
    goroutine that waits for the mutex waits for one that can. *)
Lemma some_goroutine_moves (calls : list Z) (s : system) (g : nat) (p : pc) :
  invariant calls s -> goroutines s !! g = Some p -> ~ has_returned p ->
  exists g' s', step g' s = Some s'.
Proof.
  intros Hinv Hg Hp. destruct p as [ft|ft|ft|ft|fc|ft fc]; try done.
  - exists g. unfold step. rewrite Hg. cbn [mbind option_bind].
    destruct (GetFamilyChannel _ _); eauto.
  - destruct (mutex (shared s)) as [h|] eqn:Hm.
    + destruct (inv_holder _ _ Hinv h Hm) as (q & Hh & Hq).
      exists h. by apply (step_critical h q).
    + exists g. unfold step. rewrite Hg. cbn [mbind option_bind]. rewrite Hm. eauto.
  - exists g. by apply (step_critical g (DoubleCheck ft)).
  - exists g. by apply (step_critical g (Create ft)).
  - exists g. by apply (step_critical g (Unlock fc)).
Qed.

(** One call after another: the second call for a family time returns what
    the first returned and changes nothing. *)
Lemma GetOrCreateFamilyChannel_again (ft : Z) (c : channel) :
  let '(fc, c') := GetOrCreateFamilyChannel ft c in
  GetOrCreateFamilyChannel ft c' = (fc, c').
Proof.
  unfold GetOrCreateFamilyChannel, GetFamilyChannel.
  destruct (families c !! ft) as [fc|] eqn:Hft; simpl.
  - by rewrite Hft.
  - unfold InsertFamily. by rewrite lookup_insert_eq.
Qed.

Lemma run_step (g : nat) (schedule : list nat) (s s' : system) :
  step g s = Some s' -> run (g :: schedule) s = run schedule s'.
Proof. intros Hstep. cbn [run]. by rewrite Hstep. Qed.

Lemma run_stuck (g : nat) (schedule : list nat) (s : system) :
  step g s = None -> run (g :: schedule) s = run schedule s.
Proof. intros Hstep. cbn [run]. by rewrite Hstep. Qed.

(** One step of the only goroutine of a system. *)
Ltac only_goroutine :=
  unfold step;
  cbn [goroutines shared families mutex lookup list_lookup mbind option_bind];
  unfold GetFamilyChannel;
  repeat match goal with H : _ !! _ = _ |- _ => rewrite H end;
  reflexivity.

(** A goroutine that runs alone goes through the steps of the function. *)
Lemma alone_is_sequential (ft : Z) (c : channel) :
  mutex c = None ->
  let '(fc, c') := GetOrCreateFamilyChannel ft c in
  run [0; 0; 0; 0; 0]%nat (start c [ft])
  = {| shared := c'; goroutines := [Returned ft fc] |}.
Proof.
  intros Hm. unfold GetOrCreateFamilyChannel, GetFamilyChannel.
  destruct c as [fam mu al cr]. cbn [mutex families] in *. subst mu.
  unfold start. cbn [fmap list_fmap].
  destruct (fam !! ft) as [fc|] eqn:Hft.
  - rewrite (run_step _ _ _ {| shared := {| families := fam; mutex := None;
                                            allocated := al; created := cr |};
                               goroutines := [Returned ft fc] |})
      by only_goroutine.
    by rewrite !run_stuck by only_goroutine.
  - rewrite (run_step _ _ _ {| shared := {| families := fam; mutex := None;
                                            allocated := al; created := cr |};
                               goroutines := [AtLock ft] |})
      by only_goroutine.
    rewrite (run_step _ _ _ {| shared := {| families := fam; mutex := Some 0%nat;
                                            allocated := al; created := cr |};
                               goroutines := [DoubleCheck ft] |})
      by only_goroutine.
    rewrite (run_step _ _ _ {| shared := {| families := fam; mutex := Some 0%nat;
                                            allocated := al; created := cr |};
                               goroutines := [Create ft] |})
      by only_goroutine.
    rewrite (run_step _ _ _
               {| shared := {| families :=
                                 InsertFamily ft {| channelID := al; familyTime := ft |} fam;
                               mutex := Some 0%nat; allocated := S al;
                               created := {| channelID := al; familyTime := ft |} :: cr |};
                  goroutines := [Unlock {| channelID := al; familyTime := ft |}] |})
      by only_goroutine.
    rewrite (run_step _ _ _
               {| shared := {| families :=
                                 InsertFamily ft {| channelID := al; familyTime := ft |} fam;
                               mutex := None; allocated := S al;
                               created := {| channelID := al; familyTime := ft |} :: cr |};
                  goroutines := [Returned ft {| channelID := al; familyTime := ft |}] |})
      by only_goroutine.
    reflexivity.
Qed.

(** C9.  Goroutines call [GetOrCreateFamilyChannel] on a new shard channel,
    each with a family time of its own, and take their steps (the lock-free
    read, [Lock], the second read under the mutex, the insert, [Unlock]) in
    any order.  In every state they reach: two goroutines that have returned
    for the same family time hold the same family channel; a goroutine that
    has returned did so for the family time it was called with, and holds
    the channel that the map holds for that time; no family time was given
    two channels; and as long as a goroutine has not returned, some
    goroutine can move.  Called twice in a row, the function returns the
    same channel and the second call changes nothing. *)
Theorem family_channel_unique (calls : list Z) (schedule : list nat) :
  (forall g1 g2 ft fc1 fc2,
     goroutines (run schedule (start newChannel calls)) !! g1 = Some (Returned ft fc1) ->
     goroutines (run schedule (start newChannel calls)) !! g2 = Some (Returned ft fc2) ->
     fc1 = fc2) /\
  (forall g ft fc,
     goroutines (run schedule (start newChannel calls)) !! g = Some (Returned ft fc) ->
     calls !! g = Some ft /\
     familyTime fc = ft /\
     GetFamilyChannel (families (shared (run schedule (start newChannel calls)))) ft
       = Some fc) /\
  NoDup (familyTime <$> created (shared (run schedule (start newChannel calls)))) /\
  (forall g p,
     goroutines (run schedule (start newChannel calls)) !! g = Some p ->
     ~ has_returned p ->
     exists g' s', step g' (run schedule (start newChannel calls)) = Some s') /\
  (forall ft, let '(fc, c) := GetOrCreateFamilyChannel ft newChannel in
              GetOrCreateFamilyChannel ft c = (fc, c)).
Proof.
  pose proof (invariant_run calls schedule _
                (invariant_start newChannel calls newChannel_coherent eq_refl)) as Hinv.
  split; [|split; [|split; [|split]]].
  - intros g1 g2 ft fc1 fc2 H1 H2.
    apply (inv_returned _ _ Hinv) in H1, H2. congruence.
  - intros g ft fc Hg. split; [by apply (inv_calls _ _ Hinv) in Hg|].
    apply (inv_returned _ _ Hinv) in Hg. split; [|done].
    by apply (map_keyed _ (inv_coherent _ _ Hinv)) in Hg.
  - apply (created_once _ (inv_coherent _ _ Hinv)).
  - intros g p. by apply some_goroutine_moves with (calls := calls).
  - intros ft. apply GetOrCreateFamilyChannel_again.
Qed.

Example race_outcome :
  goroutines (run race (start newChannel [5; 5; 7]))
  = [Returned 5 {| channelID := 0; familyTime := 5 |};
     Returned 5 {| channelID := 0; familyTime := 5 |};
     Returned 7 {| channelID := 1; familyTime := 7 |}]
  /\ created (shared (run race (start newChannel [5; 5; 7])))
     = [{| channelID := 1; familyTime := 7 |}; {| channelID := 0; familyTime := 5 |}].
Proof. vm_compute. done. Qed.

Lemma family_channel_unique_witness :
  (forall g1 g2 ft fc1 fc2,
     goroutines (run race (start newChannel [5; 5; 7])) !! g1 = Some (Returned ft fc1) ->
     goroutines (run race (start newChannel [5; 5; 7])) !! g2 = Some (Returned ft fc2) ->
     fc1 = fc2) /\
  (forall g ft fc,
     goroutines (run race (start newChannel [5; 5; 7])) !! g = Some (Returned ft fc) ->
     [5; 5; 7] !! g = Some ft /\
     familyTime fc = ft /\
     GetFamilyChannel (families (shared (run race (start newChannel [5; 5; 7])))) ft
       = Some fc) /\
  NoDup (familyTime <$> created (shared (run race (start newChannel [5; 5; 7])))) /\
  (forall g p,
     goroutines (run race (start newChannel [5; 5; 7])) !! g = Some p ->
     ~ has_returned p ->
     exists g' s', step g' (run race (start newChannel [5; 5; 7])) = Some s') /\
  (forall ft, let '(fc, c) := GetOrCreateFamilyChannel ft newChannel in
              GetOrCreateFamilyChannel ft c = (fc, c)).
Proof. exact (family_channel_unique [5; 5; 7] race). Defined.

(** *** The mutex, the channels created and the length of a call *)

(** X10.  Between [Lock] and the deferred [Unlock] there is at most one
    goroutine, and the mutex is given back on both ways out: once every
    call has returned nobody holds it. *)
Theorem mutex_released (calls : list Z) (schedule : list nat) :
  (forall g1 g2 p1 p2,
     goroutines (run schedule (start newChannel calls)) !! g1 = Some p1 ->
     goroutines (run schedule (start newChannel calls)) !! g2 = Some p2 ->
     in_critical_section p1 -> in_critical_section p2 -> g1 = g2) /\
  (Forall has_returned (goroutines (run schedule (start newChannel calls))) ->
   mutex (shared (run schedule (start newChannel calls))) = None).
Proof.
  pose proof (invariant_run calls schedule _
                (invariant_start newChannel calls newChannel_coherent eq_refl)) as Hinv.
  split.
  - intros g1 g2 p1 p2 H1 H2 Hc1 Hc2.
    pose proof (inv_mutex _ _ Hinv g1 p1 H1 Hc1) as Hm1.
    pose proof (inv_mutex _ _ Hinv g2 p2 H2 Hc2) as Hm2. congruence.
  - intros Hall.
    destruct (mutex (shared (run schedule (start newChannel calls)))) as [h|] eqn:Hm; [|done].
    destruct (inv_holder _ _ Hinv h Hm) as (q & Hq & Hcrit).
    rewrite Forall_lookup in Hall. specialize (Hall h q Hq).
    by destruct q.
Qed.

Lemma requested_start (calls : list Z) : requested calls (start newChannel calls).
Proof.
  split; cbn [start goroutines shared newChannel families created].
  - by rewrite length_fmap.
  - intros ft fc Hl. by rewrite lookup_empty in Hl.
  - intros ft fc Hl. by rewrite lookup_empty in Hl.
Qed.

Lemma requested_step (calls : list Z) (g : nat) (s s' : system) :
  invariant calls s -> requested calls s -> step g s = Some s' -> requested calls s'.
Proof.
  intros Hinv [Hlen Hcr Hca] Hstep. unfold step in Hstep.
  destruct (goroutines s !! g) as [p|] eqn:Hg; [|done]. cbn [mbind option_bind] in Hstep.
  destruct p as [ft|ft|ft|ft|fc|ft fc].
  - destruct (GetFamilyChannel _ _); simplify_eq;
      (split; cbn [goroutines shared]; [by rewrite length_insert | done | done]).
  - destruct (mutex (shared s)); simplify_eq.
    split; cbn [goroutines shared set_mutex families created];
      [by rewrite length_insert | done | done].
  - destruct (GetFamilyChannel _ _); simplify_eq;
      (split; cbn [goroutines shared]; [by rewrite length_insert | done | done]).
  - cbn [createFamilyChannel] in Hstep. simplify_eq.
    pose proof (inv_calls _ _ Hinv g _ Hg) as Hcall. cbn [call_of] in Hcall.
    split; cbn [goroutines shared families created]; unfold InsertFamily.
    + by rewrite length_insert.
    + intros ft' fc' Hl. destruct (decide (ft' = ft)) as [->|Hne].
      * rewrite lookup_insert_eq in Hl. simplify_eq. by left.
      * rewrite lookup_insert_ne in Hl by done. right. by apply (Hcr ft').
    + intros ft' fc' Hl. destruct (decide (ft' = ft)) as [->|Hne].
      * by apply list_elem_of_lookup_2 in Hcall.
      * rewrite lookup_insert_ne in Hl by done. by apply (Hca ft' fc').
  - simplify_eq.
    split; cbn [goroutines shared set_mutex families created];
      [by rewrite length_insert | done | done].
  - done.
Qed.

Lemma requested_run (calls : list Z) (schedule : list nat) : forall s,
  invariant calls s -> requested calls s -> requested calls (run schedule s).
Proof.
  induction schedule as [|g schedule IH]; intros s Hinv Hreq; simpl; [done|].
  destruct (step g s) as [s'|] eqn:Hstep; simpl; [|by apply IH].
  apply IH; [by apply (invariant_step calls g s) | by apply (requested_step calls g s)].
Qed.

(** X11.  No family channel is created for a family time that nobody asked
    for, and the channels created are the ones the map holds.  Once every
    call has returned, the map holds a channel for exactly the family
    times that were asked for, and one channel was created for each of
    them, however many goroutines asked for it. *)
Theorem created_as_requested (calls : list Z) (schedule : list nat) :
  (forall ft, is_Some (families (shared (run schedule (start newChannel calls))) !! ft) ->
     ft ∈ calls) /\
  (forall fc, fc ∈ created (shared (run schedule (start newChannel calls))) <->
     families (shared (run schedule (start newChannel calls))) !! familyTime fc = Some fc) /\
  (Forall has_returned (goroutines (run schedule (start newChannel calls))) ->
     (forall ft, ft ∈ calls <->
        is_Some (families (shared (run schedule (start newChannel calls))) !! ft)) /\
     familyTime <$> created (shared (run schedule (start newChannel calls)))
       ≡ₚ remove_dups calls).
Proof.
  pose proof (invariant_start newChannel calls newChannel_coherent eq_refl) as Hinv0.
  pose proof (invariant_run calls schedule _ Hinv0) as Hinv.
  pose proof (requested_run calls schedule _ Hinv0 (requested_start calls)) as Hreq.
  set (s := run schedule (start newChannel calls)) in *.
  destruct Hreq as [Hlen Hcr Hca].
  destruct (inv_coherent _ _ Hinv) as [Hkey Hmap Honce].
  assert (forall fc, fc ∈ created (shared s) <->
            families (shared s) !! familyTime fc = Some fc) as Hiff.
  { intros fc. split; [apply Hmap|]. apply Hcr. }
  split; [by intros ft [fc Hfc]; apply (Hca ft fc)|]. split; [done|].
  intros Hall.
  assert (forall ft, ft ∈ calls <-> is_Some (families (shared s) !! ft)) as Hdom.
  { intros ft. split; [|by intros [fc Hfc]; apply (Hca ft fc)].
    intros Hin. apply list_elem_of_lookup_1 in Hin as [g Hg].
    destruct (lookup_lt_is_Some_2 (goroutines s) g) as [p Hp].
    { rewrite Hlen. by apply lookup_lt_Some in Hg. }
    rewrite Forall_lookup in Hall. specialize (Hall g p Hp).
    destruct p as [| | | | |ft' fc]; try done.
    pose proof (inv_calls _ _ Hinv g _ Hp) as Hcall. cbn [call_of] in Hcall.
    assert (ft' = ft) as -> by congruence.
    exists fc. by apply (inv_returned _ _ Hinv g). }
  split; [done|].
  apply NoDup_Permutation; [done | apply NoDup_remove_dups |].
  intros ft. rewrite elem_of_remove_dups, Hdom. split.
  - intros Hin. apply list_elem_of_fmap in Hin as (fc & -> & Hfc).
    exists fc. by apply Hmap.
  - intros [fc Hfc]. apply list_elem_of_fmap. exists fc.
    split; [symmetry; by apply Hkey | by apply Hcr with ft].
Qed.

Lemma sum_list_moved (f : pc -> nat) (gs : list pc) : forall (g : nat) (p p' : pc),
  gs !! g = Some p ->
  (sum_list (f <$> <[g := p']> gs) + f p = sum_list (f <$> gs) + f p')%nat.
Proof.
  induction gs as [|q gs IH]; intros g p p' Hg; [done|].
  destruct g as [|g]; cbn in Hg.
  - simplify_eq. cbn. lia.
  - specialize (IH g p p' Hg). cbn. rewrite <- !Nat.add_assoc. f_equal. exact IH.
Qed.

(** Every step uses up some of the budget. *)
Lemma step_budget (g : nat) (s s' : system) :
  step g s = Some s' -> (S (budget s') <= budget s)%nat.
Proof.
  intros Hstep. unfold step in Hstep.
  destruct (goroutines s !! g) as [p|] eqn:Hg; [|done]. cbn [mbind option_bind] in Hstep.
  unfold budget.
  destruct p as [ft|ft|ft|ft|fc|ft fc].
  - destruct (GetFamilyChannel _ _); simplify_eq; cbn [goroutines];
      match goal with
      | |- context [<[g := ?p']> _] =>
          pose proof (sum_list_moved remaining (goroutines s) g _ p' Hg) as Hsum
      end; cbn [remaining] in Hsum; lia.
  - destruct (mutex (shared s)); simplify_eq. cbn [goroutines].
    pose proof (sum_list_moved remaining (goroutines s) g _ (DoubleCheck ft) Hg) as Hsum.
    cbn [remaining] in Hsum. lia.
  - destruct (GetFamilyChannel _ _); simplify_eq; cbn [goroutines];
      match goal with
      | |- context [<[g := ?p']> _] =>
          pose proof (sum_list_moved remaining (goroutines s) g _ p' Hg) as Hsum
      end; cbn [remaining] in Hsum; lia.
  - cbn [createFamilyChannel] in Hstep. simplify_eq. cbn [goroutines].
    match goal with
    | |- context [<[g := ?p']> _] =>
        pose proof (sum_list_moved remaining (goroutines s) g _ p' Hg) as Hsum
    end. cbn [remaining] in Hsum. lia.
  - simplify_eq. cbn [goroutines].
    match goal with
    | |- context [<[g := ?p']> _] =>
        pose proof (sum_list_moved remaining (goroutines s) g _ p' Hg) as Hsum
    end. cbn [remaining] in Hsum. lia.
  - done.
Qed.

Lemma moves_budget (schedule : list nat) : forall s, (moves schedule s <= budget s)%nat.
Proof.
  induction schedule as [|g schedule IH]; intros s; cbn [moves]; [lia|].
  destruct (step g s) as [s'|] eqn:Hstep; [|apply IH].
  pose proof (step_budget g s s' Hstep). specialize (IH s'). lia.
Qed.

Lemma budget_start (c : channel) (calls : list Z) :
  budget (start c calls) = (5 * length calls)%nat.
Proof.
  unfold budget, start. cbn [goroutines].
  induction calls as [|ft calls IH]; [done|].
  cbn [fmap list_fmap sum_list_with remaining length] in *. unfold id at 1.
  rewrite IH. lia.
Qed.

(** X12.  Every call comes to an end.  A call takes at most five steps
    (the read, [Lock], the second read, the insert, [Unlock]) and there is
    no retry: under any schedule the goroutines together take at most five
    steps for each call; and when no goroutine can move any more, every
    call has returned. *)
Theorem calls_return (calls : list Z) (schedule : list nat) :
  (moves schedule (start newChannel calls) <= 5 * length calls)%nat /\
  ((forall g, step g (run schedule (start newChannel calls)) = None) ->
   Forall has_returned (goroutines (run schedule (start newChannel calls)))).
Proof.
  split.
  - rewrite <- (budget_start newChannel calls). apply moves_budget.
  - intros Hstuck.
    pose proof (invariant_run calls schedule _
                  (invariant_start newChannel calls newChannel_coherent eq_refl)) as Hinv.
    apply Forall_lookup. intros g p Hp.
    destruct p as [ft|ft|ft|ft|fc|ft fc]; try done;
      (edestruct (some_goroutine_moves calls _ g _ Hinv Hp) as (g' & s' & Hstep);
       [by intros [] | by rewrite Hstuck in Hstep]).
Qed.

End ChannelFacts.

(** ** The remote replicator and the replica sequences *)
Module RemoteFacts.
Import replica.remote RemoteSpec.
Local Open Scope Z_scope.

Example IsReady_case8 :
  IsReady case8 ReplicatorInitState
  = {| result := true; state := ReplicatorReadyState;
       calls := [CallSetAppendSeq 11; CallSetHeadSeq 11] |}.
Proof. reflexivity. Qed.

Example IsReady_case7 :
  IsReady case7 ReplicatorInitState
  = {| result := true; state := ReplicatorReadyState;
       calls := [CallReset 10; CallSetHeadSeq 11] |}.
Proof. reflexivity. Qed.

(** C4 fails as stated: in the seventh case of the test the follower's ack
    index 10 is greater than the append sequence minus one, 9, and yet the
    replicator resets the follower and never calls [SetAppendSeq]; and
    when the ack index is the head minus one it calls nothing at all. *)
Lemma lost_data_rule_is_not_first :
  ~ (forall w st ack,
       reaches_reconciliation w st ack ->
       appendSeq w - 1 < ack ->
       CallSetAppendSeq (ack + 1) ∈ calls (IsReady w st)
       /\ CallSetHeadSeq (ack + 1) ∈ calls (IsReady w st)
       /\ result (IsReady w st) = true).
Proof.
  intros Hclaim.
  destruct (Hclaim case7 ReplicatorInitState 10) as (Hin & _).
  - by repeat split.
  - simpl. lia.
  - change (calls (IsReady case7 ReplicatorInitState))
      with [CallReset 10; CallSetHeadSeq 11] in Hin.
    revert Hin. rewrite !elem_of_cons, elem_of_nil. intuition discriminate.
Qed.

(** C4, as the rules are ordered.  When the handshake reaches the
    reconciliation with an ack index that is not the consumer's head minus
    one and not below the tail, and that is greater than the append
    sequence minus one, the replicator calls [SetAppendSeq(ackIndex + 1)]
    on the log, then [SetHeadSeq(ackIndex + 1)] on the consumer, and
    nothing else; it reports ready and is ready, whether or not
    [SetHeadSeq] returns an error. *)
Theorem lost_data_skips_forward (w : world) (st : ReplicatorState) (ack : Z) :
  reaches_reconciliation w st ack ->
  ack + 1 <> headSeq w ->
  tailSeq w <= ack ->
  appendSeq w - 1 < ack ->
  IsReady w st
  = {| result := true; state := ReplicatorReadyState;
       calls := [CallSetAppendSeq (ack + 1); CallSetHeadSeq (ack + 1)] |}.
Proof.
  intros (Hst & Hlive & Hcli & Hstream & Hack) Hhead Htail Happend.
  unfold IsReady. rewrite Hlive, Hcli, Hstream, Hack. simpl.
  destruct (ack + 1 =? headSeq w) eqn:E1; [apply Z.eqb_eq in E1; lia|].
  destruct (ack <? tailSeq w) eqn:E2; [apply Z.ltb_lt in E2; lia|].
  destruct (appendSeq w - 1 <? ack) eqn:E3; [|apply Z.ltb_ge in E3; lia].
  by destruct st.
Qed.

Lemma lost_data_skips_forward_witness :
  reaches_reconciliation case8 ReplicatorInitState 10 /\
  setHeadSeqOk case8 = false /\
  IsReady case8 ReplicatorInitState
  = {| result := true; state := ReplicatorReadyState;
       calls := [CallSetAppendSeq (10 + 1); CallSetHeadSeq (10 + 1)] |}.
Proof.
  split; [by repeat split|]. split; [reflexivity|].
  apply (lost_data_skips_forward case8 ReplicatorInitState 10).
  - by repeat split.
  - simpl. lia.
  - simpl. lia.
  - simpl. lia.
Defined.

(** Membership in an explicit list of calls. *)
Ltac in_calls :=
  rewrite ?elem_of_cons, ?elem_of_nil; intuition (try congruence; try discriminate).

(** C5.  For every call [Replica(seq, bytes)], whatever the stream
    answers: the first call is the send of [seq] and the payload; [Recv]
    is called only after it, when the send succeeded; [Ack] is called if
    and only if the send and the receive both succeed, with the ack index
    of the response and after the receive; and when either fails there
    is no [Ack] and the replicator is left failed. *)
Theorem replica_acks_iff_sent_and_received
    (w : world) (st : ReplicatorState) (seq : Z) (payload : list Byte.byte) :
  (exists rest, calls (Replica w st seq payload) = CallSend seq payload :: rest
                /\ forall r p, CallSend r p ∉ rest) /\
  (CallRecv ∈ calls (Replica w st seq payload) <-> sendOk w = true) /\
  (forall ack, CallAck ack ∈ calls (Replica w st seq payload)
               <-> sendOk w = true /\ recv w = Some ack) /\
  (forall ack, sendOk w = true -> recv w = Some ack ->
     calls (Replica w st seq payload) = [CallSend seq payload; CallRecv; CallAck ack]
     /\ state (Replica w st seq payload) = st) /\
  (sendOk w = false \/ recv w = None ->
     state (Replica w st seq payload) = ReplicatorFailureState
     /\ forall ack, CallAck ack ∉ calls (Replica w st seq payload)).
Proof.
  unfold Replica.
  destruct (sendOk w) eqn:Hsend; [destruct (recv w) as [ack0|] eqn:Hrecv|];
    cbn [negb calls state].
  - (* sent and received *)
    split; [eexists; split; [reflexivity | intros; in_calls]|].
    split; [in_calls|]. split; [intros ack; in_calls|].
    split; [intros ack _ ?; by simplify_eq|]. by intros [?|?].
  - (* sent, the receive failed *)
    split; [eexists; split; [reflexivity | intros; in_calls]|].
    split; [in_calls|]. split; [intros ack; in_calls|].
    split; [done|]. intros _. split; [done | intros; in_calls].
  - (* the send failed *)
    split; [eexists; split; [reflexivity | intros; in_calls]|].
    split; [in_calls|]. split; [intros ack; in_calls|].
    split; [done|]. intros _. split; [done | intros; in_calls].
Qed.

(** The three cases of [TestRemoteReplicator_Replica]. *)
Example Replica_send_fails :
  calls (Replica {| liveNode := true; createClient := true; openStream := true;
                    ackIndex := None; headSeq := 0; tailSeq := 0; appendSeq := 0;
                    resetOk := true; setHeadSeqOk := true;
                    sendOk := false; recv := Some 1 |}
           ReplicatorReadyState 1 [])
  = [CallSend 1 []].
Proof. reflexivity. Qed.

Example Replica_recv_fails :
  calls (Replica {| liveNode := true; createClient := true; openStream := true;
                    ackIndex := None; headSeq := 0; tailSeq := 0; appendSeq := 0;
                    resetOk := true; setHeadSeqOk := true;
                    sendOk := true; recv := None |}
           ReplicatorReadyState 1 [])
  = [CallSend 1 []; CallRecv].
Proof. reflexivity. Qed.

Example Replica_acks :
  calls (Replica {| liveNode := true; createClient := true; openStream := true;
                    ackIndex := None; headSeq := 0; tailSeq := 0; appendSeq := 0;
                    resetOk := true; setHeadSeqOk := true;
                    sendOk := true; recv := Some 1 |}
           ReplicatorReadyState 1 [])
  = [CallSend 1 []; CallRecv; CallAck 1].
Proof. reflexivity. Qed.

End RemoteFacts.

Module SequenceFacts.
Import tsdb SequenceSpec.
Local Open Scope Z_scope.

Section WithPlatform.
Variable os : platform.

Lemma load_sequences_spec (dir : string) (remotePeers : list string) :
  forall ss0 ss,
  load_sequences os dir remotePeers ss0 = inr ss ->
  dirPath ss = dirPath ss0 /\
  (forall peer, is_Some (sequenceMap ss0 !! peer) -> is_Some (sequenceMap ss !! peer)) /\
  (forall peer, peer ∈ remotePeers -> is_Some (sequenceMap ss !! peer)) /\
  (forall peer seq, sequenceMap ss !! peer = Some seq ->
     (peer ∈ remotePeers /\ loaded os dir peer seq)
     \/ ((peer ∉ remotePeers) /\ sequenceMap ss0 !! peer = Some seq)).
Proof.
  induction remotePeers as [|p ps IH]; intros ss0 ss Hload; simpl in Hload.
  - simplify_eq. split; [done|]. split; [done|].
    split; [intros peer Hin; by apply not_elem_of_nil in Hin|].
    intros peer seq Hl. right. split; [apply not_elem_of_nil | done].
  - destruct (newSequenceFunc os (Join os dir p)) as [err|persisted] eqn:Hnew; [done|].
    apply IH in Hload as (Hdir & Hkeep & Hall & Hmap). cbn [dirPath sequenceMap] in *.
    split; [done|]. split; [|split].
    + intros peer Hsome. apply Hkeep.
      destruct (decide (peer = p)) as [->|Hne].
      * by rewrite lookup_insert_eq.
      * by rewrite lookup_insert_ne.
    + intros peer Hin. apply elem_of_cons in Hin as [->|Hin]; [|by apply Hall].
      apply Hkeep. by rewrite lookup_insert_eq.
    + intros peer seq Hl. destruct (Hmap peer seq Hl) as [[Hin Hld]|[Hnin Hl0]].
      * left. split; [by right | done].
      * destruct (decide (peer = p)) as [->|Hne].
        -- rewrite lookup_insert_eq in Hl0. simplify_eq.
           left. split; [by left|]. by exists persisted.
        -- rewrite lookup_insert_ne in Hl0 by done. right.
           split; [|done]. intros Hin. apply elem_of_cons in Hin as [?|?]; done.
Qed.

Lemma load_sequences_succeeds (dir : string) (remotePeers : list string) :
  (forall peer, peer ∈ remotePeers ->
     exists persisted, newSequenceFunc os (Join os dir peer) = inr persisted) ->
  forall ss0, exists ss, load_sequences os dir remotePeers ss0 = inr ss.
Proof.
  induction remotePeers as [|p ps IH]; intros Hall ss0; simpl; [by eexists|].
  destruct (Hall p ltac:(by left)) as [persisted ->].
  apply IH. intros peer Hin. apply Hall. by right.
Qed.

Lemma syncSequence_ok (ss : replicaSequence) :
  (forall seq, Sync os seq = None) -> syncSequence os ss = None.
Proof.
  intros Hsync. unfold syncSequence.
  induction (map_to_list (sequenceMap ss)) as [|entry entries IH] using rev_ind; [done|].
  by rewrite foldl_snoc.
Qed.

(** [newReplicaSequence] returns a replica sequence when the directory
    exists and can be listed, every sequence file opens and every
    sequence syncs. *)
Lemma newReplicaSequence_loads (dir : string) (remotePeers : list string) :
  Exist os dir = true ->
  listDir os dir = inr remotePeers ->
  (forall peer, peer ∈ remotePeers ->
     exists persisted, newSequenceFunc os (Join os dir peer) = inr persisted) ->
  (forall seq, Sync os seq = None) ->
  exists ss, newReplicaSequence os dir = inr ss.
Proof.
  intros Hexist Hlist Hopen Hsync. unfold newReplicaSequence.
  rewrite Hexist, Hlist.
  destruct (load_sequences_succeeds dir remotePeers Hopen {| dirPath := dir; sequenceMap := ∅ |})
    as [ss ->].
  rewrite (syncSequence_ok ss Hsync). by exists ss.
Qed.

(** C8.  When the directory exists and [newReplicaSequence] returns a
    replica sequence, its map holds exactly the peers listed in the
    directory, and the sequence of each peer is the one persisted at the
    peer's path with its head moved to its ack: the head sequence equals
    the ack sequence, and the ack sequence is the persisted one. *)
Theorem startup_head_is_ack (dir : string) (ss : replicaSequence) :
  Exist os dir = true ->
  newReplicaSequence os dir = inr ss ->
  exists remotePeers,
    listDir os dir = inr remotePeers /\
    dirPath ss = dir /\
    (forall peer, peer ∈ remotePeers <-> is_Some (sequenceMap ss !! peer)) /\
    (forall peer seq, sequenceMap ss !! peer = Some seq ->
       GetHeadSeq seq = GetAckSeq seq /\
       exists persisted,
         newSequenceFunc os (Join os dir peer) = inr persisted /\
         seq = SetHeadSeq (GetAckSeq persisted) persisted /\
         GetAckSeq seq = GetAckSeq persisted).
Proof.
  intros Hexist Hnew. unfold newReplicaSequence in Hnew. rewrite Hexist in Hnew.
  destruct (listDir os dir) as [err|remotePeers] eqn:Hlist; [done|].
  destruct (load_sequences os dir remotePeers _) as [err|ss'] eqn:Hload; [done|].
  destruct (syncSequence os ss') as [err|]; [done|]. simplify_eq.
  apply load_sequences_spec in Hload as (Hdir & _ & Hall & Hmap).
  cbn [dirPath sequenceMap] in *.
  exists remotePeers. split; [done|]. split; [done|]. split.
  - intros peer. split; [apply Hall|]. intros [seq Hseq].
    destruct (Hmap peer seq Hseq) as [[Hin _]|[_ Hempty]]; [done|].
    by rewrite lookup_empty in Hempty.
  - intros peer seq Hseq.
    destruct (Hmap peer seq Hseq) as [[_ (persisted & Hopen & ->)]|[_ Hempty]].
    + split; [done|]. by exists persisted.
    + by rewrite lookup_empty in Hempty.
Qed.

End WithPlatform.

Example twoPeers_heads :
  match newReplicaSequence twoPeers "replica" with
  | inr ss => heads_and_acks ss ≡ₚ [("2"%string, (17, 17)); ("3"%string, (17, 17))]
  | inl _ => False
  end.
Proof. vm_compute. apply perm_swap || reflexivity. Qed.

Lemma startup_head_is_ack_witness :
  Exist twoPeers "replica" = true /\
  exists ss,
    newReplicaSequence twoPeers "replica" = inr ss /\
    exists remotePeers,
      listDir twoPeers "replica" = inr remotePeers /\
      dirPath ss = "replica"%string /\
      (forall peer, peer ∈ remotePeers <-> is_Some (sequenceMap ss !! peer)) /\
      (forall peer seq, sequenceMap ss !! peer = Some seq ->
         GetHeadSeq seq = GetAckSeq seq /\
         exists persisted,
           newSequenceFunc twoPeers (Join twoPeers "replica" peer) = inr persisted /\
           seq = SetHeadSeq (GetAckSeq persisted) persisted /\
           GetAckSeq seq = GetAckSeq persisted).
Proof.
  split; [reflexivity|].
  destruct (newReplicaSequence_loads twoPeers "replica" ["2"; "3"]%string)
    as [ss Hss]; try done.
  { intros peer _. by eexists. }
  exists ss. split; [done|].
  exact (startup_head_is_ack twoPeers "replica" ss eq_refl Hss).
Defined.

(** *** The other methods of [replicaSequence] *)
Section Methods.
Variable os : platform.

(** X13.  [getOrCreateSequence] opens the sequence of a peer once.  For a
    peer it knows it returns the sequence it holds and changes nothing.
    For a new peer it opens the sequence at the peer's path: if that fails
    the error is returned and nothing is stored, so that the next call
    tries again; otherwise the sequence is stored as it was opened, the
    other peers are left alone, and the next call returns the same
    sequence. *)
Theorem getOrCreateSequence_once (remotePeer : string) (ss : replicaSequence) :
  match getOrCreateSequence os remotePeer ss with
  | (inr seq, ss') =>
      sequenceMap ss' !! remotePeer = Some seq /\
      getOrCreateSequence os remotePeer ss' = (inr seq, ss') /\
      dirPath ss' = dirPath ss /\
      (forall other, other <> remotePeer ->
         sequenceMap ss' !! other = sequenceMap ss !! other) /\
      match sequenceMap ss !! remotePeer with
      | Some known => seq = known /\ ss' = ss
      | None => newSequenceFunc os (Join os (dirPath ss) remotePeer) = inr seq
      end
  | (inl err, ss') =>
      ss' = ss /\
      sequenceMap ss !! remotePeer = None /\
      newSequenceFunc os (Join os (dirPath ss) remotePeer) = inl err
  end.
Proof.
  unfold getOrCreateSequence.
  destruct (sequenceMap ss !! remotePeer) as [known|] eqn:Hknown.
  - rewrite Hknown. done.
  - destruct (newSequenceFunc os (Join os (dirPath ss) remotePeer)) as [err|seq] eqn:Hopen.
    + done.
    + cbn [sequenceMap dirPath]. rewrite lookup_insert_eq.
      split; [done|]. split; [done|]. split; [done|]. split; [|done].
      intros other Hne. by rewrite lookup_insert_ne.
Qed.

(** [getAllHeads] as a map. *)
Lemma getAllHeads_fmap (ss : replicaSequence) :
  getAllHeads ss = GetHeadSeq <$> sequenceMap ss.
Proof.
  unfold getAllHeads.
  assert (forall (entries : list (string * Sequence)) (result : gmap string Z),
            NoDup entries.*1 ->
            foldl (fun (result : gmap string Z) (entry : string * Sequence) =>
                     <[entry.1 := GetHeadSeq entry.2]> result) result entries
            = (GetHeadSeq <$> (list_to_map entries : gmap string Sequence)) ∪ result) as Hfold.
  { induction entries as [|[peer seq] entries IH]; intros result Hnd.
    - cbn [foldl list_to_map foldr]. by rewrite fmap_empty, (left_id_L ∅ (∪)).
    - cbn [foldl fst snd]. apply NoDup_cons in Hnd as [Hnew Hnd].
      rewrite IH by done. cbn [list_to_map foldr uncurry fst snd].
      rewrite fmap_insert.
      rewrite (insert_union_singleton_l (GetHeadSeq <$> _)).
      rewrite (insert_union_singleton_l result).
      rewrite (assoc_L (∪)). f_equal. apply map_union_comm.
      apply map_disjoint_singleton_r_2. rewrite lookup_fmap.
      by rewrite (not_elem_of_list_to_map_1 _ _ Hnew). }
  rewrite Hfold by apply NoDup_fst_map_to_list.
  by rewrite list_to_map_to_list, (right_id_L ∅ (∪)).
Qed.

(** The loop of [ack], peer by peer. *)
Lemma ack_loop_lookup (heads : list (string * Z)) : forall (ss : replicaSequence) (peer : string),
  NoDup heads.*1 ->
  dirPath (ack_loop heads ss) = dirPath ss /\
  sequenceMap (ack_loop heads ss) !! peer
  = (fun s => match (list_to_map heads : gmap string Z) !! peer with
              | Some head => SetAckSeq head s
              | None => s
              end) <$> sequenceMap ss !! peer.
Proof.
  induction heads as [|[p h] heads IH]; intros ss peer Hnd.
  - cbn [ack_loop foldl list_to_map foldr]. rewrite lookup_empty. split; [done|].
    by destruct (sequenceMap ss !! peer).
  - apply NoDup_cons in Hnd as [Hnew Hnd].
    change (ack_loop ((p, h) :: heads) ss)
      with (ack_loop heads
              match sequenceMap ss !! p with
              | None => ss
              | Some s => {| dirPath := dirPath ss;
                             sequenceMap := <[p := SetAckSeq h s]> (sequenceMap ss) |}
              end).
    destruct (IH (match sequenceMap ss !! p with
                  | None => ss
                  | Some s => {| dirPath := dirPath ss;
                                 sequenceMap := <[p := SetAckSeq h s]> (sequenceMap ss) |}
                  end) peer Hnd) as [Hdir Hmap].
    rewrite Hdir, Hmap. cbn [list_to_map foldr uncurry fst snd].
    split; [by destruct (sequenceMap ss !! p)|].
    destruct (decide (peer = p)) as [->|Hne].
    + rewrite lookup_insert_eq, (not_elem_of_list_to_map_1 _ _ Hnew).
      destruct (sequenceMap ss !! p) as [s|] eqn:Hs; cbn [sequenceMap].
      * by rewrite lookup_insert_eq.
      * by rewrite Hs.
    + rewrite lookup_insert_ne by done.
      destruct (sequenceMap ss !! p) as [s|] eqn:Hs; cbn [sequenceMap]; [|done].
      by rewrite lookup_insert_ne by done.
Qed.

Lemma ack_lookup (heads : gmap string Z) (ss : replicaSequence) (peer : string) :
  sequenceMap (ack os heads ss).2 !! peer
  = (fun s => match heads !! peer with
              | Some head => SetAckSeq head s
              | None => s
              end) <$> sequenceMap ss !! peer.
Proof.
  unfold ack. cbn [snd].
  destruct (ack_loop_lookup (map_to_list heads) ss peer (NoDup_fst_map_to_list heads))
    as [_ ->].
  by rewrite list_to_map_to_list.
Qed.

(** X14.  [ack] works on the peers it knows and on nothing else: a peer
    that is not in the map is passed over, and no sequence is opened for
    it; a known peer that [heads] names gets the head as its ack sequence;
    a known peer that [heads] does not name keeps its sequence; no head
    sequence changes.  The error returned is the one of [syncSequence],
    and the ack sequences are set whether or not the sync fails. *)
Theorem ack_known_peers (heads : gmap string Z) (ss : replicaSequence) :
  (ack os heads ss).1 = syncSequence os (ack os heads ss).2 /\
  dirPath (ack os heads ss).2 = dirPath ss /\
  getAllHeads (ack os heads ss).2 = getAllHeads ss /\
  (forall peer,
     sequenceMap ss !! peer = None -> sequenceMap (ack os heads ss).2 !! peer = None) /\
  (forall peer seq head,
     sequenceMap ss !! peer = Some seq -> heads !! peer = Some head ->
     sequenceMap (ack os heads ss).2 !! peer = Some (SetAckSeq head seq)) /\
  (forall peer seq,
     sequenceMap ss !! peer = Some seq -> heads !! peer = None ->
     sequenceMap (ack os heads ss).2 !! peer = Some seq).
Proof.
  split; [done|]. split.
  { unfold ack. cbn [snd].
    by destruct (ack_loop_lookup (map_to_list heads) ss ""
                   (NoDup_fst_map_to_list heads)) as [-> _]. }
  split.
  { rewrite !getAllHeads_fmap. apply map_eq. intros peer.
    rewrite !lookup_fmap, ack_lookup.
    destruct (sequenceMap ss !! peer) as [seq|]; [|done]. cbn.
    by destruct (heads !! peer). }
  split; [|split].
  - intros peer Hnone. by rewrite ack_lookup, Hnone.
  - intros peer seq head Hseq Hhead. by rewrite ack_lookup, Hseq, Hhead.
  - intros peer seq Hseq Hhead. by rewrite ack_lookup, Hseq, Hhead.
Qed.

(** X15.  Acknowledging the heads that [getAllHeads] reports brings every
    sequence to [ack = head]: the peers and their head sequences are as
    before, and each ack sequence is the head sequence. *)
Theorem ack_all_heads (ss : replicaSequence) :
  forall peer,
    match sequenceMap ss !! peer with
    | Some seq =>
        sequenceMap (ack os (getAllHeads ss) ss).2 !! peer
          = Some (SetAckSeq (GetHeadSeq seq) seq) /\
        getAllHeads (ack os (getAllHeads ss) ss).2 !! peer = Some (GetHeadSeq seq)
    | None =>
        sequenceMap (ack os (getAllHeads ss) ss).2 !! peer = None
    end.
Proof.
  intros peer. rewrite !getAllHeads_fmap, lookup_fmap, ack_lookup, lookup_fmap.
  by destruct (sequenceMap ss !! peer) as [seq|].
Qed.

(** X16.  [syncSequence] keeps one error only: every [seq.Sync()]
    overwrites [err], so the result is that of the sequence [Range] visits
    last, and a failure of a sequence visited before it is not reported.
    An error it returns is the error of some sequence of the map, and
    without sequences there is none. *)
Theorem syncSequence_last (ss : replicaSequence) :
  syncSequence os ss
  = match last (map_to_list (sequenceMap ss)) with
    | Some entry => Sync os entry.2
    | None => None
    end
  /\ (forall err, syncSequence os ss = Some err ->
        exists peer seq, sequenceMap ss !! peer = Some seq /\ Sync os seq = Some err)
  /\ (sequenceMap ss = ∅ -> syncSequence os ss = None).
Proof.
  assert (syncSequence os ss
          = match last (map_to_list (sequenceMap ss)) with
            | Some entry => Sync os entry.2
            | None => None
            end) as Hlast.
  { unfold syncSequence.
    destruct (map_to_list (sequenceMap ss)) as [|entry entries] using rev_ind; [done|].
    by rewrite foldl_snoc, last_snoc. }
  split; [done|]. split.
  - intros err Herr. rewrite Hlast in Herr.
    destruct (last (map_to_list (sequenceMap ss))) as [[peer seq]|] eqn:Hl; [|done].
    exists peer, seq. split; [|done].
    apply elem_of_map_to_list. apply last_Some in Hl as [l' ->].
    apply elem_of_app. right. by left.
  - intros Hempty. rewrite Hlast, Hempty, map_to_list_empty. done.
Qed.

(** X17.  [newReplicaSequence] gives up at the first peer of the listing
    whose sequence cannot be opened: it returns that error and no replica
    sequence, whatever the peers listed after it. *)
Theorem startup_stops_at_bad_peer (dir : string) (good : list string) (bad : string)
    (others : list string) (err : error) :
  Exist os dir = true ->
  listDir os dir = inr (good ++ bad :: others) ->
  (forall peer, peer ∈ good ->
     exists persisted, newSequenceFunc os (Join os dir peer) = inr persisted) ->
  newSequenceFunc os (Join os dir bad) = inl err ->
  newReplicaSequence os dir = inl err.
Proof.
  intros Hexist Hlist Hgood Hbad. unfold newReplicaSequence. rewrite Hexist, Hlist.
  assert (forall ss0, load_sequences os dir (good ++ bad :: others) ss0 = inl err) as ->; [|done].
  clear Hlist. induction good as [|peer good IH]; intros ss0; cbn [app load_sequences].
  - by rewrite Hbad.
  - destruct (Hgood peer ltac:(by left)) as [persisted ->].
    apply IH. intros peer' Hin. apply Hgood. by right.
Qed.

(** X18.  A shard without a replica directory:  [newReplicaSequence] makes
    the directory and returns a replica sequence without peers, so that
    [getAllHeads] is empty; the first [getOrCreateSequence] for a peer
    then opens the peer's sequence under the directory, and [getAllHeads]
    reports the head of that sequence as it was opened. *)
Theorem first_peer_of_new_shard (dir remotePeer : string) (seq : Sequence) :
  Exist os dir = false ->
  mkDirIfNotExist os dir = None ->
  newSequenceFunc os (Join os dir remotePeer) = inr seq ->
  exists ss ss',
    newReplicaSequence os dir = inr ss /\
    getAllHeads ss = ∅ /\
    getOrCreateSequence os remotePeer ss = (inr seq, ss') /\
    getAllHeads ss' = {[ remotePeer := GetHeadSeq seq ]}.
Proof.
  intros Hexist Hmk Hopen. unfold newReplicaSequence. rewrite Hexist, Hmk.
  eexists _, _. split; [reflexivity|].
  split; [by rewrite getAllHeads_fmap; cbn [sequenceMap]; rewrite fmap_empty|].
  unfold getOrCreateSequence. cbn [sequenceMap dirPath]. rewrite lookup_empty, Hopen.
  split; [reflexivity|].
  rewrite getAllHeads_fmap. cbn [sequenceMap].
  by rewrite insert_empty, map_fmap_singleton.
Qed.

End Methods.

Lemma startup_stops_at_bad_peer_witness :
  Exist brokenPeer "replica" = true /\
  listDir brokenPeer "replica" = inr (["2"%string] ++ "3"%string :: ["4"%string]) /\
  (forall peer, peer ∈ ["2"%string] ->
     exists persisted,
       newSequenceFunc brokenPeer (Join brokenPeer "replica" peer) = inr persisted) /\
  newSequenceFunc brokenPeer (Join brokenPeer "replica" "3") = inl "cannot open"%string /\
  newReplicaSequence brokenPeer "replica" = inl "cannot open"%string.
Proof.
  assert (forall peer, peer ∈ ["2"%string] ->
            exists persisted,
              newSequenceFunc brokenPeer (Join brokenPeer "replica" peer) = inr persisted)
    as Hgood.
  { intros peer Hin. apply list_elem_of_singleton in Hin as ->. by eexists. }
  split; [reflexivity|]. split; [reflexivity|]. split; [exact Hgood|].
  split; [reflexivity|].
  exact (startup_stops_at_bad_peer brokenPeer "replica" ["2"%string] "3" ["4"%string]
           "cannot open"%string eq_refl eq_refl Hgood eq_refl).
Defined.

Lemma first_peer_of_new_shard_witness :
  Exist newShard "replica" = false /\
  mkDirIfNotExist newShard "replica" = None /\
  newSequenceFunc newShard (Join newShard "replica" "2")
    = inr {| file := "replica/2"; headSeq := 5; ackSeq := 3 |} /\
  exists ss ss',
    newReplicaSequence newShard "replica" = inr ss /\
    getAllHeads ss = ∅ /\
    getOrCreateSequence newShard "2" ss
      = (inr {| file := "replica/2"; headSeq := 5; ackSeq := 3 |}, ss') /\
    getAllHeads ss'
      = {[ "2"%string := GetHeadSeq {| file := "replica/2"; headSeq := 5; ackSeq := 3 |} ]}.
Proof.
  split; [reflexivity|]. split; [reflexivity|]. split; [reflexivity|].
  exact (first_peer_of_new_shard newShard "replica" "2"
           {| file := "replica/2"; headSeq := 5; ackSeq := 3 |} eq_refl eq_refl eq_refl).
Defined.

End SequenceFacts.
